(** * imagediff: a shallow embedding of [imagediff.go] and its properties

    The development follows the Go source function by function:
    [calculateImageStats], [normalizePixel], [computeDiffChunk],
    [createChunks], [createCompositeImage] and the control flow of [main].

    - Go's [int] and [int64] are 64-bit two's complement integers: they are
      embedded as [Z] with the wrap-around written out ([GoInt.wrap64]).
    - Go's [float64] is IEEE 754 binary64: it is embedded as Rocq's primitive
      [float], which is the same format with the same rounding.
    - [image.Image] is used by the program only through [Bounds()] and
      [At(x, y).RGBA()]; [*image.RGBA] only through [Set], [At] and
      [draw.Draw]. *)

From Stdlib Require Import ZArith List String Floats Uint63 Lia Permutation.
From stdpp Require Import gmap list list_numbers.

Local Open Scope Z_scope.

(** ** Go integers *)

Module GoInt.

Definition min_int : Z := - 2 ^ 63.
Definition max_int : Z := 2 ^ 63 - 1.

(** The value of a 64-bit two's complement integer after an operation whose
    mathematical result is [z]. *)
Definition wrap64 (z : Z) : Z := (z + 2 ^ 63) mod 2 ^ 64 - 2 ^ 63.

(** [uint32] arithmetic, used for the channel sums. *)
Definition wrap32u (z : Z) : Z := z mod 2 ^ 32.

Definition is_int (z : Z) : Prop := min_int <= z <= max_int.

Definition add (a b : Z) : Z := wrap64 (a + b).
Definition sub (a b : Z) : Z := wrap64 (a - b).
Definition mul (a b : Z) : Z := wrap64 (a * b).

(** Integer division truncates toward zero and panics on a zero divisor
    ([None]). *)
Definition quo (a b : Z) : option Z :=
  if b =? 0 then None else Some (wrap64 (Z.quot a b)).

End GoInt.

(** ** Loops *)

(** [for i := lo; i < hi; i++ { s = body i s }]. The counter stays below
    [hi], so [i++] never wraps. *)
Fixpoint iterate {S : Type} (n : nat) (i : Z) (body : Z -> S -> S) (s : S) : S :=
  match n with
  | O => s
  | Datatypes.S n' => iterate n' (i + 1) body (body i s)
  end.

Definition for_lt {S : Type} (lo hi : Z) (body : Z -> S -> S) (s : S) : S :=
  iterate (Z.to_nat (hi - lo)) lo body s.

(** The same loop when the body may leave the enclosing function: the body
    returns the new state and whether to go on. *)
Fixpoint iterate_brk {S : Type} (n : nat) (i : Z)
    (body : Z -> S -> S * bool) (s : S) : S * bool :=
  match n with
  | O => (s, true)
  | Datatypes.S n' =>
      let '(s', go) := body i s in
      if go then iterate_brk n' (i + 1) body s' else (s', false)
  end.

Definition for_lt_brk {S : Type} (lo hi : Z)
    (body : Z -> S -> S * bool) (s : S) : S * bool :=
  iterate_brk (Z.to_nat (hi - lo)) lo body s.

(** ** Geometry: [image.Point], [image.Rectangle] and [Chunk] *)

Record Point := mkPoint { X : Z; Y : Z }.

Record Rectangle := mkRect { Min : Point; Max : Point }.

Definition Dx (r : Rectangle) : Z := GoInt.sub (X (Max r)) (X (Min r)).
Definition Dy (r : Rectangle) : Z := GoInt.sub (Y (Max r)) (Y (Min r)).

(** [Point.In]: [r.Min.X <= p.X && p.X < r.Max.X && r.Min.Y <= p.Y && p.Y < r.Max.Y]. *)
Definition In_rect (x y : Z) (r : Rectangle) : bool :=
  (X (Min r) <=? x) && (x <? X (Max r)) && (Y (Min r) <=? y) && (y <? Y (Max r)).

(** [image.Rect(x0, y0, x1, y1)] orders the coordinates. *)
Definition image_Rect (x0 y0 x1 y1 : Z) : Rectangle :=
  let '(x0, x1) := if x1 <? x0 then (x1, x0) else (x0, x1) in
  let '(y0, y1) := if y1 <? y0 then (y1, y0) else (y0, y1) in
  mkRect (mkPoint x0 y0) (mkPoint x1 y1).

(** The coordinates are Go [int]s. *)
Definition int_rect (r : Rectangle) : Prop :=
  GoInt.is_int (X (Min r)) /\ GoInt.is_int (Y (Min r)) /\
  GoInt.is_int (X (Max r)) /\ GoInt.is_int (Y (Max r)).

(** "A Rectangle is well-formed if Min.X <= Max.X and likewise for Y"
    (package [image]). *)
Definition well_formed (r : Rectangle) : Prop :=
  X (Min r) <= X (Max r) /\ Y (Min r) <= Y (Max r).

(** Both extents, as the program computes them, are positive. *)
Definition positive_area (r : Rectangle) : Prop := 0 < Dx r /\ 0 < Dy r.

Record Chunk := mkChunk { startX : Z; endX : Z; startY : Z; endY : Z }.

(** The pixel [(x, y)] is visited by the loops over chunk [c]. *)
Definition in_chunk (x y : Z) (c : Chunk) : bool :=
  (startX c <=? x) && (x <? endX c) && (startY c <=? y) && (y <? endY c).

(** ** createChunks *)

(** [createChunks] returns an iterator: a function that feeds every chunk to
    [yield] and returns as soon as [yield] answers false. Here [yield] also
    threads the consumer's state. [None] is the run-time panic of the two
    integer divisions when a grid parameter is zero. *)
Definition createChunks {S : Type} (bounds : Rectangle) (numChunksX numChunksY : Z)
    (yield : Chunk -> S -> S * bool) (s : S) : option S :=
  let width := Dx bounds in
  let height := Dy bounds in
  match GoInt.quo width numChunksX, GoInt.quo height numChunksY with
  | Some chunkWidth, Some chunkHeight =>
      Some (fst (for_lt_brk 0 numChunksY (fun i s =>
        for_lt_brk 0 numChunksX (fun j s =>
          let startX := GoInt.add (X (Min bounds)) (GoInt.mul j chunkWidth) in
          let startY := GoInt.add (Y (Min bounds)) (GoInt.mul i chunkHeight) in
          let endX := GoInt.add startX chunkWidth in
          let endY := GoInt.add startY chunkHeight in
          let endX := if j =? GoInt.sub numChunksX 1 then X (Max bounds) else endX in
          let endY := if i =? GoInt.sub numChunksY 1 then Y (Max bounds) else endY in
          yield (mkChunk startX endX startY endY) s) s) s))
  | _, _ => None
  end.

(** The chunks a [for chunk := range createChunks(...)] loop that never
    breaks receives, in order. *)
Definition chunkList (bounds : Rectangle) (numChunksX numChunksY : Z) : option (list Chunk) :=
  option_map (@rev Chunk)
    (createChunks bounds numChunksX numChunksY (fun c acc => (c :: acc, true)) []).

(** The chunk [createChunks] builds at row [i] and column [j], with the
    arithmetic carried out in [Z]. *)
Definition gridChunk (bounds : Rectangle) (numChunksX numChunksY i j : Z) : Chunk :=
  let chunkWidth := (X (Max bounds) - X (Min bounds)) / numChunksX in
  let chunkHeight := (Y (Max bounds) - Y (Min bounds)) / numChunksY in
  mkChunk
    (X (Min bounds) + j * chunkWidth)
    (if j =? numChunksX - 1 then X (Max bounds)
     else X (Min bounds) + j * chunkWidth + chunkWidth)
    (Y (Min bounds) + i * chunkHeight)
    (if i =? numChunksY - 1 then Y (Max bounds)
     else Y (Min bounds) + i * chunkHeight + chunkHeight).

Definition grid (bounds : Rectangle) (numChunksX numChunksY : Z) : list Chunk :=
  i ← seqZ 0 numChunksY;
  j ← seqZ 0 numChunksX;
  [gridChunk bounds numChunksX numChunksY i j].

(** Both loops over [c] run at least once. *)
Definition nonempty (c : Chunk) : Prop := startX c < endX c /\ startY c < endY c.

(** Number of chunks of [cs] that contain the pixel [(x, y)]. *)
Definition covering (x y : Z) (cs : list Chunk) : nat :=
  length (List.filter (in_chunk x y) cs).

(** [cs] tiles [r] exactly: every pixel of [r] lies in exactly one chunk and
    no chunk has a pixel outside [r]. *)
Definition exact_tiling (r : Rectangle) (cs : list Chunk) : Prop :=
  forall x y, covering x y cs = if In_rect x y r then 1%nat else 0%nat.

(** ** float64 *)

Module F64.

(** [float64(v)] for an unsigned [v] below [2^63] (the [uint32] channel
    values, and non-negative [int]s). *)
Definition of_uint (v : Z) : float := of_uint63 (Uint63.of_Z v).

(** [float64(n)] for an [int] [n]. *)
Definition of_int (n : Z) : float :=
  if n <? 0 then
    if n =? GoInt.min_int then (- Z.ldexp 1 63)%float else (- of_uint (- n))%float
  else of_uint n.

(** The integer part of a finite float: "the fraction is discarded
    (truncation towards zero)". [None] for NaN and the infinities. *)
Definition trunc (f : float) : option Z :=
  match Prim2SF f with
  | S754_zero _ => Some 0
  | S754_finite s m e => Some (cond_Zopp s (Z.shiftl (Zpos m) e))
  | S754_infinity _ | S754_nan => None
  end.

(** "In all non-constant conversions involving floating-point values, if
    the result type cannot represent the value the conversion succeeds but
    the result value is implementation-dependent." The two functions give
    that result for [uint8] and for [int]. *)
Record Conv := mkConv { unrep_uint8 : float -> Z; unrep_int : float -> Z }.

(** [uint8(f)] *)
Definition to_uint8 (cv : Conv) (f : float) : Z :=
  match trunc f with
  | Some z => if (0 <=? z) && (z <=? 255) then z else unrep_uint8 cv f mod 256
  | None => unrep_uint8 cv f mod 256
  end.

(** [int(f)] *)
Definition to_int (cv : Conv) (f : float) : Z :=
  match trunc f with
  | Some z =>
      if (GoInt.min_int <=? z) && (z <=? GoInt.max_int) then z
      else GoInt.wrap64 (unrep_int cv f)
  | None => GoInt.wrap64 (unrep_int cv f)
  end.

(** The builtin [min] on two floats: NaN if either is NaN, and negative
    zero below positive zero. *)
Definition min (x y : float) : float :=
  if is_nan x then x
  else if is_nan y then y
  else if (x <? y)%float then x
  else if (y <? x)%float then y
  else if get_sign x then x else y.

End F64.

(** The class of a magnitude: NaN, or a value whose sign bit is clear. *)
Definition magnitude (x : spec_float) : bool :=
  match x with
  | S754_nan | S754_zero false | S754_infinity false | S754_finite false _ _ => true
  | _ => false
  end.

(** The binary64 representation of the positive integer [N], when it has at
    most 53 binary digits: a 53-bit mantissa and the matching exponent. *)
Definition canon (s : bool) (N : positive) : spec_float :=
  S754_finite s (Z.to_pos (Z.pos N * 2 ^ (53 - Z.pos (digits2_pos N))))
    (Z.pos (digits2_pos N) - 53).

(** The representation of a natural number below [2^53]. *)
Definition canonZ (n : Z) : spec_float :=
  match n with
  | Z.pos p => canon false p
  | _ => S754_zero false
  end.

(** The exponent of the value's leading bit. *)
Definition magn (m e : Z) : Z := Zdigits2 m + e.

(** A number greater than zero. *)
Definition positive_sf (x : spec_float) : bool :=
  match x with
  | S754_infinity false | S754_finite false _ _ => true
  | _ => false
  end.

(** Strictly between 0 and 1. *)
Definition in_unit (f : float) : bool := (0 <? f)%float && (f <? 1)%float.

(** ** Colours and images *)

(** [color.RGBA]: four [uint8] channels. *)
Record RGBA8 := mkRGBA { R : Z; G : Z; B : Z; A : Z }.

(** The four [uint32] results of [Color.RGBA()]. *)
Record Color16 := mkColor16 { r16 : Z; g16 : Z; b16 : Z; a16 : Z }.

(** [color.RGBA.RGBA()]: [r = uint32(c.R); r |= r << 8], and so on. *)
Definition widen (v : Z) : Z := Z.lor v (Z.shiftl v 8).

Definition RGBA_RGBA (c : RGBA8) : Color16 :=
  mkColor16 (widen (R c)) (widen (G c)) (widen (B c)) (widen (A c)).

(** [color.RGBAModel.Convert]: [uint8(r >> 8)], and so on. *)
Definition narrow (v : Z) : Z := Z.shiftr v 8 mod 256.

Definition RGBAModel_Convert (c : Color16) : RGBA8 :=
  mkRGBA (narrow (r16 c)) (narrow (g16 c)) (narrow (b16 c)) (narrow (a16 c)).

(** [image.Image], as far as the program uses it: [Bounds()] and
    [At(x, y).RGBA()]. *)
Record Image := mkImage { Bounds : Rectangle; At : Z -> Z -> Color16 }.

(** [*image.RGBA]: the pixels that were set, by coordinate, inside [Rect].
    A pixel never set is the zero colour, as in the buffer [image.NewRGBA]
    allocates. *)
Record RGBAImage := mkRGBAImage { Pix : gmap (Z * Z) RGBA8; Rect : Rectangle }.

Definition NewRGBA (r : Rectangle) : RGBAImage := mkRGBAImage ∅ r.

(** [RGBA.RGBAAt]: the zero colour outside [Rect]. *)
Definition RGBAAt (p : RGBAImage) (x y : Z) : RGBA8 :=
  if In_rect x y (Rect p) then default (mkRGBA 0 0 0 0) (Pix p !! (x, y))
  else mkRGBA 0 0 0 0.

(** [RGBA.Set] with a [color.RGBA]: nothing happens outside [Rect]. *)
Definition RGBA_Set (p : RGBAImage) (x y : Z) (c : RGBA8) : RGBAImage :=
  if In_rect x y (Rect p) then mkRGBAImage (<[(x, y) := c]> (Pix p)) (Rect p)
  else p.

(** An [*image.RGBA] seen through the [image.Image] interface. *)
Definition as_Image (p : RGBAImage) : Image :=
  mkImage (Rect p) (fun x y => RGBA_RGBA (RGBAAt p x y)).

(** ** ImageStats, calculateImageStats and normalizePixel *)

Record ImageStats := mkStats {
  meanR : float; meanG : float; meanB : float; meanA : float;
  stdR : float; stdG : float; stdB : float; stdA : float }.

(** [var stats ImageStats]: the zero value. *)
Definition zero_stats : ImageStats := mkStats 0 0 0 0 0 0 0 0.

(** [float64(r) / 257] for a [uint32] channel value. *)
Definition chan (v : Z) : float := (F64.of_uint v / 257)%float.

Definition calculateImageStats (img : Image) : ImageStats :=
  let bounds := Bounds img in
  let count := F64.of_int (GoInt.mul (Dx bounds) (Dy bounds)) in
  let '(sumR, sumG, sumB, sumA) :=
    for_lt (Y (Min bounds)) (Y (Max bounds)) (fun y s =>
      for_lt (X (Min bounds)) (X (Max bounds)) (fun x '(sumR, sumG, sumB, sumA) =>
        let c := At img x y in
        (sumR + chan (r16 c), sumG + chan (g16 c),
         sumB + chan (b16 c), sumA + chan (a16 c))%float) s)
      (0, 0, 0, 0)%float in
  let meanR := (sumR / count)%float in
  let meanG := (sumG / count)%float in
  let meanB := (sumB / count)%float in
  let meanA := (sumA / count)%float in
  let '(sumSqDiffR, sumSqDiffG, sumSqDiffB, sumSqDiffA) :=
    for_lt (Y (Min bounds)) (Y (Max bounds)) (fun y s =>
      for_lt (X (Min bounds)) (X (Max bounds)) (fun x '(sqR, sqG, sqB, sqA) =>
        let c := At img x y in
        let r8 := chan (r16 c) in
        let g8 := chan (g16 c) in
        let b8 := chan (b16 c) in
        let a8 := chan (a16 c) in
        (sqR + (r8 - meanR) * (r8 - meanR), sqG + (g8 - meanG) * (g8 - meanG),
         sqB + (b8 - meanB) * (b8 - meanB), sqA + (a8 - meanA) * (a8 - meanA))%float) s)
      (0, 0, 0, 0)%float in
  mkStats meanR meanG meanB meanA
    (PrimFloat.sqrt (sumSqDiffR / count)) (PrimFloat.sqrt (sumSqDiffG / count))
    (PrimFloat.sqrt (sumSqDiffB / count)) (PrimFloat.sqrt (sumSqDiffA / count)).

Definition normalizePixel (value mean std : float) : float :=
  if (std =? 0)%float then value else ((value - mean) / std)%float.

(** ** computeDiffChunk *)

(** The four channel differences of one pixel pair. *)
Definition channelDiffs (c1 c2 : Color16) (stats1 stats2 : ImageStats)
    (normalized : bool) : float * float * float * float :=
  let r1f := chan (r16 c1) in
  let g1f := chan (g16 c1) in
  let b1f := chan (b16 c1) in
  let a1f := chan (a16 c1) in
  let r2f := chan (r16 c2) in
  let g2f := chan (g16 c2) in
  let b2f := chan (b16 c2) in
  let a2f := chan (a16 c2) in
  if normalized then
    let normR1 := normalizePixel r1f (meanR stats1) (stdR stats1) in
    let normG1 := normalizePixel g1f (meanG stats1) (stdG stats1) in
    let normB1 := normalizePixel b1f (meanB stats1) (stdB stats1) in
    let normA1 := normalizePixel a1f (meanA stats1) (stdA stats1) in
    let normR2 := normalizePixel r2f (meanR stats2) (stdR stats2) in
    let normG2 := normalizePixel g2f (meanG stats2) (stdG stats2) in
    let normB2 := normalizePixel b2f (meanB stats2) (stdB stats2) in
    let normA2 := normalizePixel a2f (meanA stats2) (stdA stats2) in
    (PrimFloat.abs (normR1 - normR2), PrimFloat.abs (normG1 - normG2),
     PrimFloat.abs (normB1 - normB2), PrimFloat.abs (normA1 - normA2))%float
  else
    (PrimFloat.abs (r1f - r2f), PrimFloat.abs (g1f - g2f), PrimFloat.abs (b1f - b2f), PrimFloat.abs (a1f - a2f))%float.

(** [(r + g + b + a) > 0] on [uint32] values. *)
Definition nonzero_pixel (c : Color16) : bool :=
  0 <? GoInt.wrap32u (GoInt.wrap32u (GoInt.wrap32u (r16 c + g16 c) + b16 c) + a16 c).

(** [c++] on an [int64] counter, when [b] holds. *)
Definition bump (b : bool) (c : Z) : Z := if b then GoInt.add c 1 else c.

Section Conversions.

Variable cv : F64.Conv.

(** The [switch diffMode] statement: the colour written for the channel
    differences of one pixel. *)
Definition render (diffMode : string) (scaleFactor : float)
    (rDiff gDiff bDiff : float) : RGBA8 :=
  let '(r, g, b) :=
    if String.eqb diffMode "bw" then
      if (0 <? rDiff)%float || (0 <? gDiff)%float || (0 <? bDiff)%float
      then (255, 255, 255) else (0, 0, 0)
    else if String.eqb diffMode "gray" then
      let avgDiff := ((rDiff + gDiff + bDiff) / 3)%float in
      let gray := F64.to_uint8 cv (F64.min (avgDiff * scaleFactor) 255) in
      (gray, gray, gray)
    else if String.eqb diffMode "color" then
      (F64.to_uint8 cv (F64.min (rDiff * scaleFactor) 255),
       F64.to_uint8 cv (F64.min (gDiff * scaleFactor) 255),
       F64.to_uint8 cv (F64.min (bDiff * scaleFactor) 255))
    else
      (F64.to_uint8 cv (F64.min (rDiff * scaleFactor) 255),
       F64.to_uint8 cv (F64.min (gDiff * scaleFactor) 255),
       F64.to_uint8 cv (F64.min (bDiff * scaleFactor) 255)) in
  let a := 255 in
  mkRGBA r g b a.

(** What one iteration of the inner loop computes from the two pixels:
    whether each of the three counters is incremented, and the colour
    written. *)
Definition diffPixel (c1 c2 : Color16) (stats1 stats2 : ImageStats)
    (normalized : bool) (scaleFactor : float) (diffMode : string)
    : bool * bool * bool * RGBA8 :=
  let '(rDiff, gDiff, bDiff, aDiff) := channelDiffs c1 c2 stats1 stats2 normalized in
  (nonzero_pixel c1, nonzero_pixel c2,
   (0 <? rDiff + gDiff + bDiff + aDiff)%float,
   render diffMode scaleFactor rDiff gDiff bDiff).

(** The state of the loops: the shared [diffImg] and the three local
    counters. The result is that state on return. *)
Definition computeDiffChunk (img1 img2 : Image) (diffImg : RGBAImage)
    (chunk : Chunk) (stats1 stats2 : ImageStats) (normalized : bool)
    (scaleFactor : float) (diffMode : string)
    : RGBAImage * (Z * Z * Z) :=
  for_lt (startY chunk) (endY chunk) (fun y s =>
    for_lt (startX chunk) (endX chunk) (fun x '(diffImg, (count1, count2, diffCount)) =>
      let '(nz1, nz2, differs, px) :=
        diffPixel (At img1 x y) (At img2 x y) stats1 stats2
          normalized scaleFactor diffMode in
      (RGBA_Set diffImg x y px,
       (bump nz1 count1, bump nz2 count2, bump differs diffCount))) s)
    (diffImg, (0, 0, 0)).

End Conversions.

(** ** Package [image/draw], as [createCompositeImage] uses it *)

(** [Rectangle.Empty] *)
Definition Empty (r : Rectangle) : bool :=
  (X (Max r) <=? X (Min r)) || (Y (Max r) <=? Y (Min r)).

(** [image.ZR] *)
Definition ZR : Rectangle := mkRect (mkPoint 0 0) (mkPoint 0 0).

(** [Rectangle.Intersect] *)
Definition Intersect (r s : Rectangle) : Rectangle :=
  let minX := if X (Min r) <? X (Min s) then X (Min s) else X (Min r) in
  let minY := if Y (Min r) <? Y (Min s) then Y (Min s) else Y (Min r) in
  let maxX := if X (Max s) <? X (Max r) then X (Max s) else X (Max r) in
  let maxY := if Y (Max s) <? Y (Max r) then Y (Max s) else Y (Max r) in
  let r := mkRect (mkPoint minX minY) (mkPoint maxX maxY) in
  if Empty r then ZR else r.

Definition Point_Add (p q : Point) : Point :=
  mkPoint (GoInt.add (X p) (X q)) (GoInt.add (Y p) (Y q)).

Definition Point_Sub (p q : Point) : Point :=
  mkPoint (GoInt.sub (X p) (X q)) (GoInt.sub (Y p) (Y q)).

(** [Rectangle.Add] *)
Definition Rect_Add (r : Rectangle) (p : Point) : Rectangle :=
  mkRect (Point_Add (Min r) p) (Point_Add (Max r) p).

(** [draw.Draw(dst, r, src, sp, draw.Src)] on an [*image.RGBA] destination:
    "Draw aligns r.Min in dst with sp in src and then replaces the rectangle
    r in dst with the result of drawing src on dst", after [r] has been
    clipped to the bounds of [dst] and to those of [src] moved to [r]. Each
    pixel is stored through [color.RGBAModel]. *)
Definition Draw (dst : RGBAImage) (r : Rectangle) (src : Image) (sp : Point) : RGBAImage :=
  let orig := Min r in
  let r := Intersect r (Rect dst) in
  let r := Intersect r (Rect_Add (Bounds src) (Point_Sub orig sp)) in
  let sp := Point_Add sp (Point_Sub (Min r) orig) in
  if Empty r then dst
  else
    for_lt (Y (Min r)) (Y (Max r)) (fun y dst =>
      for_lt (X (Min r)) (X (Max r)) (fun x dst =>
        let sx := GoInt.sub (GoInt.add (X sp) x) (X (Min r)) in
        let sy := GoInt.sub (GoInt.add (Y sp) y) (Y (Min r)) in
        RGBA_Set dst x y (RGBAModel_Convert (At src sx sy))) dst) dst.

(** ** createCompositeImage *)

Definition createCompositeImage (img1 img2 diffImg : Image) : RGBAImage :=
  let bounds1 := Bounds img1 in
  let width := GoInt.mul (Dx bounds1) 3 in
  let height := Dy bounds1 in
  let composite := NewRGBA (image_Rect 0 0 width height) in
  let composite :=
    Draw composite (image_Rect 0 0 (Dx bounds1) (Dy bounds1)) img1 (Min bounds1) in
  let composite :=
    Draw composite
      (image_Rect (Dx bounds1) 0 (GoInt.mul (Dx bounds1) 2) (Dy bounds1))
      diffImg (Min bounds1) in
  let composite :=
    Draw composite (image_Rect (GoInt.mul (Dx bounds1) 2) 0 width (Dy bounds1))
      img2 (Min bounds1) in
  composite.

(** ** The goroutines of [main] *)

(** What [main]'s goroutines share: the diff image and the three counters. *)
Record Shared := mkShared {
  diffImg : RGBAImage; count1 : Z; count2 : Z; diffCount : Z }.

(** The steps of a goroutine that touch the shared state: a [diffImg.Set]
    inside [computeDiffChunk], and the three [atomic.AddInt64] after it. *)
Inductive Action :=
| Write (x y : Z) (c : RGBA8)
| AddCount1 (n : Z)
| AddCount2 (n : Z)
| AddDiffCount (n : Z).

Definition perform (a : Action) (s : Shared) : Shared :=
  match a with
  | Write x y c => mkShared (RGBA_Set (diffImg s) x y c) (count1 s) (count2 s) (diffCount s)
  | AddCount1 n => mkShared (diffImg s) (GoInt.add (count1 s) n) (count2 s) (diffCount s)
  | AddCount2 n => mkShared (diffImg s) (count1 s) (GoInt.add (count2 s) n) (diffCount s)
  | AddDiffCount n => mkShared (diffImg s) (count1 s) (count2 s) (GoInt.add (diffCount s) n)
  end.

(** The coordinates the loops of [computeDiffChunk] visit, in order. *)
Definition pixels (c : Chunk) : list (Z * Z) :=
  y ← seqZ (startY c) (endY c - startY c);
  x ← seqZ (startX c) (endX c - startX c);
  [(x, y)].

Section Scheduling.

Variable cv : F64.Conv.
Variables img1 img2 : Image.
Variables stats1 stats2 : ImageStats.
Variable normalized : bool.
Variable scaleFactor : float.
Variable diffMode : string.

(** The colour [computeDiffChunk] sets at [(x, y)]. *)
Definition pixelAt (p : Z * Z) : RGBA8 :=
  snd (diffPixel cv (At img1 p.1 p.2) (At img2 p.1 p.2) stats1 stats2
         normalized scaleFactor diffMode).

(** The body of [go func(c Chunk) { ... }(chunk)]: the writes of
    [computeDiffChunk], then the three atomic additions of its results. *)
Definition goroutine (c : Chunk) : list Action :=
  let '(n1, n2, n3) :=
    snd (computeDiffChunk cv img1 img2 (NewRGBA (Bounds img1)) c stats1 stats2
           normalized scaleFactor diffMode) in
  map (fun p => Write p.1 p.2 (pixelAt p)) (pixels c)
  ++ [AddCount1 n1; AddCount2 n2; AddDiffCount n3].

End Scheduling.

(** The block of [src] copied to the columns from [a] on, row 0 on. *)
Definition paint (src : Image) (a : Z) (dst : RGBAImage) : RGBAImage :=
  let b := Bounds src in
  fold_left (fun d p => RGBA_Set d p.1 p.2
               (RGBAModel_Convert (At src (X (Min b) + (p.1 - a)) (Y (Min b) + p.2))))
    (pixels (mkChunk a (a + (X (Max b) - X (Min b))) 0 (Y (Max b) - Y (Min b)))) dst.

(** The channels of a [color.RGBA] are [uint8]s. *)
Definition valid_RGBA (c : RGBA8) : Prop :=
  0 <= R c < 256 /\ 0 <= G c < 256 /\ 0 <= B c < 256 /\ 0 <= A c < 256.

(** Number of coordinates of [ps] at which [f] holds. *)
Definition tally (f : Z * Z -> bool) (ps : list (Z * Z)) : Z :=
  Z.of_nat (length (List.filter f ps)).

(** The rectangle as one chunk. *)
Definition whole (r : Rectangle) : Chunk :=
  mkChunk (X (Min r)) (X (Max r)) (Y (Min r)) (Y (Max r)).

(** Performing a list of actions in order. *)
Definition perform_all (acts : list Action) (s : Shared) : Shared :=
  fold_left (fun s a => perform a s) acts s.

(** The three tests of one iteration of [computeDiffChunk], by coordinate. *)
Definition hit1 (img1 : Image) (p : Z * Z) : bool := nonzero_pixel (At img1 p.1 p.2).

Definition hit2 (img2 : Image) (p : Z * Z) : bool := nonzero_pixel (At img2 p.1 p.2).

Definition hitDiff (cv : F64.Conv) (img1 img2 : Image) (stats1 stats2 : ImageStats)
    (normalized : bool) (scaleFactor : float) (diffMode : string) (p : Z * Z) : bool :=
  (diffPixel cv (At img1 p.1 p.2) (At img2 p.1 p.2) stats1 stats2
     normalized scaleFactor diffMode).1.2.

(** The coordinates written by a list of actions, and the amounts added to
    each of the three counters (0, 1, 2). *)
Definition written (acts : list Action) : list (Z * Z) :=
  a ← acts; match a with Write x y _ => [(x, y)] | _ => [] end.

Definition added (which : nat) (acts : list Action) : Z :=
  foldr (fun a n =>
           match a, which with
           | AddCount1 k, 0%nat | AddCount2 k, 1%nat | AddDiffCount k, 2%nat => k + n
           | _, _ => n
           end) 0 acts.

(** Every write of [acts] stores the colour [g] gives for its coordinate. *)
Definition coherent (g : Z * Z -> RGBA8) (acts : list Action) : Prop :=
  Forall (fun a => match a with Write x y c => c = g (x, y) | _ => True end) acts.

Definition pixel_dec (p q : Z * Z) : {p = q} + {p <> q} := decide (p = q).

(** An execution of the goroutines: at each step the scheduler picks the
    goroutine (by index) that performs its next action. [None] when the
    picked goroutine does not exist or has finished. *)
Fixpoint run_schedule (sched : list nat) (threads : list (list Action)) (s : Shared)
    : option (Shared * list (list Action)) :=
  match sched with
  | [] => Some (s, threads)
  | i :: sched' =>
      match threads !! i with
      | Some (a :: rest) => run_schedule sched' (<[i := rest]> threads) (perform a s)
      | _ => None
      end
  end.

Definition finished (t : list Action) : bool :=
  match t with [] => true | _ => false end.

(** [wg.Wait()] returns once every goroutine has finished: the shared state
    after a schedule under which all of them ran to their end. *)
Definition join (sched : list nat) (threads : list (list Action)) (s : Shared)
    : option Shared :=
  match run_schedule sched threads s with
  | Some (s', threads') => if forallb finished threads' then Some s' else None
  | None => None
  end.

(** The schedule that runs the goroutines one after the other. *)
Definition sequential (threads : list (list Action)) : list nat :=
  i ← seq 0 (length threads);
  repeat i (length (default [] (threads !! i))).

(** ** Population statistics *)

(** The sum of a list of [float64] values, in list order from zero. *)
Definition fsum (vs : list float) : float := fold_left PrimFloat.add vs 0%float.

(** The number of values, as [float64]. *)
Definition fcount (vs : list float) : float := F64.of_uint (Z.of_nat (length vs)).

(** The arithmetic mean in [float64] arithmetic. *)
Definition population_mean (vs : list float) : float := (fsum vs / fcount vs)%float.

(** The population standard deviation in [float64] arithmetic: the square
    root of the mean of the squared deviations from the mean, the divisor
    being the number of values. *)
Definition population_std (vs : list float) : float :=
  let mean := population_mean vs in
  PrimFloat.sqrt (fsum (map (fun v => ((v - mean) * (v - mean))%float) vs) / fcount vs).

(** The values of one channel of an image, on the 8-bit scale, row by row. *)
Definition channel (ch : Color16 -> Z) (img : Image) : list float :=
  map (fun p => chan (ch (At img p.1 p.2))) (pixels (whole (Bounds img))).

(** ** main *)

(** The command-line flags. *)
Record Flags := mkFlags {
  left : string; right : string; output : string; wait : bool; viewer : string;
  includeInputs : bool; normalized : bool; scale : float; normalizedScale : float;
  diffMode : string; verbose : bool; gitConfig : string }.

(** What [main] obtains from outside the program: the file system, the PNG
    codec, the viewer, [git], the number of CPUs and the order in which the
    scheduler runs the goroutines. *)
Record World := mkWorld {
  open_file : string -> bool;
  decode : string -> option Image;
  NumCPU : Z;
  create_temp : option string;
  create_file : string -> bool;
  encode : RGBAImage -> bool;
  open_viewer : string -> bool;
  git_config : bool -> bool;
  schedule : list nat }.

Inductive Side := Left | Right.

(** The observable steps of [main]. Informational log lines ([-verbose]) are
    not recorded; an error message is recorded by its text, whether it goes
    through [log] or [fmt]. *)
Inductive Event :=
| EError (msg : string)
| EUsage
| EGitConfig (enable : bool)
| EOpen (file : string)
| EDecode (file : string)
| EStats (side : Side)
| ESpawn (c : Chunk)
| ECreateTemp
| ECreate (file : string)
| EEncode (img : RGBAImage)
| ESuccess (file : string) (differing : option Z)
| EViewer (file : string).

(** How [main] ends: [os.Exit(code)], or falling off its end. *)
Inductive Ending := Exit (code : Z) | Returned.

(** A computation that records events and may end the program. *)
Definition Run (A : Type) : Type := list Event * (Ending + A).

Definition ret {A : Type} (a : A) : Run A := ([], inr a).
Definition emit (e : Event) : Run unit := ([e], inr tt).
Definition os_Exit {A : Type} (code : Z) : Run A := ([], inl (Exit code)).

Definition bind {A B : Type} (m : Run A) (k : A -> Run B) : Run B :=
  match m with
  | (t, inl e) => (t, inl e)
  | (t, inr a) => let '(t', r) := k a in (t ++ t', r)
  end.

#[global] Instance Run_bind : MBind Run := fun A B k m => bind m k.

Definition fail {A : Type} (msg : string) : Run A :=
  emit (EError msg);; os_Exit 1.

Definition fail_usage {A : Type} (msg : string) : Run A :=
  emit (EError msg);; emit EUsage;; os_Exit 1.

Definition when (b : bool) (m : Run unit) : Run unit := if b then m else ret tt.

Definition is_empty (s : string) : bool := String.eqb s "".

(** The grid [main] chooses for [numCPU] processors and the given bounds.
    [None] is the panic of [numCPU / numChunksX] on a zero divisor. *)
Definition chooseGrid (cv : F64.Conv) (numCPU : Z) (bounds1 : Rectangle) : option (Z * Z) :=
  let numChunksX := F64.to_int cv (PrimFloat.sqrt (F64.of_int numCPU)) in
  match GoInt.quo numCPU numChunksX with
  | None => None
  | Some numChunksY =>
      let numChunksY :=
        if GoInt.mul numChunksX numChunksY <? numCPU then GoInt.add numChunksY 1
        else numChunksY in
      let minChunkSize := 32 in
      match GoInt.quo (Dx bounds1) numChunksX with
      | None => None
      | Some w =>
          let numChunksX :=
            if w <? minChunkSize then Z.quot (Dx bounds1) minChunkSize else numChunksX in
          match GoInt.quo (Dy bounds1) numChunksY with
          | None => None
          | Some h =>
              let numChunksY :=
                if h <? minChunkSize then Z.quot (Dy bounds1) minChunkSize else numChunksY in
              let numChunksX := if numChunksX <? 1 then 1 else numChunksX in
              let numChunksY := if numChunksY <? 1 then 1 else numChunksY in
              Some (numChunksX, numChunksY)
          end
      end
  end.

Definition panic {A : Type} : Run A := os_Exit 2.

Definition same_rect (r s : Rectangle) : bool :=
  (X (Min r) =? X (Min s)) && (Y (Min r) =? Y (Min s)) &&
  (X (Max r) =? X (Max s)) && (Y (Max r) =? Y (Max s)).

(** [main], from the parsed flags. The result is [None] when the world's
    schedule is not an execution of the goroutines this run starts. *)
Definition main (cv : F64.Conv) (fl : Flags) (w : World) : option (list Event * Ending) :=
  let before_join : Run (Image * Image * list Chunk * list (list Action) * float) :=
    when (negb (is_empty (gitConfig fl)))
      (if String.eqb (gitConfig fl) "enable" then
         emit (EGitConfig true);;
         if git_config w true then os_Exit 0 else os_Exit 1
       else if String.eqb (gitConfig fl) "disable" then
         emit (EGitConfig false);;
         if git_config w false then os_Exit 0 else os_Exit 1
       else fail_usage "Invalid -git-config value");;
    when (is_empty (left fl) || is_empty (right fl))
      (fail_usage "Both left and right input files are required");;
    when (negb (String.eqb (diffMode fl) "bw") && negb (String.eqb (diffMode fl) "gray")
          && negb (String.eqb (diffMode fl) "color"))
      (fail_usage "Invalid -diff-mode value");;
    emit (EOpen (left fl));;
    when (negb (open_file w (left fl))) (fail "Error opening left image");;
    emit (EOpen (right fl));;
    when (negb (open_file w (right fl))) (fail "Error opening right image");;
    emit (EDecode (left fl));;
    img1 ← match decode w (left fl) with
            | Some img => ret img
            | None => fail "Error decoding left image"
            end;
    emit (EDecode (right fl));;
    img2 ← match decode w (right fl) with
            | Some img => ret img
            | None => fail "Error decoding right image"
            end;
    let bounds1 := Bounds img1 in
    let bounds2 := Bounds img2 in
    when (negb (same_rect bounds1 bounds2))
      (fail "Images must have the same dimensions");;
    stats ← (if normalized fl then
                emit (EStats Left);;
                let stats1 := calculateImageStats img1 in
                emit (EStats Right);;
                let stats2 := calculateImageStats img2 in
                ret (stats1, stats2)
              else ret (zero_stats, zero_stats));
    let '(stats1, stats2) := stats in
    let scaleFactor := if normalized fl then normalizedScale fl else scale fl in
    match chooseGrid cv (NumCPU w) bounds1 with
    | None => panic
    | Some (numChunksX, numChunksY) =>
        match chunkList bounds1 numChunksX numChunksY with
        | None => panic
        | Some chunks =>
            fold_right (fun c k => emit (ESpawn c);; k) (ret tt) chunks;;
            ret (img1, img2, chunks,
                 map (goroutine cv img1 img2 stats1 stats2 (normalized fl)
                        scaleFactor (diffMode fl)) chunks,
                 scaleFactor)
        end
    end in
  match before_join with
  | (t, inl e) => Some (t, e)
  | (t, inr (img1, img2, chunks, threads, scaleFactor)) =>
      match join (schedule w) threads (mkShared (NewRGBA (Bounds img1)) 0 0 0) with
      | None => None
      | Some shared =>
          let after_join : Run unit :=
            outputFile ← (if is_empty (output fl) then
                             emit ECreateTemp;;
                             match create_temp w with
                             | Some name => ret name
                             | None => fail "Error creating temporary file"
                             end
                           else ret (output fl));
            emit (ECreate outputFile);;
            when (negb (create_file w outputFile)) (fail "Error creating output file");;
            let finalImg :=
              if includeInputs fl
              then createCompositeImage img1 img2 (as_Image (diffImg shared))
              else diffImg shared in
            emit (EEncode finalImg);;
            when (negb (encode w finalImg)) (fail "Error encoding output image");;
            emit (ESuccess outputFile
                    (if normalized fl then None else Some (diffCount shared)));;
            emit (EViewer outputFile);;
            when (negb (open_viewer w outputFile)) (fail "Error opening image") in
          match bind (t, inr tt) (fun _ => after_join) with
          | (t', inl e) => Some (t', e)
          | (t', inr _) => Some (t', Returned)
          end
      end
  end.

(** The events of a run that compute statistics, start chunk processing or
    produce output. *)
Definition is_processing (e : Event) : bool :=
  match e with
  | EStats _ | ESpawn _ | ECreateTemp | ECreate _ | EEncode _
  | ESuccess _ _ | EViewer _ => true
  | EError _ | EUsage | EGitConfig _ | EOpen _ | EDecode _ => false
  end.

Definition no_processing (t : list Event) : bool :=
  forallb (fun e => negb (is_processing e)) t.

(** ** Fixtures *)

(** [createTestImage] of the test file: an [*image.RGBA] filled with [c]. *)
Definition createTestImage (width height : Z) (c : RGBA8) : RGBAImage :=
  for_lt 0 height (fun y img =>
    for_lt 0 width (fun x img => RGBA_Set img x y c) img)
    (NewRGBA (image_Rect 0 0 width height)).

(** The "Checkerboard" image of [TestCalculateImageStats]. *)
Definition checkerboard : RGBAImage :=
  RGBA_Set (RGBA_Set (RGBA_Set (RGBA_Set (NewRGBA (image_Rect 0 0 2 2))
    0 0 (mkRGBA 255 255 255 255)) 0 1 (mkRGBA 0 0 0 255))
    1 0 (mkRGBA 0 0 0 255)) 1 1 (mkRGBA 255 255 255 255).

(** One admissible choice for the implementation-dependent conversions. *)
Definition sample_conv : F64.Conv := F64.mkConv (fun _ => 0) (fun _ => 0).

(** A world with four CPUs in which every file operation succeeds, both
    input files decode to the given images, the encoder refuses an image
    without pixels (as [png.Encode] does) and the goroutines run under the
    given schedule. *)
Definition sample_world (img1 img2 : Image) (sched : list nat) : World :=
  mkWorld (fun _ => true)
    (fun file => if String.eqb file "left.png" then Some img1 else Some img2)
    4 (Some "imagediff-1.png"%string) (fun _ => true)
    (fun img => negb (Empty (Rect img)))
    (fun _ => true) (fun _ => true) sched.

Definition sample_flags (normalized : bool) (diffMode : string) : Flags :=
  mkFlags "left.png" "right.png" "out.png" false "" false normalized 2 50
    diffMode false "".

(** ** Consumers of an iterator *)

(** A [for c := range seq] loop over the elements [l]: the loop body [yield]
    runs on each element in turn until it answers false ([break] or
    [return]). The result is the consumer's state and whether the loop ran
    to its end. *)
Fixpoint feed {St A : Type} (yield : A -> St -> St * bool) (l : list A) (s : St) : St * bool :=
  match l with
  | [] => (s, true)
  | a :: l' =>
      let '(s', go) := yield a s in
      if go then feed yield l' s' else (s', false)
  end.

(** The consumer that keeps what it receives (newest first) and stops after
    the first element on which [stop] holds. *)
Definition until {A : Type} (stop : A -> bool) (a : A) (acc : list A) : list A * bool :=
  (a :: acc, negb (stop a)).

(** ** The square root of the number of CPUs *)

(** [p] holds on the [n] integers from [lo] on. *)
Fixpoint holds_from (p : Z -> bool) (lo : Z) (n : nat) : bool :=
  match n with
  | O => true
  | S n' => p lo && holds_from p (lo + 1) n'
  end.

(** [math.Sqrt(float64(n))] truncates to the integer square root of [n]. *)
Definition sqrt_exact (n : Z) : bool :=
  match F64.trunc (PrimFloat.sqrt (F64.of_int n)) with
  | Some z => z =? Z.sqrt n
  | None => false
  end.

(** ** float64: deciding equality *)

Definition sf_eqb (x y : spec_float) : bool :=
  match x, y with
  | S754_zero s, S754_zero s' => Bool.eqb s s'
  | S754_infinity s, S754_infinity s' => Bool.eqb s s'
  | S754_nan, S754_nan => true
  | S754_finite s m e, S754_finite s' m' e' => Bool.eqb s s' && (m =? m')%positive && (e =? e')
  | _, _ => false
  end.

(** The two floats are the same value (the two zeros are different values,
    NaN is one value). *)
Definition same_float (x y : float) : bool := sf_eqb (Prim2SF x) (Prim2SF y).

(** [p] holds on every pair of 8-bit values. *)
Definition holds_uint8_pairs (p : Z -> Z -> bool) : bool :=
  holds_from (fun a => holds_from (p a) 0 256) 0 256.

(** The difference of two 8-bit channel values, as [computeDiffChunk]
    computes it without normalization. *)
Definition delta8 (a b : Z) : float := PrimFloat.abs (F64.of_uint a - F64.of_uint b).

(** The channels of [Color.RGBA()] "range within [0, 0xffff]". *)
Definition range16 (c : Color16) : Prop :=
  0 <= r16 c < 65536 /\ 0 <= g16 c < 65536 /\ 0 <= b16 c < 65536 /\ 0 <= a16 c < 65536.

(** The absolute differences of the four channels of two 8-bit colours. *)
Definition dist8 (c1 c2 : RGBA8) : Z * Z * Z * Z :=
  (Z.abs (R c1 - R c2), Z.abs (G c1 - G c2), Z.abs (B c1 - B c2), Z.abs (A c1 - A c2)).

(** [p] holds for every sum of three 8-bit differences and every integer
    scale factor below 15. *)
Definition holds_gray (p : Z -> Z -> bool) : bool :=
  holds_from (fun s => holds_from (p s) 0 15) 0 766.

(** ** Helpers of the test file *)

(** [approxEqual]: [math.Abs(a-b) <= tol]. *)
Definition approxEqual (a b tol : float) : bool := (PrimFloat.abs (a - b) <=? tol)%float.

(** The statistics of an image without pixels: every field is NaN. *)
Definition nan_stats : ImageStats := mkStats nan nan nan nan nan nan nan nan.

(** ** Runs of main *)

(** The same world under another schedule of the goroutines. *)
Definition with_schedule (w : World) (sched : list nat) : World :=
  mkWorld (open_file w) (decode w) (NumCPU w) (create_temp w) (create_file w)
    (encode w) (open_viewer w) (git_config w) sched.

(** The three values [-diff-mode] accepts. *)
Definition valid_mode (mode : string) : Prop :=
  mode = "bw"%string \/ mode = "gray"%string \/ mode = "color"%string.

(** The trace ends with an error message, possibly followed by the usage
    text. *)
Definition ends_in_error (t : list Event) : Prop :=
  exists pre msg, t = pre ++ [EError msg] \/ t = pre ++ [EError msg; EUsage].

(** The trace ends with the encoding, the success message and the viewer. *)
Definition ends_in_success (t : list Event) : Prop :=
  exists pre out img cnt, t = pre ++ [EEncode img; ESuccess out cnt; EViewer out].

(** The events of argument handling: the git configuration, error messages
    and the usage text. *)
Definition argument_event (e : Event) : bool :=
  match e with
  | EGitConfig _ | EError _ | EUsage => true
  | _ => false
  end.

Local Open Scope string_scope.

(** ** openImage and getViewerName *)

(** How a command is launched: [cmd.Run] waits for it to complete,
    [cmd.Start] does not. *)
Inductive Launch := CmdRun | CmdStart.

(** [openImage], up to the launch itself: the command line it builds and
    how it launches it, or the error it returns without launching anything.
    [goos] is [runtime.GOOS]; [quote] is the [%q] verb of [fmt.Sprintf]. The
    error of the launched command, which [openImage] passes on, belongs to
    the command. *)
Definition openImage (goos : string) (quote : string -> string)
    (filename viewer : string) (wait : bool) : (list string * Launch) + string :=
  if negb (String.eqb viewer "") then
    if wait then inl ([viewer; filename], CmdRun)
    else inl ([viewer; filename], CmdStart)
  else if String.eqb goos "darwin" then
    inl (if wait then ["open"; "-W"; filename] else ["open"; filename], CmdRun)%string
  else if String.eqb goos "linux" then
    inl (if wait then ["sh"; "-c"; "xdg-open " ++ quote filename ++ " && wait"]
         else ["xdg-open"; filename], CmdRun)%string
  else if String.eqb goos "windows" then
    inl (if wait then ["cmd"; "/c"; "start"; "/wait"; filename]
         else ["cmd"; "/c"; "start"; filename], CmdRun)%string
  else inr ("unsupported operating system: " ++ goos)%string.

Definition getViewerName (goos : string) (viewer : string) : string :=
  if negb (String.eqb viewer "") then ("custom viewer (" ++ viewer ++ ")")%string
  else if String.eqb goos "darwin" then "default macOS viewer"%string
  else if String.eqb goos "linux" then "default Linux viewer"%string
  else if String.eqb goos "windows" then "default Windows viewer"%string
  else "default viewer"%string.

(** ** configureGitDifftool *)

(** The double quote character, as a string. *)
Definition dquote : string := String (Ascii.ascii_of_nat 34) EmptyString.

(** What [configureGitDifftool] uses of the system: [os.Executable] and the
    effect of running a command ([cmd.Run]) on the state of the system, with
    the text of the error if it fails. *)
Record System (St : Type) := mkSystem {
  os_Executable : string + string;
  cmd_Run : list string -> St -> option string * St }.

Arguments mkSystem {St}.
Arguments os_Executable {St}.
Arguments cmd_Run {St}.

(** The steps of [configureGitDifftool]: a command that was run, a line that
    was printed (through [log] or [fmt]). *)
Inductive Step := SRun (argv : list string) | SPrint (line : string).

(** [configureGitDifftool]: the steps taken, whether it ended the program
    ([Some code]) or returned, and the state of the system afterwards. *)
Definition configureGitDifftool {St : Type} (sys : System St) (enable : bool) (s : St)
    : list Step * option Z * St :=
  let toolName := "imagediff"%string in
  match os_Executable sys with
  | inr err => ([SPrint ("Error getting executable path: " ++ err)], Some 1, s)
  | inl binaryPath =>
      if enable then
        let cmd1 := ["git"; "config"; "--global"; "diff.tool"; toolName]%string in
        match cmd_Run sys cmd1 s with
        | (Some err, s) =>
            ([SRun cmd1; SPrint ("Error setting diff.tool: " ++ err)], Some 1, s)
        | (None, s) =>
            let cmdStr :=
              (binaryPath ++ " -left " ++ dquote ++ "$LOCAL" ++ dquote
               ++ " -right " ++ dquote ++ "$REMOTE" ++ dquote ++ " -wait")%string in
            let cmd2 := ["git"; "config"; "--global";
                         ("difftool." ++ toolName ++ ".cmd")%string; cmdStr]%string in
            match cmd_Run sys cmd2 s with
            | (Some err, s) =>
                ([SRun cmd1; SRun cmd2;
                  SPrint ("Error setting difftool." ++ toolName ++ ".cmd: " ++ err)],
                 Some 1, s)
            | (None, s) =>
                ([SRun cmd1; SRun cmd2;
                  SPrint "imagediff successfully enabled as git difftool"], None, s)
            end
        end
      else
        let cmd1 := ["git"; "config"; "--global"; "--unset"; "diff.tool"]%string in
        let tolerated (r : option string) : bool :=
          match r with
          | Some err => String.eqb err "exit status 5"
          | None => true
          end in
        match cmd_Run sys cmd1 s with
        | (r1, s) =>
            if negb (tolerated r1) then
              ([SRun cmd1; SPrint ("Error unsetting diff.tool: " ++ default "" r1)],
               Some 1, s)
            else
              let cmd2 := ["git"; "config"; "--global"; "--unset";
                           ("difftool." ++ toolName ++ ".cmd")%string]%string in
              match cmd_Run sys cmd2 s with
              | (r2, s) =>
                  if negb (tolerated r2) then
                    ([SRun cmd1; SRun cmd2;
                      SPrint ("Error unsetting difftool." ++ toolName ++ ".cmd: "
                              ++ default "" r2)], Some 1, s)
                  else
                    ([SRun cmd1; SRun cmd2;
                      SPrint "imagediff successfully disabled as git difftool"], None, s)
              end
        end
  end.

(** A [git] whose global configuration is a finite map from keys to values:
    [git config --global key value] sets the key, [git config --global
    --unset key] removes it and fails with exit status 5 when the key is not
    set (git-config(1): "you try to unset an option which does not exist
    (ret=5)"); any other command line fails. *)
Definition git_config_store (argv : list string) (cfg : gmap string string)
    : option string * gmap string string :=
  match argv with
  | [git; config; global; arg; val] =>
      if String.eqb git "git" && String.eqb config "config"
         && String.eqb global "--global" then
        if String.eqb arg "--unset" then
          match cfg !! val with
          | Some _ => (None, delete val cfg)
          | None => (Some "exit status 5"%string, cfg)
          end
        else (None, <[arg := val]> cfg)
      else (Some "exit status 1"%string, cfg)
  | _ => (Some "exit status 1"%string, cfg)
  end.

(** The system in which the program's path is [path] and commands act on
    the git configuration. *)
Definition git_system (path : string) : System (gmap string string) :=
  mkSystem (inl path) git_config_store.

(** The command [enable] stores for the difftool. *)
Definition difftool_cmd (path : string) : string :=
  (path ++ " -left " ++ dquote ++ "$LOCAL" ++ dquote
   ++ " -right " ++ dquote ++ "$REMOTE" ++ dquote ++ " -wait")%string.

(** The commands among the steps, in order. *)
Definition commands (steps : list Step) : list (list string) :=
  omap (fun st => match st with SRun argv => Some argv | SPrint _ => None end) steps.

(** The two commands of [configureGitDifftool]. *)
Definition git_cmd1 (enable : bool) : list string :=
  if enable then ["git"; "config"; "--global"; "diff.tool"; "imagediff"]
  else ["git"; "config"; "--global"; "--unset"; "diff.tool"].

Definition git_cmd2 (enable : bool) (path : string) : list string :=
  if enable then ["git"; "config"; "--global"; "difftool.imagediff.cmd"; difftool_cmd path]
  else ["git"; "config"; "--global"; "--unset"; "difftool.imagediff.cmd"].

(** A command result that does not stop [configureGitDifftool]: success,
    or, when disabling, the error "exit status 5". *)
Definition tolerated (enable : bool) (r : option string) : bool :=
  match r with
  | None => true
  | Some err => negb enable && String.eqb err "exit status 5"
  end.

Local Close Scope string_scope.

(* ================================================================== *)
(** * Properties *)

(** ** Integers and loops *)

Lemma wrap64_id z : GoInt.is_int z -> GoInt.wrap64 z = z.
Proof.
  unfold GoInt.is_int, GoInt.min_int, GoInt.max_int, GoInt.wrap64. intros Hz.
  rewrite Z.mod_small by lia. lia.
Qed.

Lemma wrap64_is_int z : GoInt.is_int (GoInt.wrap64 z).
Proof.
  unfold GoInt.is_int, GoInt.min_int, GoInt.max_int, GoInt.wrap64.
  pose proof (Z.mod_pos_bound (z + 2 ^ 63) (2 ^ 64) ltac:(lia)). lia.
Qed.

Lemma wrap64_high z : 2 ^ 63 <= z < 2 ^ 64 -> GoInt.wrap64 z = z - 2 ^ 64.
Proof.
  unfold GoInt.wrap64. intros Hz.
  replace (z + 2 ^ 63) with (z - 2 ^ 63 + 1 * 2 ^ 64) by lia.
  rewrite Z.mod_add by lia. rewrite Z.mod_small by lia. lia.
Qed.

(** A well-formed rectangle whose computed extent is positive has that
    extent without overflow. *)
Lemma Dx_exact r :
  int_rect r -> well_formed r -> 0 < Dx r -> Dx r = X (Max r) - X (Min r).
Proof.
  unfold int_rect, well_formed, GoInt.is_int, GoInt.min_int, GoInt.max_int.
  intros (Hx0 & _ & Hx1 & _) [Hw _] Hpos. unfold Dx, GoInt.sub in *.
  destruct (Z_lt_le_dec (X (Max r) - X (Min r)) (2 ^ 63)) as [Hlt|Hge].
  - apply wrap64_id. unfold GoInt.is_int, GoInt.min_int, GoInt.max_int. lia.
  - rewrite wrap64_high in Hpos by lia. lia.
Qed.

Lemma Dy_exact r :
  int_rect r -> well_formed r -> 0 < Dy r -> Dy r = Y (Max r) - Y (Min r).
Proof.
  unfold int_rect, well_formed, GoInt.is_int, GoInt.min_int, GoInt.max_int.
  intros (_ & Hy0 & _ & Hy1) [_ Hw] Hpos. unfold Dy, GoInt.sub in *.
  destruct (Z_lt_le_dec (Y (Max r) - Y (Min r)) (2 ^ 63)) as [Hlt|Hge].
  - apply wrap64_id. unfold GoInt.is_int, GoInt.min_int, GoInt.max_int. lia.
  - rewrite wrap64_high in Hpos by lia. lia.
Qed.

Lemma iterate_brk_collect {A : Type} (row : Z -> list A) body n : forall i acc,
  (forall j a, i <= j < i + Z.of_nat n -> body j a = (rev (row j) ++ a, true)) ->
  iterate_brk n i body acc
  = (rev (concat (map row (seqZ i (Z.of_nat n)))) ++ acc, true).
Proof.
  induction n as [|n IH]; intros i acc Hbody.
  - reflexivity.
  - cbn [iterate_brk]. rewrite Hbody by lia.
    rewrite IH by (intros; apply Hbody; lia).
    rewrite (seqZ_cons i) by lia.
    replace (Z.pred (Z.of_nat (S n))) with (Z.of_nat n) by lia.
    cbn [map concat]. rewrite rev_app_distr, <- app_assoc. reflexivity.
Qed.

Lemma for_lt_brk_collect {A : Type} (row : Z -> list A) body lo hi acc :
  (forall j a, lo <= j < hi -> body j a = (rev (row j) ++ a, true)) ->
  for_lt_brk lo hi body acc
  = (rev (concat (map row (seqZ lo (hi - lo)))) ++ acc, true).
Proof.
  intros Hbody. unfold for_lt_brk.
  destruct (Z_le_gt_dec lo hi) as [Hle|Hgt].
  - rewrite (iterate_brk_collect row) by (intros; apply Hbody; lia).
    rewrite Z2Nat.id by lia. reflexivity.
  - replace (Z.to_nat (hi - lo)) with 0%nat by lia.
    rewrite seqZ_nil by lia. reflexivity.
Qed.

Lemma list_bind_concat_map {A B : Type} (f : A -> list B) (l : list A) :
  l ≫= f = concat (map f l).
Proof. induction l as [|a l IH]; [reflexivity|]. cbn. rewrite <- IH. reflexivity. Qed.

Lemma iterate_ext {S : Type} (f g : Z -> S -> S) n : forall i s,
  (forall j t, f j t = g j t) -> iterate n i f s = iterate n i g s.
Proof.
  induction n as [|n IH]; intros i s Hfg; [reflexivity|].
  cbn [iterate]. rewrite Hfg. apply IH, Hfg.
Qed.

Lemma for_lt_ext {S : Type} (f g : Z -> S -> S) lo hi s :
  (forall j t, f j t = g j t) -> for_lt lo hi f s = for_lt lo hi g s.
Proof. apply iterate_ext. Qed.

(** ** createChunks *)

Ltac int_bounds :=
  unfold GoInt.is_int, GoInt.min_int, GoInt.max_int in *.

Lemma chunkList_grid b nx ny :
  int_rect b -> well_formed b -> positive_area b ->
  1 <= nx -> GoInt.is_int nx -> 1 <= ny -> GoInt.is_int ny ->
  chunkList b nx ny = Some (grid b nx ny).
Proof.
  intros Hint Hwf [Hpx Hpy] Hnx Hinx Hny Hiny.
  pose proof (Dx_exact b Hint Hwf Hpx) as HDx.
  pose proof (Dy_exact b Hint Hwf Hpy) as HDy.
  destruct Hint as (Hx0 & Hy0 & Hx1 & Hy1).
  unfold chunkList, createChunks, GoInt.quo.
  destruct (Z.eqb_spec nx 0) as [?|_]; [lia|].
  destruct (Z.eqb_spec ny 0) as [?|_]; [lia|].
  rewrite HDx, HDy.
  rewrite !Z.quot_div_nonneg by lia.
  remember ((X (Max b) - X (Min b)) / nx) as cw eqn:Ecw.
  remember ((Y (Max b) - Y (Min b)) / ny) as ch eqn:Ech.
  assert (Hcw : 0 <= cw /\ cw * nx <= X (Max b) - X (Min b)).
  { rewrite Ecw. split; [apply Z.div_pos; lia|].
    rewrite Z.mul_comm. apply Z.mul_div_le. lia. }
  assert (Hch : 0 <= ch /\ ch * ny <= Y (Max b) - Y (Min b)).
  { rewrite Ech. split; [apply Z.div_pos; lia|].
    rewrite Z.mul_comm. apply Z.mul_div_le. lia. }
  assert (HwX : X (Max b) - X (Min b) <= GoInt.max_int).
  { rewrite <- HDx. apply wrap64_is_int. }
  assert (HwY : Y (Max b) - Y (Min b) <= GoInt.max_int).
  { rewrite <- HDy. apply wrap64_is_int. }
  assert (cw <= cw * nx) by nia.
  assert (ch <= ch * ny) by nia.
  rewrite (wrap64_id cw) by (int_bounds; lia).
  rewrite (wrap64_id ch) by (int_bounds; lia).
  cbn [option_map]. f_equal.
  rewrite (for_lt_brk_collect
             (fun i => j ← seqZ 0 nx; [gridChunk b nx ny i j])).
  - cbn [fst]. rewrite app_nil_r, rev_involutive, Z.sub_0_r.
    unfold grid. symmetry. apply list_bind_concat_map.
  - intros i acc Hi.
    rewrite (for_lt_brk_collect (fun j => [gridChunk b nx ny i j])).
    + rewrite Z.sub_0_r. f_equal. f_equal. f_equal. symmetry.
      apply list_bind_concat_map.
    + intros j a Hj. cbn [rev app]. f_equal. f_equal.
      unfold gridChunk, GoInt.add, GoInt.mul, GoInt.sub. rewrite <- Ecw, <- Ech.
      assert (0 <= j * cw <= cw * nx) by nia.
      assert (0 <= i * ch <= ch * ny) by nia.
      assert (j * cw + cw <= cw * nx \/ j = nx - 1)
        by (destruct (Z.eq_dec j (nx - 1)); [right; assumption | left; nia]).
      assert (i * ch + ch <= ch * ny \/ i = ny - 1)
        by (destruct (Z.eq_dec i (ny - 1)); [right; assumption | left; nia]).
      rewrite (wrap64_id (j * cw)) by (int_bounds; lia).
      rewrite (wrap64_id (i * ch)) by (int_bounds; lia).
      rewrite (wrap64_id (nx - 1)) by (int_bounds; lia).
      rewrite (wrap64_id (ny - 1)) by (int_bounds; lia).
      rewrite (wrap64_id (X (Min b) + j * cw)) by (int_bounds; lia).
      rewrite (wrap64_id (Y (Min b) + i * ch)) by (int_bounds; lia).
      destruct (Z.eqb_spec j (nx - 1)), (Z.eqb_spec i (ny - 1));
        rewrite ?wrap64_id by (int_bounds; lia); reflexivity.
Qed.

(** Counting over a product of two lists. *)
Lemma count_product {A B C : Type} (p : A -> bool) (q : B -> bool) (r : C -> bool)
    (f : A -> B -> C) (la : list A) (lb : list B) :
  (forall a b, r (f a b) = p a && q b) ->
  length (List.filter r (a ← la; b ← lb; [f a b]))
  = (length (List.filter p la) * length (List.filter q lb))%nat.
Proof.
  intros Hr.
  assert (Hrow : forall a,
    length (List.filter r (b ← lb; [f a b]))
    = if p a then length (List.filter q lb) else 0%nat).
  { intros a. induction lb as [|b lb IH]; [destruct (p a); reflexivity|].
    cbn. rewrite Hr. destruct (p a), (q b); cbn; rewrite IH; reflexivity. }
  rewrite list_bind_concat_map.
  induction la as [|a la IH]; [reflexivity|].
  cbn [map concat List.filter].
  rewrite List.filter_app, length_app, Hrow, IH.
  destruct (p a); cbn [length]; lia.
Qed.

(** The columns of equal width, without the last one. *)
Lemma count_regular lo cw x (k : nat) :
  0 <= cw ->
  length (List.filter (fun j => (lo + j * cw <=? x) && (x <? lo + j * cw + cw))
            (seqZ 0 (Z.of_nat k)))
  = if (lo <=? x) && (x <? lo + Z.of_nat k * cw) then 1%nat else 0%nat.
Proof.
  intros Hcw. induction k as [|k IH].
  - rewrite seqZ_nil by lia. change (Z.of_nat 0) with 0.
    rewrite Z.mul_0_l, Z.add_0_r.
    destruct (Z.leb_spec lo x), (Z.ltb_spec x lo); cbn; try reflexivity; lia.
  - rewrite seqZ_S, List.filter_app, length_app, IH. cbn [List.filter].
    rewrite Nat2Z.inj_succ, Z.mul_succ_l, Z.add_0_l.
    assert (0 <= Z.of_nat k * cw) by nia.
    destruct (Z.leb_spec lo x), (Z.ltb_spec x (lo + Z.of_nat k * cw)),
      (Z.leb_spec (lo + Z.of_nat k * cw) x),
      (Z.ltb_spec x (lo + Z.of_nat k * cw + cw)),
      (Z.ltb_spec x (lo + (Z.of_nat k * cw + cw))); cbn; try reflexivity; lia.
Qed.

(** The columns of [createChunks]: the last one ends at [hi]. *)
Lemma count_columns lo hi n x :
  1 <= n -> lo <= hi ->
  length (List.filter
            (fun j => (lo + j * ((hi - lo) / n) <=? x)
                      && (x <? (if j =? n - 1 then hi
                                else lo + j * ((hi - lo) / n) + (hi - lo) / n)))
            (seqZ 0 n))
  = if (lo <=? x) && (x <? hi) then 1%nat else 0%nat.
Proof.
  intros Hn Hle. set (cw := (hi - lo) / n).
  assert (Hcw : 0 <= cw /\ cw * n <= hi - lo).
  { subst cw. split; [apply Z.div_pos; lia|].
    rewrite Z.mul_comm. apply Z.mul_div_le. lia. }
  clearbody cw.
  assert (Hs : seqZ 0 n = seqZ 0 (Z.of_nat (Z.to_nat (n - 1))) ++ [n - 1]).
  { rewrite Z2Nat.id by lia. replace n with ((n - 1) + 1) at 1 by lia.
    rewrite seqZ_app by lia. f_equal. }
  rewrite Hs, List.filter_app, length_app.
  erewrite List.filter_ext_in.
  - rewrite (count_regular lo cw x) by lia.
    rewrite Z2Nat.id by lia. cbn [List.filter].
    rewrite Z.eqb_refl.
    assert (0 <= (n - 1) * cw <= cw * n) by nia.
    destruct (Z.leb_spec lo x), (Z.ltb_spec x (lo + (n - 1) * cw)),
      (Z.leb_spec (lo + (n - 1) * cw) x), (Z.ltb_spec x hi);
      cbn; try reflexivity; lia.
  - intros j Hj. cbn beta. apply list_elem_of_In, elem_of_seqZ in Hj.
    destruct (Z.eqb_spec j (n - 1)); [lia | reflexivity].
Qed.

Lemma in_chunk_grid b nx ny x y i j :
  in_chunk x y (gridChunk b nx ny i j)
  = ((Y (Min b) + i * ((Y (Max b) - Y (Min b)) / ny) <=? y)
     && (y <? (if i =? ny - 1 then Y (Max b)
               else Y (Min b) + i * ((Y (Max b) - Y (Min b)) / ny)
                    + (Y (Max b) - Y (Min b)) / ny)))
    && ((X (Min b) + j * ((X (Max b) - X (Min b)) / nx) <=? x)
        && (x <? (if j =? nx - 1 then X (Max b)
                  else X (Min b) + j * ((X (Max b) - X (Min b)) / nx)
                       + (X (Max b) - X (Min b)) / nx))).
Proof.
  unfold in_chunk, gridChunk. cbn [startX endX startY endY].
  destruct (_ <=? x), (x <? _), (_ <=? y), (y <? _); reflexivity.
Qed.

Lemma grid_tiling b nx ny :
  well_formed b -> 1 <= nx -> 1 <= ny -> exact_tiling b (grid b nx ny).
Proof.
  intros [Hwx Hwy] Hnx Hny x y. unfold covering, grid.
  rewrite (count_product _ _ _ _ _ _ (in_chunk_grid b nx ny x y)).
  rewrite (count_columns (Y (Min b)) (Y (Max b)) ny y Hny Hwy).
  rewrite (count_columns (X (Min b)) (X (Max b)) nx x Hnx Hwx).
  unfold In_rect.
  destruct (X (Min b) <=? x), (x <? X (Max b)), (Y (Min b) <=? y), (y <? Y (Max b));
    reflexivity.
Qed.

Lemma grid_nonempty b nx ny :
  1 <= nx <= X (Max b) - X (Min b) -> 1 <= ny <= Y (Max b) - Y (Min b) ->
  Forall nonempty (grid b nx ny).
Proof.
  intros Hnx Hny. apply Forall_forall. intros c Hc. unfold grid in Hc.
  apply list_elem_of_bind in Hc as (i & Hc & Hi).
  apply list_elem_of_bind in Hc as (j & Hc & Hj).
  apply list_elem_of_singleton in Hc. subst c.
  apply elem_of_seqZ in Hi, Hj.
  unfold nonempty, gridChunk. cbn [startX endX startY endY].
  set (cw := (X (Max b) - X (Min b)) / nx).
  set (ch := (Y (Max b) - Y (Min b)) / ny).
  assert (Hcw : 1 <= cw /\ cw * nx <= X (Max b) - X (Min b)).
  { subst cw. split.
    - apply Z.div_le_lower_bound; lia.
    - rewrite Z.mul_comm. apply Z.mul_div_le. lia. }
  assert (Hch : 1 <= ch /\ ch * ny <= Y (Max b) - Y (Min b)).
  { subst ch. split.
    - apply Z.div_le_lower_bound; lia.
    - rewrite Z.mul_comm. apply Z.mul_div_le. lia. }
  clearbody cw ch.
  destruct (Z.eqb_spec j (nx - 1)), (Z.eqb_spec i (ny - 1)); subst; nia.
Qed.

(** In an exact tiling two chunks at different positions share no pixel. *)
Lemma exact_tiling_disjoint r cs (k l : nat) c d x y :
  exact_tiling r cs -> k <> l -> cs !! k = Some c -> cs !! l = Some d ->
  in_chunk x y c = true -> in_chunk x y d = false.
Proof.
  intros Ht Hkl Hk Hl Hc.
  destruct (in_chunk x y d) eqn:Hd; [exfalso | reflexivity].
  assert (Hle : (covering x y cs <= 1)%nat).
  { rewrite (Ht x y). destruct (In_rect x y r); lia. }
  assert (Htwo : forall (a b : nat) ca cb, (a < b)%nat ->
            cs !! a = Some ca -> cs !! b = Some cb ->
            in_chunk x y ca = true -> in_chunk x y cb = true ->
            (2 <= covering x y cs)%nat).
  { clear. intros a b ca cb Hab Ha Hb Hca Hcb. unfold covering.
    rewrite <- (take_drop_middle cs a ca Ha).
    rewrite List.filter_app, length_app. cbn [List.filter]. rewrite Hca.
    cbn [length].
    assert (Hb' : drop (S a) cs !! (b - S a)%nat = Some cb).
    { rewrite lookup_drop. rewrite <- Hb. f_equal. lia. }
    rewrite <- (take_drop_middle _ _ cb Hb').
    rewrite List.filter_app, length_app. cbn [List.filter]. rewrite Hcb.
    cbn [length]. lia. }
  destruct (Nat.lt_total k l) as [Hlt|[Heq|Hgt]]; [|lia|].
  - pose proof (Htwo k l c d Hlt Hk Hl Hc Hd). lia.
  - pose proof (Htwo l k d c Hgt Hl Hk Hd Hc). lia.
Qed.

(** The chunks of a grid with at least one row and one column tile the
    bounds, whatever the grid. *)
Lemma chunkList_tiling b nx ny :
  int_rect b -> well_formed b -> positive_area b ->
  1 <= nx -> GoInt.is_int nx -> 1 <= ny -> GoInt.is_int ny ->
  exists cs, chunkList b nx ny = Some cs /\ exact_tiling b cs.
Proof.
  intros Hint Hwf Hpos Hnx Hinx Hny Hiny. exists (grid b nx ny). split.
  - apply chunkList_grid; assumption.
  - apply grid_tiling; assumption.
Qed.




(** ** float64 facts *)

(** [f == 0] holds exactly for the two zeros. *)
Lemma eqb_zero f :
  (f =? 0)%float = match Prim2SF f with S754_zero _ => true | _ => false end.
Proof.
  rewrite FloatAxioms.eqb_spec. change (Prim2SF 0) with (S754_zero false).
  destruct (Prim2SF f) as [s|s| |s m e]; try destruct s; reflexivity.
Qed.

(** ** normalizePixel *)

(** C2: [normalizePixel value mean std] is [(value - mean) / std] when [std]
    is not zero and [value] itself when [std] is a zero (of either sign);
    the four values of the specification are exact. *)
Theorem normalizePixel_spec :
  (forall value mean std,
     match Prim2SF std with
     | S754_zero _ => normalizePixel value mean std = value
     | _ => normalizePixel value mean std = ((value - mean) / std)%float
     end) /\
  normalizePixel 100 50 25 = 2%float /\
  normalizePixel 100 50 0 = 100%float /\
  normalizePixel 50 50 10 = 0%float /\
  normalizePixel 100 150 (-25) = 2%float.
Proof.
  split; [|repeat split; vm_compute; reflexivity].
  intros value mean std. unfold normalizePixel. rewrite eqb_zero.
  destruct (Prim2SF std); reflexivity.
Qed.

(** ** computeDiffChunk: the diff mode *)

Lemma render_default cv diffMode scaleFactor rDiff gDiff bDiff :
  diffMode <> "bw"%string -> diffMode <> "gray"%string ->
  render cv diffMode scaleFactor rDiff gDiff bDiff
  = render cv "color" scaleFactor rDiff gDiff bDiff.
Proof.
  intros Hbw Hgray. unfold render.
  apply String.eqb_neq in Hbw, Hgray. rewrite Hbw, Hgray.
  destruct (String.eqb diffMode "color"); reflexivity.
Qed.

(** C4, as amended: [computeDiffChunk] renders a diff-mode string other
    than "bw", "gray" and "color" exactly as "color" (same pixel, same
    counters, for every pixel pair, scale factor and normalization
    setting), but the program does not fall back: [main] reports such a
    string as an error, prints the usage and exits with status 1 before it
    opens any file. *)
Theorem unrecognized_diff_mode cv mode :
  mode <> "bw"%string -> mode <> "gray"%string -> mode <> "color"%string ->
  (forall c1 c2 stats1 stats2 normalized scaleFactor,
     diffPixel cv c1 c2 stats1 stats2 normalized scaleFactor mode
     = diffPixel cv c1 c2 stats1 stats2 normalized scaleFactor "color") /\
  (forall img1 img2 d chunk stats1 stats2 normalized scaleFactor,
     computeDiffChunk cv img1 img2 d chunk stats1 stats2 normalized scaleFactor mode
     = computeDiffChunk cv img1 img2 d chunk stats1 stats2 normalized scaleFactor "color") /\
  (forall fl w,
     gitConfig fl = ""%string -> left fl <> ""%string -> right fl <> ""%string ->
     diffMode fl = mode ->
     main cv fl w = Some ([EError "Invalid -diff-mode value"; EUsage], Exit 1)).
Proof.
  intros Hbw Hgray Hcolor.
  assert (Hpx : forall c1 c2 stats1 stats2 normalized scaleFactor,
     diffPixel cv c1 c2 stats1 stats2 normalized scaleFactor mode
     = diffPixel cv c1 c2 stats1 stats2 normalized scaleFactor "color").
  { intros c1 c2 stats1 stats2 nrm sf. unfold diffPixel.
    destruct (channelDiffs c1 c2 stats1 stats2 nrm) as [[[rD gD] bD] aD].
    rewrite render_default by assumption. reflexivity. }
  split; [exact Hpx|split].
  - intros. unfold computeDiffChunk.
    apply for_lt_ext. intros y s. apply for_lt_ext. intros x [dimg [[n1 n2] n3]].
    rewrite Hpx. reflexivity.
  - intros fl w Hgit Hl Hr Hmode. unfold main.
    apply String.eqb_neq in Hl, Hr, Hbw, Hgray, Hcolor.
    rewrite Hgit, Hmode. unfold is_empty. rewrite Hl, Hr, Hbw, Hgray, Hcolor.
    reflexivity.
Qed.

Lemma unrecognized_diff_mode_witness :
  "sepia"%string <> "bw"%string /\ "sepia"%string <> "gray"%string /\
  "sepia"%string <> "color"%string /\
  (forall c1 c2 stats1 stats2 normalized scaleFactor,
     diffPixel sample_conv c1 c2 stats1 stats2 normalized scaleFactor "sepia"
     = diffPixel sample_conv c1 c2 stats1 stats2 normalized scaleFactor "color") /\
  (forall fl w,
     gitConfig fl = ""%string -> left fl <> ""%string -> right fl <> ""%string ->
     diffMode fl = "sepia"%string ->
     main sample_conv fl w = Some ([EError "Invalid -diff-mode value"; EUsage], Exit 1)).
Proof.
  assert (H1 : "sepia"%string <> "bw"%string) by discriminate.
  assert (H2 : "sepia"%string <> "gray"%string) by discriminate.
  assert (H3 : "sepia"%string <> "color"%string) by discriminate.
  repeat (split; [assumption|]).
  pose proof (unrecognized_diff_mode sample_conv "sepia" H1 H2 H3) as (Hpx & _ & Hmain).
  split; assumption.
Defined.

(** C4 as stated fails: with [-diff-mode sepia], [main] exits with status 1
    after the error message and the usage text. *)
Lemma main_rejects_unrecognized_mode :
  let img := as_Image (createTestImage 2 2 (mkRGBA 100 150 200 255)) in
  main sample_conv (sample_flags false "sepia") (sample_world img img [])
  = Some ([EError "Invalid -diff-mode value"; EUsage], Exit 1).
Proof. vm_compute. reflexivity. Qed.

(** C7: without normalization, in "color" mode and with scale factor 1.0,
    [computeDiffChunk] over the full 2x2 chunk of a left image uniformly
    [{100,150,200,255}] and a right image uniformly [{120,170,220,255}]
    writes [{20,20,20,255}] at every coordinate and returns the counts
    [(4, 4, 4)]. *)
Theorem computeDiffChunk_color_2x2 cv stats1 stats2 :
  let img1 := as_Image (createTestImage 2 2 (mkRGBA 100 150 200 255)) in
  let img2 := as_Image (createTestImage 2 2 (mkRGBA 120 170 220 255)) in
  let result :=
    computeDiffChunk cv img1 img2 (NewRGBA (Bounds img1)) (mkChunk 0 2 0 2)
      stats1 stats2 false 1 "color" in
  snd result = (4, 4, 4) /\
  Rect (fst result) = image_Rect 0 0 2 2 /\
  forall x y, in_chunk x y (mkChunk 0 2 0 2) = true ->
    RGBAAt (fst result) x y = mkRGBA 20 20 20 255.
Proof.
  cbv zeta.
  assert (E : computeDiffChunk cv
                (as_Image (createTestImage 2 2 (mkRGBA 100 150 200 255)))
                (as_Image (createTestImage 2 2 (mkRGBA 120 170 220 255)))
                (NewRGBA (Bounds (as_Image (createTestImage 2 2 (mkRGBA 100 150 200 255)))))
                (mkChunk 0 2 0 2) stats1 stats2 false 1 "color"
              = (mkRGBAImage
                   (list_to_map (map (fun p => (p, mkRGBA 20 20 20 255))
                                   (pixels (mkChunk 0 2 0 2))))
                   (image_Rect 0 0 2 2), (4, 4, 4))).
  { vm_compute. reflexivity. }
  rewrite E. cbn [fst snd Rect Pix]. repeat split.
  intros x y Hin. unfold in_chunk in Hin. cbn [startX endX startY endY] in Hin.
  assert (Hx : x = 0 \/ x = 1) by lia. assert (Hy : y = 0 \/ y = 1) by lia.
  destruct Hx, Hy; subst; vm_compute; reflexivity.
Qed.

(** ** main: the checks before any processing *)

Lemma same_rect_spec r s : same_rect r s = true <-> r = s.
Proof.
  unfold same_rect. destruct r as [[x0 y0] [x1 y1]], s as [[u0 v0] [u1 v1]].
  cbn [Min Max X Y]. rewrite !andb_true_iff, !Z.eqb_eq. split.
  - intros [[[-> ->] ->] ->]. reflexivity.
  - intros H. injection H as -> -> -> ->. repeat split.
Qed.




(** ** Loops as folds *)

Lemma iterate_fold {St : Type} (body : Z -> St -> St) n : forall i s,
  iterate n i body s = fold_left (fun s j => body j s) (seqZ i (Z.of_nat n)) s.
Proof.
  induction n as [|n IH]; intros i s; [reflexivity|].
  rewrite seqZ_cons by lia. cbn [iterate fold_left]. rewrite IH.
  replace (Z.pred (Z.of_nat (S n))) with (Z.of_nat n) by lia.
  replace (Z.succ i) with (i + 1) by lia. reflexivity.
Qed.

Lemma for_lt_fold {St : Type} (body : Z -> St -> St) lo hi s :
  for_lt lo hi body s = fold_left (fun s j => body j s) (seqZ lo (hi - lo)) s.
Proof.
  unfold for_lt. rewrite iterate_fold.
  destruct (Z_le_gt_dec lo hi).
  - rewrite Z2Nat.id by lia. reflexivity.
  - replace (Z.to_nat (hi - lo)) with 0%nat by lia.
    rewrite (seqZ_nil lo (hi - lo)) by lia. reflexivity.
Qed.

Lemma fold_left_bind {A B St : Type} (g : St -> B -> St) (f : A -> list B) l : forall s,
  fold_left g (l ≫= f) s = fold_left (fun s a => fold_left g (f a) s) l s.
Proof.
  induction l as [|a l IH]; intros s; [reflexivity|].
  rewrite bind_cons, fold_left_app. cbn [fold_left]. apply IH.
Qed.

Lemma fold_left_ext {A St : Type} (g h : St -> A -> St) l : forall s,
  (forall t a, g t a = h t a) -> fold_left g l s = fold_left h l s.
Proof.
  induction l as [|a l IH]; intros s Hgh; [reflexivity|].
  cbn [fold_left]. rewrite Hgh. apply IH, Hgh.
Qed.

(** The two nested loops over a chunk visit [pixels c] in order. *)
Lemma chunk_loops_fold {St : Type} (body : Z -> Z -> St -> St) c s :
  for_lt (startY c) (endY c) (fun y s =>
    for_lt (startX c) (endX c) (fun x s => body x y s) s) s
  = fold_left (fun s p => body p.1 p.2 s) (pixels c) s.
Proof.
  unfold pixels. rewrite for_lt_fold, fold_left_bind.
  apply fold_left_ext. intros t y.
  rewrite for_lt_fold, fold_left_bind.
  apply fold_left_ext. intros u x. reflexivity.
Qed.

(** ** Counters *)

Lemma wrap64_add_l a b : GoInt.wrap64 (GoInt.wrap64 a + b) = GoInt.wrap64 (a + b).
Proof.
  unfold GoInt.wrap64.
  replace ((a + 2 ^ 63) mod 2 ^ 64 - 2 ^ 63 + b + 2 ^ 63)
    with ((a + 2 ^ 63) mod 2 ^ 64 + b) by lia.
  rewrite Zplus_mod_idemp_l. f_equal. f_equal. lia.
Qed.

Lemma wrap64_add_r a b : GoInt.wrap64 (a + GoInt.wrap64 b) = GoInt.wrap64 (a + b).
Proof. rewrite Z.add_comm, wrap64_add_l. f_equal. lia. Qed.

Lemma wrap64_idem a : GoInt.wrap64 (GoInt.wrap64 a) = GoInt.wrap64 a.
Proof. apply wrap64_id, wrap64_is_int. Qed.

Lemma bump_fold (f : Z * Z -> bool) ps : forall n,
  GoInt.is_int n ->
  fold_left (fun n p => bump (f p) n) ps n = GoInt.wrap64 (n + tally f ps).
Proof.
  unfold tally. induction ps as [|p ps IH]; intros n Hn.
  - cbn. rewrite Z.add_0_r. symmetry. apply wrap64_id, Hn.
  - cbn [fold_left List.filter]. unfold bump at 2. destruct (f p).
    + rewrite IH by apply wrap64_is_int. unfold GoInt.add.
      rewrite wrap64_add_l. f_equal. cbn [length]. lia.
    + apply IH, Hn.
Qed.

(** ** computeDiffChunk as a fold over the coordinates of its chunk *)

Section Chunks.

Variable cv : F64.Conv.
Variables img1 img2 : Image.
Variables stats1 stats2 : ImageStats.
Variable nrm : bool.
Variable sf : float.
Variable mode : string.

Lemma computeDiffChunk_fold d c :
  computeDiffChunk cv img1 img2 d c stats1 stats2 nrm sf mode
  = (fold_left (fun d p => RGBA_Set d p.1 p.2 (pixelAt cv img1 img2 stats1 stats2 nrm sf mode p))
       (pixels c) d,
     (GoInt.wrap64 (tally (hit1 img1) (pixels c)),
      GoInt.wrap64 (tally (hit2 img2) (pixels c)),
      GoInt.wrap64 (tally (hitDiff cv img1 img2 stats1 stats2 nrm sf mode) (pixels c)))).
Proof.
  unfold computeDiffChunk.
  rewrite (chunk_loops_fold
    (fun x y '(diffImg, (count1, count2, diffCount)) =>
       let '(nz1, nz2, differs, px) :=
         diffPixel cv (At img1 x y) (At img2 x y) stats1 stats2 nrm sf mode in
       (RGBA_Set diffImg x y px,
        (bump nz1 count1, bump nz2 count2, bump differs diffCount)))).
  assert (H : forall ps d n1 n2 n3,
    fold_left (fun s p =>
        let '(diffImg, (count1, count2, diffCount)) := s in
        let '(nz1, nz2, differs, px) :=
          diffPixel cv (At img1 p.1 p.2) (At img2 p.1 p.2) stats1 stats2 nrm sf mode in
        (RGBA_Set diffImg p.1 p.2 px,
         (bump nz1 count1, bump nz2 count2, bump differs diffCount)))
      ps (d, (n1, n2, n3))
    = (fold_left (fun d p => RGBA_Set d p.1 p.2
                     (pixelAt cv img1 img2 stats1 stats2 nrm sf mode p)) ps d,
       (fold_left (fun n p => bump (hit1 img1 p) n) ps n1,
        fold_left (fun n p => bump (hit2 img2 p) n) ps n2,
        fold_left (fun n p => bump (hitDiff cv img1 img2 stats1 stats2 nrm sf mode p) n)
          ps n3))).
  { clear d. induction ps as [|p ps IH]; intros d n1 n2 n3; [reflexivity|].
    cbn [fold_left]. rewrite <- IH. f_equal.
    unfold pixelAt, hit1, hit2, hitDiff, diffPixel.
    destruct (channelDiffs (At img1 p.1 p.2) (At img2 p.1 p.2) stats1 stats2 nrm)
      as [[[rD gD] bD] aD]. reflexivity. }
  rewrite H, !bump_fold by (int_bounds; lia). rewrite !Z.add_0_l. reflexivity.
Qed.

End Chunks.

(** ** Schedules *)

Lemma concat_pick {A : Type} (threads : list (list A)) i a rest :
  threads !! i = Some (a :: rest) ->
  a :: concat (<[i := rest]> threads) ≡ₚ concat threads.
Proof.
  intros Hi.
  rewrite <- (take_drop_middle threads i (a :: rest) Hi) at 2.
  rewrite insert_take_drop by (eapply lookup_lt_Some; eassumption).
  rewrite !concat_app. cbn [concat].
  rewrite (Permutation_middle (concat (take i threads)) _ a). reflexivity.
Qed.

Lemma run_schedule_perm sched : forall threads s s' threads',
  run_schedule sched threads s = Some (s', threads') ->
  exists acts, acts ++ concat threads' ≡ₚ concat threads /\ s' = perform_all acts s.
Proof.
  induction sched as [|i sched IH]; intros threads s s' threads' Hrun.
  - cbn in Hrun. injection Hrun as <- <-. exists []. split; reflexivity.
  - cbn [run_schedule] in Hrun.
    destruct (threads !! i) as [[|a rest]|] eqn:Hi; try discriminate.
    apply IH in Hrun as (acts & Hperm & ->).
    exists (a :: acts). split; [|reflexivity].
    cbn [app]. rewrite Hperm. apply concat_pick, Hi.
Qed.

Lemma finished_concat threads :
  forallb finished threads = true -> concat threads = [].
Proof.
  induction threads as [|t threads IH]; [reflexivity|].
  cbn [forallb concat]. intros [Ht Hts]%andb_true_iff.
  destruct t; [|discriminate]. apply IH, Hts.
Qed.

Lemma join_perm sched threads s s' :
  join sched threads s = Some s' ->
  exists acts, acts ≡ₚ concat threads /\ s' = perform_all acts s.
Proof.
  unfold join. destruct (run_schedule sched threads s) as [[s1 threads']|] eqn:Hrun;
    [|discriminate].
  destruct (forallb finished threads') eqn:Hfin; [|discriminate].
  intros [= <-]. apply run_schedule_perm in Hrun as (acts & Hperm & ->).
  rewrite (finished_concat _ Hfin), app_nil_r in Hperm. eauto.
Qed.

Lemma run_thread i t : forall threads s sched,
  threads !! i = Some t ->
  run_schedule (repeat i (length t) ++ sched) threads s
  = run_schedule sched (<[i := []]> threads) (perform_all t s).
Proof.
  induction t as [|a t IH]; intros threads s sched Hi.
  - cbn. rewrite list_insert_id by assumption. reflexivity.
  - cbn [length repeat app run_schedule]. rewrite Hi.
    rewrite IH by (apply list_lookup_insert_eq; eapply lookup_lt_Some; eassumption).
    rewrite list_insert_insert_eq. reflexivity.
Qed.

Lemma run_sequential todo : forall done s,
  run_schedule
    (seq (length done) (length todo) ≫=
       (fun i => repeat i (length (default [] ((done ++ todo) !! i)))))
    (done ++ todo) s
  = Some (perform_all (concat todo) s, done ++ map (fun _ => []) todo).
Proof.
  induction todo as [|t todo IH]; intros done s.
  - reflexivity.
  - cbn [length seq]. rewrite bind_cons.
    rewrite list_lookup_middle by reflexivity. cbn [default].
    rewrite run_thread by (apply list_lookup_middle; reflexivity).
    rewrite insert_app_r_alt by lia. rewrite Nat.sub_diag. cbn [insert list_insert].
    rewrite (cons_middle [] done todo), app_assoc.
    erewrite Forall_bind_ext.
    + replace (S (length done)) with (length (done ++ [[]]))
        by (rewrite length_app; cbn; lia).
      rewrite IH. cbn [concat map]. unfold perform_all. rewrite fold_left_app.
      rewrite <- app_assoc. reflexivity.
    + apply Forall_forall. intros i Hi%elem_of_seq. cbn beta.
      rewrite <- (app_assoc done [[]] todo). cbn [app].
      rewrite !lookup_app_r by lia.
      destruct (i - length done)%nat as [|k] eqn:E; [lia|]. reflexivity.
Qed.

Lemma join_sequential threads s :
  join (sequential threads) threads s = Some (perform_all (concat threads) s).
Proof.
  unfold join, sequential.
  pose proof (run_sequential threads [] s) as H. cbn [length app] in H.
  rewrite H. cbn [app].
  assert (Hfin : forallb finished (map (fun _ : list Action => []) threads) = true)
    by (clear; induction threads; [reflexivity | cbn; assumption]).
  rewrite Hfin. reflexivity.
Qed.

(** ** The coordinates of a chunk *)

Lemma count_seqZ a (n : nat) : forall lo,
  length (List.filter (Z.eqb a) (seqZ lo (Z.of_nat n)))
  = if (lo <=? a) && (a <? lo + Z.of_nat n) then 1%nat else 0%nat.
Proof.
  induction n as [|n IH]; intros lo.
  - rewrite seqZ_nil by lia. change (Z.of_nat 0) with 0. rewrite Z.add_0_r.
    destruct (Z.leb_spec lo a), (Z.ltb_spec a lo); cbn; try reflexivity; lia.
  - rewrite seqZ_cons by lia. cbn [List.filter].
    replace (Z.pred (Z.of_nat (S n))) with (Z.of_nat n) by lia.
    destruct (Z.eqb_spec a lo) as [->|Hne]; cbn [length]; rewrite IH.
    + destruct (Z.leb_spec (Z.succ lo) lo), (Z.leb_spec lo lo),
        (Z.ltb_spec lo (lo + Z.of_nat (S n))); cbn; try reflexivity; lia.
    + destruct (Z.leb_spec (Z.succ lo) a), (Z.leb_spec lo a),
        (Z.ltb_spec a (Z.succ lo + Z.of_nat n)), (Z.ltb_spec a (lo + Z.of_nat (S n)));
        cbn; try reflexivity; lia.
Qed.

Lemma count_seqZ' a lo n :
  length (List.filter (Z.eqb a) (seqZ lo n))
  = if (lo <=? a) && (a <? lo + n) then 1%nat else 0%nat.
Proof.
  destruct (Z_le_gt_dec 0 n).
  - rewrite <- (Z2Nat.id n) by lia. apply count_seqZ.
  - rewrite seqZ_nil by lia.
    destruct (Z.leb_spec lo a), (Z.ltb_spec a (lo + n)); cbn; try reflexivity; lia.
Qed.

Lemma count_pixels c x y :
  length (List.filter (fun q => (y =? q.2) && (x =? q.1)) (pixels c))
  = if in_chunk x y c then 1%nat else 0%nat.
Proof.
  unfold pixels.
  rewrite (count_product (Z.eqb y) (Z.eqb x) _ (fun y x => (x, y))) by reflexivity.
  rewrite !count_seqZ'. unfold in_chunk.
  destruct (Z.leb_spec (startY c) y), (Z.ltb_spec y (startY c + (endY c - startY c))),
    (Z.ltb_spec y (endY c)), (Z.leb_spec (startX c) x),
    (Z.ltb_spec x (startX c + (endX c - startX c))), (Z.ltb_spec x (endX c));
    cbn; try reflexivity; lia.
Qed.

Lemma count_occ_filter {A : Type} (dec : forall a b : A, {a = b} + {a <> b})
    (r : A -> bool) a l :
  (forall b, r b = true <-> b = a) ->
  count_occ dec l a = length (List.filter r l).
Proof.
  intros Hr. induction l as [|b l IH]; [reflexivity|].
  cbn [count_occ List.filter]. destruct (dec b a) as [->|Hne].
  - rewrite (proj2 (Hr a) eq_refl). cbn [length]. f_equal. exact IH.
  - destruct (r b) eqn:E; [apply Hr in E; contradiction | exact IH].
Qed.

Lemma count_occ_pixels c x y :
  count_occ pixel_dec (pixels c) (x, y) = if in_chunk x y c then 1%nat else 0%nat.
Proof.
  rewrite <- count_pixels. apply count_occ_filter.
  intros [x' y']. cbn [fst snd]. rewrite andb_true_iff, !Z.eqb_eq.
  split; [intros [-> ->]; reflexivity | intros [= -> ->]; split; reflexivity].
Qed.

Lemma count_occ_chunks cs x y :
  count_occ pixel_dec (concat (map pixels cs)) (x, y) = covering x y cs.
Proof.
  unfold covering. induction cs as [|c cs IH]; [reflexivity|].
  cbn [map concat List.filter]. rewrite count_occ_app, count_occ_pixels, IH.
  destruct (in_chunk x y c); reflexivity.
Qed.

Lemma in_chunk_whole x y r : in_chunk x y (whole r) = In_rect x y r.
Proof. reflexivity. Qed.

(** The chunks of an exact tiling visit each coordinate of the rectangle
    once. *)
Lemma tiling_pixels r cs :
  exact_tiling r cs -> concat (map pixels cs) ≡ₚ pixels (whole r).
Proof.
  intros Ht. apply (Permutation_count_occ pixel_dec). intros [x y].
  rewrite count_occ_chunks, count_occ_pixels, in_chunk_whole. apply Ht.
Qed.

(** ** Performing actions *)

Lemma perform_all_Rect acts : forall s,
  Rect (diffImg (perform_all acts s)) = Rect (diffImg s).
Proof.
  induction acts as [|a acts IH]; intros s; [reflexivity|].
  cbn [perform_all fold_left]. fold (perform_all acts (perform a s)). rewrite IH.
  destruct a; cbn [perform diffImg]; try reflexivity.
  unfold RGBA_Set. destruct (In_rect x y (Rect (diffImg s))); reflexivity.
Qed.

Lemma perform_all_lookup g acts : forall s p,
  coherent g acts ->
  Pix (diffImg (perform_all acts s)) !! p
  = if bool_decide (p ∈ written acts) && In_rect p.1 p.2 (Rect (diffImg s))
    then Some (g p) else Pix (diffImg s) !! p.
Proof.
  induction acts as [|a acts IH]; intros s p Hc.
  - reflexivity.
  - apply Forall_cons in Hc as [Ha Hc].
    cbn [perform_all fold_left]. fold (perform_all acts (perform a s)).
    rewrite IH by assumption.
    replace (Rect (diffImg (perform a s))) with (Rect (diffImg s))
      by (symmetry; apply (perform_all_Rect [a])).
    unfold written. rewrite bind_cons. fold (written acts).
    destruct a as [x y c| | |]; cbn [perform diffImg app];
      try (destruct (bool_decide (p ∈ written acts)); reflexivity).
    subst c. unfold RGBA_Set.
    destruct (decide (p = (x, y))) as [->|Hne].
    + cbn [fst snd]. rewrite (bool_decide_eq_true_2 _ (list_elem_of_here _ _)).
      destruct (In_rect x y (Rect (diffImg s))) eqn:Hin; cbn [Pix andb].
      * rewrite lookup_insert_eq. destruct (bool_decide _); reflexivity.
      * rewrite andb_false_r. reflexivity.
    + assert (Hdec : bool_decide (p ∈ (x, y) :: written acts)
                     = bool_decide (p ∈ written acts)).
      { apply bool_decide_ext. rewrite elem_of_cons. tauto. }
      rewrite Hdec.
      destruct (bool_decide (p ∈ written acts) && In_rect p.1 p.2 (Rect (diffImg s)));
        [reflexivity|].
      destruct (In_rect x y (Rect (diffImg s))); cbn [Pix]; [|reflexivity].
      apply lookup_insert_ne. congruence.
Qed.

Lemma perform_all_count1 acts : forall s,
  GoInt.is_int (count1 s) ->
  count1 (perform_all acts s) = GoInt.wrap64 (count1 s + added 0 acts).
Proof.
  induction acts as [|a acts IH]; intros s Hs.
  - cbn. rewrite Z.add_0_r. symmetry. apply wrap64_id, Hs.
  - cbn [perform_all fold_left]. fold (perform_all acts (perform a s)).
    destruct a; cbn [added foldr]; fold (added 0 acts);
      rewrite IH by (cbn; first [assumption | apply wrap64_is_int]); cbn [perform count1];
      try reflexivity.
    unfold GoInt.add. rewrite wrap64_add_l. f_equal. lia.
Qed.

Lemma perform_all_count2 acts : forall s,
  GoInt.is_int (count2 s) ->
  count2 (perform_all acts s) = GoInt.wrap64 (count2 s + added 1 acts).
Proof.
  induction acts as [|a acts IH]; intros s Hs.
  - cbn. rewrite Z.add_0_r. symmetry. apply wrap64_id, Hs.
  - cbn [perform_all fold_left]. fold (perform_all acts (perform a s)).
    destruct a; cbn [added foldr]; fold (added 1 acts);
      rewrite IH by (cbn; first [assumption | apply wrap64_is_int]); cbn [perform count2];
      try reflexivity.
    unfold GoInt.add. rewrite wrap64_add_l. f_equal. lia.
Qed.

Lemma perform_all_diffCount acts : forall s,
  GoInt.is_int (diffCount s) ->
  diffCount (perform_all acts s) = GoInt.wrap64 (diffCount s + added 2 acts).
Proof.
  induction acts as [|a acts IH]; intros s Hs.
  - cbn. rewrite Z.add_0_r. symmetry. apply wrap64_id, Hs.
  - cbn [perform_all fold_left]. fold (perform_all acts (perform a s)).
    destruct a; cbn [added foldr]; fold (added 2 acts);
      rewrite IH by (cbn; first [assumption | apply wrap64_is_int]); cbn [perform diffCount];
      try reflexivity.
    unfold GoInt.add. rewrite wrap64_add_l. f_equal. lia.
Qed.

Lemma added_perm which acts acts' : acts ≡ₚ acts' -> added which acts = added which acts'.
Proof.
  induction 1 as [|a l l' _ IH|a b l|l l' l'' _ IH1 _ IH2].
  - reflexivity.
  - cbn [added foldr]. fold (added which l) (added which l'). rewrite IH. reflexivity.
  - cbn [added foldr]. fold (added which l).
    destruct a, b, which as [|[|[|?]]]; lia.
  - congruence.
Qed.

Lemma written_perm acts acts' p :
  acts ≡ₚ acts' -> p ∈ written acts <-> p ∈ written acts'.
Proof. intros H. unfold written. rewrite H. reflexivity. Qed.

(** ** The goroutines of one run *)

Lemma tally_app f l l' : tally f (l ++ l') = tally f l + tally f l'.
Proof. unfold tally. rewrite List.filter_app, length_app. lia. Qed.

Lemma tally_perm f l l' : l ≡ₚ l' -> tally f l = tally f l'.
Proof.
  intros H. unfold tally. f_equal.
  induction H as [|a l l' _ IH|a b l|l l' l'' _ IH1 _ IH2].
  - reflexivity.
  - cbn [List.filter]. destruct (f a); cbn [length]; congruence.
  - cbn [List.filter]. destruct (f a), (f b); reflexivity.
  - congruence.
Qed.

Lemma added_app which l l' : added which (l ++ l') = added which l + added which l'.
Proof.
  induction l as [|a l IH]; [reflexivity|].
  cbn [app added foldr]. fold (added which (l ++ l')) (added which l). rewrite IH.
  destruct a, which as [|[|[|?]]]; lia.
Qed.

Lemma added_writes which (g : Z * Z -> RGBA8) ps :
  added which (map (fun p => Write p.1 p.2 (g p)) ps) = 0.
Proof. induction ps as [|p ps IH]; [reflexivity|]. cbn. exact IH. Qed.

Lemma written_writes (g : Z * Z -> RGBA8) ps :
  written (map (fun p => Write p.1 p.2 (g p)) ps) = ps.
Proof.
  induction ps as [|[x y] ps IH]; [reflexivity|].
  cbn [map]. unfold written. rewrite bind_cons. fold (written (map (fun p => Write p.1 p.2 (g p)) ps)).
  rewrite IH. reflexivity.
Qed.

Lemma written_app l l' : written (l ++ l') = written l ++ written l'.
Proof. unfold written. apply bind_app. Qed.

Lemma elem_of_pixels x y c : (x, y) ∈ pixels c <-> in_chunk x y c = true.
Proof.
  unfold pixels, in_chunk. rewrite list_elem_of_bind. split.
  - intros (y' & Hx & Hy). apply list_elem_of_bind in Hx as (x' & Hp & Hx).
    apply list_elem_of_singleton in Hp as [= -> ->].
    apply elem_of_seqZ in Hx, Hy.
    rewrite !andb_true_iff, !Z.leb_le, !Z.ltb_lt. lia.
  - rewrite !andb_true_iff, !Z.leb_le, !Z.ltb_lt. intros H.
    exists y. split; [|apply elem_of_seqZ; lia].
    apply list_elem_of_bind. exists x. split; [apply list_elem_of_singleton; reflexivity|].
    apply elem_of_seqZ. lia.
Qed.

Section Goroutines.

Variable cv : F64.Conv.
Variables img1 img2 : Image.
Variables stats1 stats2 : ImageStats.
Variable nrm : bool.
Variable sf : float.
Variable mode : string.

Local Abbreviation px := (pixelAt cv img1 img2 stats1 stats2 nrm sf mode).
Local Abbreviation go := (goroutine cv img1 img2 stats1 stats2 nrm sf mode).
Local Abbreviation hitD := (hitDiff cv img1 img2 stats1 stats2 nrm sf mode).

Lemma goroutine_eq c :
  go c = map (fun p => Write p.1 p.2 (px p)) (pixels c)
         ++ [AddCount1 (GoInt.wrap64 (tally (hit1 img1) (pixels c)));
             AddCount2 (GoInt.wrap64 (tally (hit2 img2) (pixels c)));
             AddDiffCount (GoInt.wrap64 (tally hitD (pixels c)))].
Proof. unfold goroutine. rewrite computeDiffChunk_fold. reflexivity. Qed.

Lemma goroutines_coherent cs : coherent px (concat (map go cs)).
Proof.
  unfold coherent. induction cs as [|c cs IH]; [constructor|].
  cbn [map concat]. apply Forall_app. split; [|exact IH].
  rewrite goroutine_eq. apply Forall_app. split.
  - apply Forall_forall. intros a Ha. apply list_elem_of_fmap in Ha as ([x y] & -> & _).
    reflexivity.
  - repeat constructor.
Qed.

Lemma goroutines_written cs : written (concat (map go cs)) = concat (map pixels cs).
Proof.
  induction cs as [|c cs IH]; [reflexivity|].
  cbn [map concat]. rewrite written_app, IH, goroutine_eq, written_app, written_writes.
  cbn. rewrite app_nil_r. reflexivity.
Qed.

Lemma goroutines_added cs :
  GoInt.wrap64 (added 0 (concat (map go cs)))
  = GoInt.wrap64 (tally (hit1 img1) (concat (map pixels cs))) /\
  GoInt.wrap64 (added 1 (concat (map go cs)))
  = GoInt.wrap64 (tally (hit2 img2) (concat (map pixels cs))) /\
  GoInt.wrap64 (added 2 (concat (map go cs)))
  = GoInt.wrap64 (tally hitD (concat (map pixels cs))).
Proof.
  induction cs as [|c cs (IH0 & IH1 & IH2)]; [repeat split|].
  cbn [map concat]. rewrite !tally_app, !added_app, goroutine_eq, !added_app, !added_writes.
  cbn [added foldr]. rewrite !Z.add_0_l, !Z.add_0_r.
  repeat split.
  - rewrite wrap64_add_l, <- wrap64_add_r, IH0, wrap64_add_r. reflexivity.
  - rewrite wrap64_add_l, <- wrap64_add_r, IH1, wrap64_add_r. reflexivity.
  - rewrite wrap64_add_l, <- wrap64_add_r, IH2, wrap64_add_r. reflexivity.
Qed.


(** The state at [wg.Wait()] under any schedule. *)
Lemma join_result cs sched s :
  exact_tiling (Bounds img1) cs ->
  join sched (map go cs) (mkShared (NewRGBA (Bounds img1)) 0 0 0) = Some s ->
  Rect (diffImg s) = Bounds img1 /\
  (forall p, Pix (diffImg s) !! p
             = if In_rect p.1 p.2 (Bounds img1) then Some (px p) else None) /\
  count1 s = GoInt.wrap64 (tally (hit1 img1) (pixels (whole (Bounds img1)))) /\
  count2 s = GoInt.wrap64 (tally (hit2 img2) (pixels (whole (Bounds img1)))) /\
  diffCount s = GoInt.wrap64 (tally hitD (pixels (whole (Bounds img1)))).
Proof.
  intros Ht Hjoin. apply join_perm in Hjoin as (acts & Hperm & ->).
  pose proof (tiling_pixels _ _ Ht) as Hpix.
  pose proof (goroutines_added cs) as (H0 & H1 & H2).
  assert (Hint : GoInt.is_int 0) by (int_bounds; lia).
  split; [apply perform_all_Rect|]. split; [|repeat split].
  - intros [x y]. rewrite (perform_all_lookup px).
    + cbn [diffImg NewRGBA Rect Pix fst snd]. rewrite lookup_empty.
      destruct (In_rect x y (Bounds img1)) eqn:Hin; [|rewrite andb_false_r; reflexivity].
      rewrite andb_true_r, bool_decide_eq_true_2; [reflexivity|].
      rewrite (written_perm _ _ _ Hperm), goroutines_written, Hpix.
      apply elem_of_pixels. exact Hin.
    + unfold coherent. rewrite Hperm. apply goroutines_coherent.
  - rewrite perform_all_count1 by exact Hint. cbn [count1]. rewrite Z.add_0_l.
    rewrite (added_perm _ _ _ Hperm), H0. f_equal. apply tally_perm, Hpix.
  - rewrite perform_all_count2 by exact Hint. cbn [count2]. rewrite Z.add_0_l.
    rewrite (added_perm _ _ _ Hperm), H1. f_equal. apply tally_perm, Hpix.
  - rewrite perform_all_diffCount by exact Hint. cbn [diffCount]. rewrite Z.add_0_l.
    rewrite (added_perm _ _ _ Hperm), H2. f_equal. apply tally_perm, Hpix.
Qed.

(** The image [computeDiffChunk] leaves after the whole bounds. *)
Lemma single_run_image :
  let d := fst (computeDiffChunk cv img1 img2 (NewRGBA (Bounds img1))
                  (whole (Bounds img1)) stats1 stats2 nrm sf mode) in
  Rect d = Bounds img1 /\
  forall p, Pix d !! p = if In_rect p.1 p.2 (Bounds img1) then Some (px p) else None.
Proof.
  cbv zeta. rewrite computeDiffChunk_fold. cbn [fst].
  set (ws := map (fun p => Write p.1 p.2 (px p)) (pixels (whole (Bounds img1)))).
  assert (E : forall ps d,
    fold_left (fun d p => RGBA_Set d p.1 p.2 (px p)) ps d
    = diffImg (perform_all (map (fun p => Write p.1 p.2 (px p)) ps) (mkShared d 0 0 0))).
  { induction ps as [|p ps IH]; intros d; [reflexivity|].
    cbn [map fold_left perform_all]. rewrite IH. reflexivity. }
  rewrite E. fold ws. split; [apply perform_all_Rect|].
  intros [x y]. rewrite (perform_all_lookup px).
  - cbn [diffImg NewRGBA Rect Pix fst snd]. rewrite lookup_empty.
    destruct (In_rect x y (Bounds img1)) eqn:Hin; [|rewrite andb_false_r; reflexivity].
    rewrite andb_true_r, bool_decide_eq_true_2; [reflexivity|].
    subst ws. rewrite written_writes. apply elem_of_pixels. exact Hin.
  - subst ws. apply Forall_forall. intros a Ha.
    apply list_elem_of_fmap in Ha as ([x' y'] & -> & _). reflexivity.
Qed.

End Goroutines.

Lemma RGBAImage_eq d d' :
  Rect d = Rect d' -> (forall p, Pix d !! p = Pix d' !! p) -> d = d'.
Proof.
  destruct d as [pix r], d' as [pix' r']. cbn. intros -> H.
  f_equal. apply map_eq, H.
Qed.



(** ** draw.Draw and createCompositeImage *)

Lemma fold_left_ext_in {A St : Type} (g h : St -> A -> St) l : forall s,
  (forall t a, a ∈ l -> g t a = h t a) -> fold_left g l s = fold_left h l s.
Proof.
  induction l as [|a l IH]; intros s Hgh; [reflexivity|].
  cbn [fold_left]. rewrite Hgh by left. apply IH. intros t b Hb. apply Hgh. right. exact Hb.
Qed.

(** Setting the colour [g p] at every coordinate [p] of a list. *)
Lemma set_pixels_spec (g : Z * Z -> RGBA8) ps d :
  let d' := fold_left (fun d p => RGBA_Set d p.1 p.2 (g p)) ps d in
  Rect d' = Rect d /\
  forall p, Pix d' !! p
            = if bool_decide (p ∈ ps) && In_rect p.1 p.2 (Rect d)
              then Some (g p) else Pix d !! p.
Proof.
  cbv zeta.
  assert (E : forall ps d,
    fold_left (fun d p => RGBA_Set d p.1 p.2 (g p)) ps d
    = diffImg (perform_all (map (fun p => Write p.1 p.2 (g p)) ps) (mkShared d 0 0 0))).
  { clear. induction ps as [|p ps IH]; intros d; [reflexivity|].
    cbn [map fold_left perform_all]. rewrite IH. reflexivity. }
  rewrite E. split; [apply perform_all_Rect|].
  intros p. rewrite (perform_all_lookup g).
  - rewrite written_writes. reflexivity.
  - apply Forall_forall. intros a Ha.
    apply list_elem_of_fmap in Ha as ([x' y'] & -> & _). reflexivity.
Qed.

Lemma wrap64_sub_l a b : GoInt.wrap64 (GoInt.wrap64 a - b) = GoInt.wrap64 (a - b).
Proof. rewrite <- !Z.add_opp_r. apply wrap64_add_l. Qed.

Lemma Intersect_inside r s :
  Empty r = false ->
  X (Min s) <= X (Min r) -> Y (Min s) <= Y (Min r) ->
  X (Max r) <= X (Max s) -> Y (Max r) <= Y (Max s) ->
  Intersect r s = r.
Proof.
  intros He Hx0 Hy0 Hx1 Hy1. unfold Intersect.
  destruct (Z.ltb_spec (X (Min r)) (X (Min s))); [lia|].
  destruct (Z.ltb_spec (Y (Min r)) (Y (Min s))); [lia|].
  destruct (Z.ltb_spec (X (Max s)) (X (Max r))); [lia|].
  destruct (Z.ltb_spec (Y (Max s)) (Y (Max r))); [lia|].
  destruct r as [[x0 y0] [x1 y1]]. cbn [Min Max X Y] in *. rewrite He. reflexivity.
Qed.

(** Drawing a source of bounds [b] at the block of the same size whose
    corner is [(a, 0)]. *)
Lemma Draw_block dst src a :
  let b := Bounds src in
  let W := X (Max b) - X (Min b) in
  let H := Y (Max b) - Y (Min b) in
  int_rect b -> 0 < W -> 0 < H -> 0 <= a -> a + W <= GoInt.max_int -> H <= GoInt.max_int ->
  X (Min (Rect dst)) <= a -> Y (Min (Rect dst)) <= 0 ->
  a + W <= X (Max (Rect dst)) -> H <= Y (Max (Rect dst)) ->
  Draw dst (mkRect (mkPoint a 0) (mkPoint (a + W) H)) src (Min b) = paint src a dst.
Proof.
  cbv zeta. unfold paint. intros (Hx0 & Hy0 & Hx1 & Hy1) HW HH Ha HaW HHm Hd1 Hd2 Hd3 Hd4.
  set (b := Bounds src) in *.
  set (r := mkRect (mkPoint a 0) (mkPoint (a + (X (Max b) - X (Min b))) (Y (Max b) - Y (Min b)))).
  assert (Her : Empty r = false).
  { unfold Empty, r. cbn [Min Max X Y].
    destruct (Z.leb_spec (a + (X (Max b) - X (Min b))) a); [lia|].
    destruct (Z.leb_spec (Y (Max b) - Y (Min b)) 0); [lia|]. reflexivity. }
  unfold Draw.
  rewrite (Intersect_inside r (Rect dst)) by (first [exact Her | cbn [r Min Max X Y]; lia]).
  assert (Hmove : Rect_Add b (Point_Sub (Min r) (Min b)) = r).
  { unfold Rect_Add, Point_Add, Point_Sub, GoInt.add, GoInt.sub, r. cbn [Min Max X Y].
    rewrite !wrap64_add_r.
    replace (X (Min b) + (a - X (Min b))) with a by lia.
    replace (Y (Min b) + (0 - Y (Min b))) with 0 by lia.
    replace (X (Max b) + (a - X (Min b))) with (a + (X (Max b) - X (Min b))) by lia.
    replace (Y (Max b) + (0 - Y (Min b))) with (Y (Max b) - Y (Min b)) by lia.
    rewrite !wrap64_id by (int_bounds; lia). reflexivity. }
  fold b. rewrite Hmove.
  rewrite (Intersect_inside r r) by (first [exact Her | lia]).
  rewrite Her.
  assert (Hsp : Point_Add (Min b) (Point_Sub (Min r) (Min r)) = Min b).
  { unfold Point_Add, Point_Sub, GoInt.add, GoInt.sub. rewrite !Z.sub_diag.
    cbn [X Y]. rewrite !wrap64_add_r, !Z.add_0_r.
    rewrite !wrap64_id by assumption. destruct (Min b); reflexivity. }
  rewrite Hsp.
  rewrite (chunk_loops_fold
    (fun x y d => RGBA_Set d x y
       (RGBAModel_Convert
          (At src (GoInt.sub (GoInt.add (X (Min b)) x) (X (Min r)))
                  (GoInt.sub (GoInt.add (Y (Min b)) y) (Y (Min r))))))
    (mkChunk a (a + (X (Max b) - X (Min b))) 0 (Y (Max b) - Y (Min b)))).
  apply fold_left_ext_in. intros d [x y] Hp. cbn [fst snd].
  apply elem_of_pixels in Hp. unfold in_chunk in Hp. cbn [startX endX startY endY] in Hp.
  rewrite !andb_true_iff, !Z.leb_le, !Z.ltb_lt in Hp.
  unfold GoInt.add, GoInt.sub, r. cbn [Min Max X Y].
  rewrite !wrap64_sub_l, Z.sub_0_r.
  do 3 f_equal.
  - rewrite wrap64_id by (int_bounds; lia). lia.
  - apply wrap64_id. int_bounds. lia.
Qed.


Lemma paint_spec src a dst :
  let b := Bounds src in
  Rect (paint src a dst) = Rect dst /\
  forall x y,
    Pix (paint src a dst) !! (x, y)
    = if in_chunk x y (mkChunk a (a + (X (Max b) - X (Min b))) 0 (Y (Max b) - Y (Min b)))
         && In_rect x y (Rect dst)
      then Some (RGBAModel_Convert (At src (X (Min b) + (x - a)) (Y (Min b) + y)))
      else Pix dst !! (x, y).
Proof.
  cbv zeta. unfold paint.
  destruct (set_pixels_spec
              (fun p => RGBAModel_Convert
                          (At src (X (Min (Bounds src)) + (p.1 - a))
                                  (Y (Min (Bounds src)) + p.2)))
              (pixels (mkChunk a (a + (X (Max (Bounds src)) - X (Min (Bounds src)))) 0
                         (Y (Max (Bounds src)) - Y (Min (Bounds src))))) dst) as [HR HP].
  split; [exact HR|]. intros x y. rewrite HP. cbn [fst snd].
  destruct (in_chunk x y _) eqn:Hin.
  - rewrite bool_decide_eq_true_2 by (apply elem_of_pixels; exact Hin). reflexivity.
  - rewrite bool_decide_eq_false_2; [reflexivity|].
    rewrite elem_of_pixels, Hin. discriminate.
Qed.

Lemma narrow_widen v : 0 <= v < 256 -> narrow (widen v) = v.
Proof.
  intros Hv.
  assert (H : forallb (fun v => narrow (widen v) =? v) (seqZ 0 256) = true)
    by (vm_compute; reflexivity).
  rewrite forallb_forall in H. apply Z.eqb_eq, H, list_elem_of_In, elem_of_seqZ. lia.
Qed.

(** An 8-bit colour survives the round trip through its 16-bit channel
    values. *)
Lemma Convert_RGBA c : valid_RGBA c -> RGBAModel_Convert (RGBA_RGBA c) = c.
Proof.
  intros (Hr & Hg & Hb & Ha). destruct c as [r g b a]. cbn [R G B A] in *.
  unfold RGBAModel_Convert, RGBA_RGBA. cbn [r16 g16 b16 a16].
  rewrite !narrow_widen by assumption. reflexivity.
Qed.

Lemma createCompositeImage_paint img1 img2 dimg :
  let b := Bounds img1 in
  let W := X (Max b) - X (Min b) in
  let H := Y (Max b) - Y (Min b) in
  Bounds img2 = b -> Bounds dimg = b ->
  int_rect b -> well_formed b -> positive_area b -> 3 * Dx b <= GoInt.max_int ->
  Dx b = W /\ Dy b = H /\
  createCompositeImage img1 img2 dimg
  = paint img2 (W + W) (paint dimg W (paint img1 0
      (NewRGBA (mkRect (mkPoint 0 0) (mkPoint (W + W + W) H))))).
Proof.
  cbv zeta. intros Hb2 Hbd Hint Hwf Hpos H3.
  pose proof (Dx_exact _ Hint Hwf (proj1 Hpos)) as HDx.
  pose proof (Dy_exact _ Hint Hwf (proj2 Hpos)) as HDy.
  destruct Hpos as [HW HH].
  pose proof (wrap64_is_int (Y (Max (Bounds img1)) - Y (Min (Bounds img1)))) as HrY.
  fold (GoInt.sub (Y (Max (Bounds img1))) (Y (Min (Bounds img1)))) in HrY.
  fold (Dy (Bounds img1)) in HrY.
  split; [exact HDx|]. split; [exact HDy|].
  unfold createCompositeImage, GoInt.mul.
  rewrite (wrap64_id (Dx (Bounds img1) * 3)) by (int_bounds; lia).
  rewrite (wrap64_id (Dx (Bounds img1) * 2)) by (int_bounds; lia).
  rewrite HDx in *. rewrite HDy in *.
  set (b := Bounds img1) in *.
  set (W := X (Max b) - X (Min b)) in *. set (H := Y (Max b) - Y (Min b)) in *.
  unfold image_Rect.
  destruct (Z.ltb_spec (W * 3) 0); [lia|].
  destruct (Z.ltb_spec H 0); [lia|].
  destruct (Z.ltb_spec W 0); [lia|].
  destruct (Z.ltb_spec (W * 2) W); [lia|].
  destruct (Z.ltb_spec (W * 3) (W * 2)); [lia|].
  replace (W * 3) with (W + W + W) by lia. replace (W * 2) with (W + W) by lia.
  set (d0 := NewRGBA (mkRect (mkPoint 0 0) (mkPoint (W + W + W) H))).
  assert (E1 : Draw d0 (mkRect (mkPoint 0 0) (mkPoint W H)) img1 (Min b) = paint img1 0 d0).
  { pose proof (Draw_block d0 img1 0) as D. cbv zeta in D. fold b W H in D.
    rewrite Z.add_0_l in D. apply D; first [assumption | cbn; int_bounds; lia]. }
  rewrite E1.
  assert (E2 : Draw (paint img1 0 d0) (mkRect (mkPoint W 0) (mkPoint (W + W) H)) dimg (Min b)
               = paint dimg W (paint img1 0 d0)).
  { pose proof (Draw_block (paint img1 0 d0) dimg W) as D. cbv zeta in D.
    rewrite Hbd in D. fold b W H in D.
    rewrite (proj1 (paint_spec img1 0 d0)) in D.
    apply D; first [assumption | cbn; int_bounds; lia]. }
  rewrite E2.
  pose proof (Draw_block (paint dimg W (paint img1 0 d0)) img2 (W + W)) as D.
  cbv zeta in D. rewrite Hb2 in D. fold b W H in D.
  rewrite (proj1 (paint_spec dimg W _)), (proj1 (paint_spec img1 0 d0)) in D.
  apply D; first [assumption | cbn; int_bounds; lia].
Qed.

Ltac decide_cmp :=
  repeat match goal with
  | |- context [Z.leb ?a ?b] => destruct (Z.leb_spec a b); try lia
  | |- context [Z.ltb ?a ?b] => destruct (Z.ltb_spec a b); try lia
  end.



(** ** float64: signs *)

Lemma magnitude_abs f : magnitude (Prim2SF (PrimFloat.abs f)) = true.
Proof. rewrite FloatAxioms.abs_spec. destruct (Prim2SF f) as [s|s| |s m e]; reflexivity. Qed.

Lemma binary_round_aux_sign s m e l :
  match binary_round_aux prec emax s m e l with
  | S754_zero s' | S754_infinity s' | S754_finite s' _ _ => s' = s
  | S754_nan => True
  end.
Proof.
  unfold binary_round_aux.
  destruct (shr_fexp prec emax m e l) as [mrs' e'].
  destruct (shr_fexp prec emax _ e' loc_Exact) as [mrs'' e''].
  destruct (shr_m mrs'') as [|p|p]; try exact I; try reflexivity.
  destruct (e'' <=? emax - prec); reflexivity.
Qed.

Lemma magnitude_add x y :
  magnitude x = true -> magnitude y = true -> magnitude (SF64add x y) = true.
Proof.
  destruct x as [[|]|[|]| |[|] mx ex], y as [[|]|[|]| |[|] my ey];
    try discriminate; try reflexivity.
  intros _ _. unfold SF64add, SFadd. cbn [cond_Zopp].
  destruct (shl_align mx ex _) as [a ea]. destruct (shl_align my ey _) as [b eb].
  unfold binary_normalize. cbn [fst].
  change (Z.pos a + Z.pos b) with (Z.pos (a + b)). cbv beta iota. unfold binary_round.
  destruct (shl_align (a + b) _ _) as [mz ez].
  pose proof (binary_round_aux_sign false (Zpos mz) ez loc_Exact) as H.
  destruct (binary_round_aux prec emax false (Zpos mz) ez loc_Exact); subst; reflexivity.
Qed.

Lemma is_nan_spec f :
  is_nan f = match Prim2SF f with S754_nan => true | _ => false end.
Proof.
  unfold is_nan. rewrite FloatAxioms.eqb_spec. unfold SFeqb, SFcompare.
  destruct (Prim2SF f) as [s|[|]| |[|] m e]; try reflexivity.
  - rewrite Z.compare_refl, Pos.compare_cont_refl. reflexivity.
  - rewrite Z.compare_refl, Pos.compare_cont_refl. reflexivity.
Qed.

(** For a magnitude that is a number, "greater than zero" and "not equal
    to zero" are the same test. *)
Lemma magnitude_pos_nonzero f :
  magnitude (Prim2SF f) = true -> is_nan f = false ->
  (0 <? f)%float = negb (f =? 0)%float.
Proof.
  rewrite is_nan_spec, FloatAxioms.ltb_spec, FloatAxioms.eqb_spec.
  change (Prim2SF 0) with (S754_zero false).
  destruct (Prim2SF f) as [[|]|[|]| |[|] m e]; try discriminate; reflexivity.
Qed.

Lemma channelDiffs_magnitude c1 c2 stats1 stats2 nrm :
  let '(rD, gD, bD, aD) := channelDiffs c1 c2 stats1 stats2 nrm in
  magnitude (Prim2SF rD) = true /\ magnitude (Prim2SF gD) = true /\
  magnitude (Prim2SF bD) = true /\ magnitude (Prim2SF aD) = true.
Proof.
  unfold channelDiffs. destruct nrm; repeat split; apply magnitude_abs.
Qed.

Lemma magnitude_sum4 r g b a :
  magnitude (Prim2SF r) = true -> magnitude (Prim2SF g) = true ->
  magnitude (Prim2SF b) = true -> magnitude (Prim2SF a) = true ->
  magnitude (Prim2SF (r + g + b + a)%float) = true.
Proof.
  intros Hr Hg Hb Ha. rewrite !FloatAxioms.add_spec.
  repeat apply magnitude_add; assumption.
Qed.

(** ** computeDiffChunk: the alpha channel *)


(** Two pixels that differ in alpha only are counted as different and
    rendered black in the three modes. *)
Example alpha_only_difference cv stats1 stats2 :
  let c1 := RGBA_RGBA (mkRGBA 10 20 30 255) in
  let c2 := RGBA_RGBA (mkRGBA 10 20 30 100) in
  diffPixel cv c1 c2 stats1 stats2 false 2 "bw" = (true, true, true, mkRGBA 0 0 0 255) /\
  diffPixel cv c1 c2 stats1 stats2 false 2 "gray" = (true, true, true, mkRGBA 0 0 0 255) /\
  diffPixel cv c1 c2 stats1 stats2 false 2 "color" = (true, true, true, mkRGBA 0 0 0 255).
Proof. cbv zeta. repeat split; vm_compute; reflexivity. Qed.

(** ** float64: mantissas and shifts *)

Lemma digits2_size p : digits2_pos p = Pos.size p.
Proof. induction p as [p IH|p IH|]; cbn; rewrite ?IH; reflexivity. Qed.

(** A positive number has [digits2_pos] binary digits. *)
Lemma digits2_bounds p :
  2 ^ (Z.pos (digits2_pos p) - 1) <= Z.pos p < 2 ^ Z.pos (digits2_pos p).
Proof.
  rewrite digits2_size.
  pose proof (Pos.size_gt p) as Hgt. pose proof (Pos.size_le p) as Hle.
  apply Pos2Z.pos_lt_pos in Hgt. apply Pos2Z.pos_le_pos in Hle.
  rewrite Pos2Z.inj_pow in Hgt, Hle. change (Z.pos p~0) with (2 * Z.pos p) in Hle.
  replace (Z.pos (Pos.size p)) with (Z.succ (Z.pos (Pos.size p) - 1)) in Hle at 1 by lia.
  rewrite Z.pow_succ_r in Hle by lia. lia.
Qed.

Lemma digits2_unique p d :
  2 ^ (d - 1) <= Z.pos p < 2 ^ d -> Z.pos (digits2_pos p) = d.
Proof.
  intros [Hlo Hhi]. pose proof (digits2_bounds p) as [Hlo' Hhi'].
  assert (Hd : 0 < d).
  { destruct (Z_lt_le_dec 0 d); [assumption|].
    assert (2 ^ d <= 2 ^ 0) by (apply Z.pow_le_mono_r; lia).
    change (2 ^ 0) with 1 in *. lia. }
  destruct (Z.lt_trichotomy (Z.pos (digits2_pos p)) d) as [Hlt|[Heq|Hgt]];
    [|exact Heq|].
  - assert (2 ^ Z.pos (digits2_pos p) <= 2 ^ (d - 1)) by (apply Z.pow_le_mono_r; lia). lia.
  - assert (2 ^ d <= 2 ^ (Z.pos (digits2_pos p) - 1)) by (apply Z.pow_le_mono_r; lia). lia.
Qed.

Lemma digits2_shift p q k :
  0 <= k -> Z.pos q = Z.pos p * 2 ^ k ->
  Z.pos (digits2_pos q) = Z.pos (digits2_pos p) + k.
Proof.
  intros Hk Hq. apply digits2_unique. rewrite Hq.
  pose proof (digits2_bounds p) as [Hlo Hhi].
  replace (Z.pos (digits2_pos p) + k - 1) with (Z.pos (digits2_pos p) - 1 + k) by lia.
  rewrite !Z.pow_add_r by lia.
  assert (0 < 2 ^ k) by (apply Z.pow_pos_nonneg; lia). nia.
Qed.

Lemma Pos_iter_xO p k : Z.pos (Pos.iter xO p k) = Z.pos p * 2 ^ Z.pos k.
Proof.
  induction k as [|k IH] using Pos.peano_ind.
  - cbn. lia.
  - rewrite Pos.iter_succ. change (Z.pos (Pos.iter xO p k)~0) with (2 * Z.pos (Pos.iter xO p k)).
    rewrite IH, Pos2Z.inj_succ, Z.pow_succ_r by lia. lia.
Qed.

(** Shifting out [n] zero bits is exact. *)
Lemma iter_shr_exact n : forall N,
  0 <= N ->
  SpecFloat.iter_pos shr_1 n (Build_shr_record (N * 2 ^ Z.pos n) false false)
  = Build_shr_record N false false.
Proof.
  assert (H1 : forall N, 0 <= N ->
            shr_1 (Build_shr_record (N * 2) false false) = Build_shr_record N false false).
  { intros [|q|q] HN; try lia; [reflexivity|].
    rewrite Z.mul_comm. reflexivity. }
  induction n as [n IH|n IH|]; intros N HN.
  - cbn [SpecFloat.iter_pos]. change (Z.pos n~1) with (2 * Z.pos n + 1).
    replace (N * 2 ^ (2 * Z.pos n + 1)) with ((N * 2 ^ Z.pos n) * 2 ^ Z.pos n * 2)
      by (rewrite Z.pow_add_r, Z.pow_1_r by lia;
          replace (2 * Z.pos n) with (Z.pos n + Z.pos n) by lia;
          rewrite Z.pow_add_r by lia; ring).
    assert (0 < 2 ^ Z.pos n) by (apply Z.pow_pos_nonneg; lia).
    rewrite H1 by nia. rewrite IH by nia. apply IH, HN.
  - cbn [SpecFloat.iter_pos]. change (Z.pos n~0) with (2 * Z.pos n).
    replace (N * 2 ^ (2 * Z.pos n)) with ((N * 2 ^ Z.pos n) * 2 ^ Z.pos n)
      by (replace (2 * Z.pos n) with (Z.pos n + Z.pos n) by lia;
          rewrite Z.pow_add_r by lia; ring).
    assert (0 < 2 ^ Z.pos n) by (apply Z.pow_pos_nonneg; lia).
    rewrite IH by nia. apply IH, HN.
  - cbn [SpecFloat.iter_pos]. rewrite Z.pow_1_r. apply H1, HN.
Qed.

(** In general the mantissa is divided by [2 ^ n]. *)
Lemma iter_shr_m n : forall mrs,
  0 <= shr_m mrs -> shr_m (SpecFloat.iter_pos shr_1 n mrs) = shr_m mrs / 2 ^ Z.pos n.
Proof.
  assert (H1 : forall mrs, 0 <= shr_m mrs -> shr_m (shr_1 mrs) = shr_m mrs / 2).
  { intros [[|q|q] r s] Hm; cbn [shr_m] in *; try lia; [reflexivity|].
    rewrite <- Z.div2_div. destruct q; reflexivity. }
  induction n as [n IH|n IH|]; intros mrs Hm.
  - cbn [SpecFloat.iter_pos].
    assert (Hp : 0 < 2 ^ Z.pos n) by (apply Z.pow_pos_nonneg; lia).
    assert (H0 : 0 <= shr_m (shr_1 mrs))
      by (rewrite H1 by assumption; apply Z.div_pos; lia).
    assert (H2 : 0 <= shr_m (SpecFloat.iter_pos shr_1 n (shr_1 mrs)))
      by (rewrite IH by assumption; apply Z.div_pos; lia).
    rewrite IH by assumption. rewrite IH by assumption. rewrite H1 by assumption.
    rewrite !Z.div_div by lia.
    f_equal. change (Z.pos n~1) with (2 * Z.pos n + 1).
    rewrite Z.pow_add_r, Z.pow_1_r by lia.
    replace (2 * Z.pos n) with (Z.pos n + Z.pos n) by lia.
    rewrite Z.pow_add_r by lia. ring.
  - cbn [SpecFloat.iter_pos].
    assert (Hp : 0 < 2 ^ Z.pos n) by (apply Z.pow_pos_nonneg; lia).
    assert (H2 : 0 <= shr_m (SpecFloat.iter_pos shr_1 n mrs))
      by (rewrite IH by assumption; apply Z.div_pos; lia).
    rewrite IH by assumption. rewrite IH by assumption.
    rewrite !Z.div_div by lia.
    f_equal. change (Z.pos n~0) with (2 * Z.pos n).
    replace (2 * Z.pos n) with (Z.pos n + Z.pos n) by lia.
    rewrite Z.pow_add_r by lia. ring.
  - cbn [SpecFloat.iter_pos]. rewrite Z.pow_1_r. apply H1, Hm.
Qed.

(** ** float64: exactly representable integers *)

Lemma fexp_normal e : -1021 <= e -> fexp prec emax e = e - 53.
Proof. intros He. unfold fexp, SpecFloat.emin, prec, emax. lia. Qed.

Lemma shr_fexp_full q e l :
  Z.pos (digits2_pos q) = 53 -> -1074 <= e ->
  shr_fexp prec emax (Z.pos q) e l = (shr_record_of_loc (Z.pos q) l, e).
Proof.
  intros Hd He. unfold shr_fexp, shr, Zdigits2. rewrite Hd.
  rewrite fexp_normal by lia.
  replace (53 + e - 53 - e) with 0 by lia. reflexivity.
Qed.

Lemma binary_round_aux_full s q e :
  Z.pos (digits2_pos q) = 53 -> -1074 <= e <= 971 ->
  binary_round_aux prec emax s (Z.pos q) e loc_Exact = S754_finite s q e.
Proof.
  intros Hd He. unfold binary_round_aux.
  rewrite shr_fexp_full by (first [assumption | lia]).
  cbn [shr_record_of_loc shr_m loc_of_shr_record round_nearest_even].
  rewrite shr_fexp_full by (first [assumption | lia]).
  cbn [shr_record_of_loc shr_m].
  destruct (Z.leb_spec e (emax - prec)) as [_|H]; [reflexivity|].
  unfold emax, prec in H. lia.
Qed.

(** Rounding a mantissa that is [N] followed by [j] zero bits, at exponent
    [-j]: the value is the integer [N], and the result is its
    representation. *)
Lemma binary_round_aux_int s N j :
  Z.pos (digits2_pos N) <= 53 -> 0 <= j -> 53 <= Z.pos (digits2_pos N) + j ->
  binary_round_aux prec emax s (Z.pos N * 2 ^ j) (- j) loc_Exact = canon s N.
Proof.
  intros Hd Hj Hdj. set (d := Z.pos (digits2_pos N)) in *.
  assert (Hpow : forall k, 0 <= k -> 0 < Z.pos N * 2 ^ k).
  { intros k Hk. assert (0 < 2 ^ k) by (apply Z.pow_pos_nonneg; lia). nia. }
  assert (Hq : forall k, 0 <= k ->
            Z.pos (digits2_pos (Z.to_pos (Z.pos N * 2 ^ k))) = d + k).
  { intros k Hk. apply digits2_shift; [assumption|].
    apply Z2Pos.id, Hpow, Hk. }
  assert (Hfull : binary_round_aux prec emax s (Z.pos N * 2 ^ (53 - d)) (d - 53) loc_Exact
                  = canon s N).
  { rewrite <- (Z2Pos.id (Z.pos N * 2 ^ (53 - d))) by (apply Hpow; lia).
    rewrite binary_round_aux_full; [reflexivity | rewrite Hq by lia; lia | lia]. }
  destruct (Z.eq_dec (d + j) 53) as [E|E].
  - replace j with (53 - d) by lia. replace (- (53 - d)) with (d - 53) by lia.
    exact Hfull.
  - rewrite <- Hfull. unfold binary_round_aux at 1.
    assert (E1 : shr_fexp prec emax (Z.pos N * 2 ^ j) (- j) loc_Exact
                 = (Build_shr_record (Z.pos N * 2 ^ (53 - d)) false false, d - 53)).
    { unfold shr_fexp.
      replace (Zdigits2 (Z.pos N * 2 ^ j)) with (d + j).
      2:{ rewrite <- (Z2Pos.id (Z.pos N * 2 ^ j)) by (apply Hpow; lia).
          unfold Zdigits2. rewrite Hq by lia. reflexivity. }
      rewrite fexp_normal by lia.
      replace (d + j + - j - 53 - - j) with (d + j - 53) by lia.
      destruct (d + j - 53) as [|k|k] eqn:Ek; try lia.
      unfold shr, shr_record_of_loc.
      replace (Z.pos N * 2 ^ j) with ((Z.pos N * 2 ^ (53 - d)) * 2 ^ Z.pos k)
        by (rewrite <- Z.mul_assoc, <- Z.pow_add_r by lia; do 2 f_equal; lia).
      rewrite iter_shr_exact by (pose proof (Hpow (53 - d)); lia).
      f_equal. lia. }
    rewrite E1. cbn [shr_m loc_of_shr_record round_nearest_even].
    assert (E2 : shr_fexp prec emax (Z.pos N * 2 ^ (53 - d)) (d - 53) loc_Exact
                 = (Build_shr_record (Z.pos N * 2 ^ (53 - d)) false false, d - 53)).
    { rewrite <- (Z2Pos.id (Z.pos N * 2 ^ (53 - d))) by (apply Hpow; lia).
      rewrite shr_fexp_full by (rewrite ?Hq by lia; lia). reflexivity. }
    unfold binary_round_aux. rewrite E2.
    cbn [shr_m loc_of_shr_record round_nearest_even]. rewrite E2. reflexivity.
Qed.

(** ** float64: sums of magnitudes do not vanish *)

Lemma digits2_mono p q : Z.pos p <= Z.pos q -> Z.pos (digits2_pos p) <= Z.pos (digits2_pos q).
Proof.
  intros Hpq. pose proof (digits2_bounds p) as [Hp _]. pose proof (digits2_bounds q) as [_ Hq].
  destruct (Z_le_gt_dec (Z.pos (digits2_pos p)) (Z.pos (digits2_pos q))) as [H|H];
    [exact H|].
  assert (2 ^ Z.pos (digits2_pos q) <= 2 ^ (Z.pos (digits2_pos p) - 1))
    by (apply Z.pow_le_mono_r; lia).
  lia.
Qed.

Lemma digits2_div p k :
  0 <= k < Z.pos (digits2_pos p) ->
  exists q, Z.pos q = Z.pos p / 2 ^ k /\ Z.pos (digits2_pos q) = Z.pos (digits2_pos p) - k.
Proof.
  intros Hk. pose proof (digits2_bounds p) as [Hlo Hhi]. set (d := Z.pos (digits2_pos p)) in *.
  assert (Hp : 0 < 2 ^ k) by (apply Z.pow_pos_nonneg; lia).
  assert (Hlo' : 2 ^ (d - k - 1) <= Z.pos p / 2 ^ k).
  { apply Z.div_le_lower_bound; [exact Hp|].
    rewrite <- Z.pow_add_r by lia. replace (k + (d - k - 1)) with (d - 1) by lia. exact Hlo. }
  assert (Hhi' : Z.pos p / 2 ^ k < 2 ^ (d - k)).
  { apply Z.div_lt_upper_bound; [exact Hp|].
    rewrite <- Z.pow_add_r by lia. replace (k + (d - k)) with d by lia. exact Hhi. }
  assert (0 < 2 ^ (d - k - 1)) by (apply Z.pow_pos_nonneg; lia).
  exists (Z.to_pos (Z.pos p / 2 ^ k)). rewrite Z2Pos.id by lia. split; [reflexivity|].
  apply digits2_unique. rewrite Z2Pos.id by lia. split; assumption.
Qed.

Lemma shr_fexp_pos m e l :
  0 < m -> -1074 < magn m e ->
  0 < shr_m (fst (shr_fexp prec emax m e l)) /\
  magn (shr_m (fst (shr_fexp prec emax m e l))) (snd (shr_fexp prec emax m e l)) = magn m e.
Proof.
  intros Hm Hmag. destruct m as [|p|p]; try lia. unfold magn in *.
  unfold shr_fexp, shr. cbn [Zdigits2] in *.
  set (d := Z.pos (digits2_pos p)) in *.
  assert (Hrec : shr_m (shr_record_of_loc (Z.pos p) l) = Z.pos p)
    by (destruct l as [|[| |]]; reflexivity).
  destruct (fexp prec emax (d + e) - e) as [|n|n] eqn:En; cbn [fst snd];
    rewrite ?Hrec; cbn [Zdigits2]; try (split; [lia | reflexivity]).
  assert (Hn : Z.pos n < d).
  { unfold fexp, SpecFloat.emin, prec, emax in En. lia. }
  rewrite iter_shr_m by (rewrite Hrec; lia). rewrite Hrec.
  destruct (digits2_div p (Z.pos n)) as (q & Hq & Hdq); [lia|].
  rewrite <- Hq. cbn [Zdigits2]. split; lia.
Qed.

Lemma round_nearest_even_pos m l :
  0 < m -> m <= round_nearest_even m l.
Proof.
  intros Hm. unfold round_nearest_even.
  destruct l as [|[| |]]; try lia. destruct (Z.even m); lia.
Qed.

Lemma Zdigits2_mono m m' : 0 < m <= m' -> Zdigits2 m <= Zdigits2 m'.
Proof.
  intros H. destruct m as [|p|p], m' as [|q|q]; try lia. apply digits2_mono. lia.
Qed.

(** Rounding a positive mantissa whose value lies above the smallest
    subnormal gives a non-zero number (or overflows to infinity). *)
Lemma binary_round_aux_pos s m e l :
  0 < m -> -1074 < magn m e ->
  match binary_round_aux prec emax s m e l with
  | S754_finite s' _ _ | S754_infinity s' => s' = s
  | _ => False
  end.
Proof.
  intros Hm Hmag. unfold binary_round_aux.
  destruct (shr_fexp_pos m e l Hm Hmag) as [H1 H2].
  destruct (shr_fexp prec emax m e l) as [mrs' e']. cbn [fst snd] in H1, H2.
  pose proof (round_nearest_even_pos (shr_m mrs') (loc_of_shr_record mrs') H1) as Hr.
  set (m2 := round_nearest_even (shr_m mrs') (loc_of_shr_record mrs')) in *.
  assert (Hmag2 : -1074 < magn m2 e').
  { unfold magn in *. pose proof (Zdigits2_mono (shr_m mrs') m2 ltac:(lia)). lia. }
  destruct (shr_fexp_pos m2 e' loc_Exact ltac:(lia) Hmag2) as [H3 _].
  destruct (shr_fexp prec emax m2 e' loc_Exact) as [mrs'' e'']. cbn [fst snd] in H3.
  destruct (shr_m mrs'') as [|q|q]; try lia.
  destruct (e'' <=? emax - prec); reflexivity.
Qed.

Lemma shl_align_spec m e e' :
  Z.pos (fst (shl_align m e e')) = Z.pos m * 2 ^ (e - snd (shl_align m e e')) /\
  snd (shl_align m e e') <= e /\
  (e' <= e -> snd (shl_align m e e') = e').
Proof.
  unfold shl_align. destruct (e' - e) as [|d|d] eqn:E; cbn [fst snd].
  - rewrite Z.sub_diag. split; [lia|]. split; lia.
  - rewrite Z.sub_diag. split; [lia|]. split; lia.
  - rewrite Pos_iter_xO. split; [do 2 f_equal; lia|]. split; lia.
Qed.

Lemma shl_align_magn m e e' :
  magn (Z.pos (fst (shl_align m e e'))) (snd (shl_align m e e')) = magn (Z.pos m) e.
Proof.
  destruct (shl_align_spec m e e') as (Hm & He & _). unfold magn. cbn [Zdigits2].
  rewrite (digits2_shift m _ (e - snd (shl_align m e e'))) by (first [lia | exact Hm]). lia.
Qed.

(** A valid finite float lies above the smallest subnormal and has at most
    53 mantissa bits. *)
Lemma valid_finite s m e :
  valid_binary (S754_finite s m e) = true ->
  -1074 < magn (Z.pos m) e /\ Z.pos (digits2_pos m) <= 53 /\ -1074 <= e <= 971.
Proof.
  unfold valid_binary, SpecFloat.valid_binary, bounded, canonical_mantissa, magn.
  cbn [Zdigits2]. rewrite andb_true_iff, Z.eqb_eq, Z.leb_le.
  unfold fexp, SpecFloat.emin, prec, emax. lia.
Qed.

Lemma positive_add x y :
  valid_binary x = true -> valid_binary y = true ->
  positive_sf x = true -> magnitude y = true -> y <> S754_nan ->
  positive_sf (SF64add x y) = true.
Proof.
  intros Vx Vy Hx Hy Hn.
  destruct x as [[|]|[|]| |[|] mx ex], y as [[|]|[|]| |[|] my ey];
    try discriminate; try reflexivity; try contradiction.
  unfold SF64add, SFadd. cbn [cond_Zopp].
  destruct (valid_finite _ _ _ Vx) as (Hmx & _).
  set (ez := Z.min ex ey).
  pose proof (shl_align_spec mx ex ez) as (Ha & _ & Hae).
  pose proof (shl_align_magn mx ex ez) as Hma.
  set (a := fst (shl_align mx ex ez)) in *. set (b := fst (shl_align my ey ez)).
  rewrite Hae in Hma by (subst ez; lia).
  change (Z.pos a + Z.pos b) with (Z.pos (a + b)).
  unfold binary_normalize, binary_round.
  pose proof (shl_align_magn (a + b) ez (fexp prec emax (Z.pos (digits2_pos (a + b)) + ez))) as Hs.
  destruct (shl_align (a + b) ez _) as [mz ez']. cbn [fst snd] in Hs.
  assert (Hab : -1074 < magn (Z.pos (a + b)) ez).
  { unfold magn in *. cbn [Zdigits2] in *.
    pose proof (digits2_mono a (a + b) ltac:(lia)). lia. }
  pose proof (binary_round_aux_pos false (Z.pos mz) ez' loc_Exact ltac:(lia) ltac:(lia)) as H.
  destruct (binary_round_aux prec emax false (Z.pos mz) ez' loc_Exact);
    try contradiction; subst; reflexivity.
Qed.

(** ** float64: comparisons with constants and truncation *)

Lemma Prim2SF_one : Prim2SF 1 = S754_finite false 4503599627370496 (-52).
Proof. vm_compute. reflexivity. Qed.

Lemma Prim2SF_255 : Prim2SF 255 = S754_finite false 8972014882652160 (-45).
Proof. vm_compute. reflexivity. Qed.

Lemma pos_lt_spec f :
  (0 <? f)%float = positive_sf (Prim2SF f).
Proof.
  rewrite FloatAxioms.ltb_spec. change (Prim2SF 0) with (S754_zero false).
  destruct (Prim2SF f) as [[|]|[|]| |[|] m e]; reflexivity.
Qed.

Lemma digits2_lt_pow p : Z.pos (digits2_pos p) <= 53 -> Z.pos p < 2 ^ 53.
Proof.
  intros H. pose proof (digits2_bounds p) as [_ Hhi].
  assert (2 ^ Z.pos (digits2_pos p) <= 2 ^ 53) by (apply Z.pow_le_mono_r; lia). lia.
Qed.

(** The finite positive floats below a bound that has 53 mantissa bits. *)
Lemma finite_lt m e bm be :
  SFltb (S754_finite false m e) (S754_finite false bm be) = true ->
  e < be \/ (e = be /\ Z.pos m < Z.pos bm).
Proof.
  unfold SFltb, SFcompare. destruct (Z.compare_spec e be) as [->|Hlt|Hgt]; try discriminate.
  - rewrite Pos.compare_cont_spec. cbn [Pos.switch_Eq].
    destruct (Pos.compare_spec m bm); try discriminate. right. split; [reflexivity|lia].
  - left. exact Hlt.
Qed.

(** A float strictly between 0 and 1 is left alone by [min(_, 255)] and
    truncates to 0. *)
Lemma trunc_unit_interval f :
  (0 <? f)%float = true -> (f <? 1)%float = true ->
  F64.min f 255 = f /\ F64.trunc f = Some 0.
Proof.
  intros H0 H1. pose proof (Prim2SF_valid f) as Hv.
  unfold F64.min, F64.trunc. rewrite is_nan_spec.
  rewrite pos_lt_spec in H0.
  rewrite FloatAxioms.ltb_spec, Prim2SF_one in H1.
  rewrite (FloatAxioms.ltb_spec f 255), Prim2SF_255.
  destruct (Prim2SF f) as [[|]|[|]| |[|] m e]; try discriminate.
  destruct (valid_finite _ _ _ Hv) as (_ & Hd & _).
  apply digits2_lt_pow in Hd.
  apply finite_lt in H1.
  assert (Hlt : SFltb (S754_finite false m e) (S754_finite false 8972014882652160 (-45)) = true).
  { unfold SFltb, SFcompare. destruct (Z.compare_spec e (-45)); [lia | reflexivity | lia]. }
  rewrite Hlt. change (is_nan 255) with false. cbv iota.
  split; [reflexivity|]. cbn [cond_Zopp]. f_equal.
  rewrite Z.shiftl_div_pow2 by lia.
  apply Z.div_small. split; [lia|].
  destruct H1 as [He|[-> Hm]].
  - assert (2 ^ 53 <= 2 ^ (- e)) by (apply Z.pow_le_mono_r; lia). lia.
  - change (2 ^ (- -52)) with 4503599627370496. lia.
Qed.

Lemma min_255_cases f :
  (0 <=? f)%float = true ->
  (F64.min f 255 = f /\ (f <? 255)%float = true) \/ F64.min f 255 = 255%float.
Proof.
  intros H0. unfold F64.min.
  assert (Hnan : is_nan f = false).
  { rewrite is_nan_spec. rewrite FloatAxioms.leb_spec in H0.
    destruct (Prim2SF f); try reflexivity. discriminate. }
  rewrite Hnan. change (is_nan 255) with false. cbv iota.
  destruct (f <? 255)%float eqn:Hlt; [left; split; reflexivity|].
  destruct (255 <? f)%float eqn:Hgt; [right; reflexivity|].
  assert (Hs : get_sign f = false).
  { unfold get_sign, PrimFloat.is_zero.
    rewrite FloatAxioms.leb_spec in H0. change (Prim2SF 0) with (S754_zero false) in H0.
    rewrite FloatAxioms.ltb_spec, Prim2SF_255 in Hlt.
    change zero with 0%float. destruct (f =? 0)%float eqn:Hz.
    - rewrite eqb_zero in Hz. destruct (Prim2SF f) as [[|]|[|]| |[|] m e]; discriminate.
    - rewrite FloatAxioms.ltb_spec. change (Prim2SF 0) with (S754_zero false).
      destruct (Prim2SF f) as [[|]|[|]| |[|] m e]; try discriminate; reflexivity. }
  rewrite Hs. right. reflexivity.
Qed.

(** A non-negative float, capped at 255, truncates to a [uint8]. *)
Lemma trunc_nonneg f :
  (0 <=? f)%float = true ->
  exists z, F64.trunc (F64.min f 255) = Some z /\ 0 <= z <= 255.
Proof.
  intros H0. pose proof (Prim2SF_valid f) as Hv.
  destruct (min_255_cases f H0) as [[-> Hlt]| ->].
  2:{ exists 255. split; [vm_compute; reflexivity | lia]. }
  rewrite FloatAxioms.leb_spec in H0. change (Prim2SF 0) with (S754_zero false) in H0.
  rewrite FloatAxioms.ltb_spec, Prim2SF_255 in Hlt. unfold F64.trunc.
  destruct (Prim2SF f) as [[|]|[|]| |[|] m e]; try discriminate.
  - exists 0. split; [reflexivity|lia].
  - exists 0. split; [reflexivity|lia].
  - destruct (valid_finite _ _ _ Hv) as (_ & Hd & _). apply digits2_lt_pow in Hd.
    apply finite_lt in Hlt. exists (Z.shiftl (Z.pos m) e).
    cbn [cond_Zopp]. split; [reflexivity|].
    rewrite Z.shiftl_div_pow2 by lia.
    assert (0 < 2 ^ (- e)) by (apply Z.pow_pos_nonneg; lia).
    split; [apply Z.div_pos; lia|].
    assert (Z.pos m / 2 ^ (- e) < 256); [|lia].
    apply Z.div_lt_upper_bound; [lia|].
    destruct Hlt as [He|[-> Hm]].
    + assert (2 ^ 46 <= 2 ^ (- e)) by (apply Z.pow_le_mono_r; lia).
      change (2 ^ 46) with 70368744177664 in *. change (2 ^ 53) with 9007199254740992 in *.
      nia.
    + change (2 ^ (- -45)) with 35184372088832. lia.
Qed.

(** ** computeDiffChunk: scaled differences *)

Lemma to_uint8_trunc cv f z :
  F64.trunc f = Some z -> 0 <= z <= 255 -> F64.to_uint8 cv f = z.
Proof.
  intros Ht Hz. unfold F64.to_uint8. rewrite Ht.
  destruct (Z.leb_spec 0 z), (Z.leb_spec z 255); try lia. reflexivity.
Qed.

Lemma to_uint8_unit cv f : in_unit f = true -> F64.to_uint8 cv (F64.min f 255) = 0.
Proof.
  unfold in_unit. intros [H0 H1]%andb_true_iff.
  destruct (trunc_unit_interval f H0 H1) as [-> Ht].
  apply to_uint8_trunc; [exact Ht | lia].
Qed.

(** A product greater than zero has non-zero factors. *)
Lemma mul_pos_left r s :
  (0 <? r * s)%float = true ->
  match Prim2SF r with S754_zero _ | S754_nan => False | _ => True end.
Proof.
  rewrite pos_lt_spec, FloatAxioms.mul_spec.
  destruct (Prim2SF r) as [[|]|[|]| |[|] m e], (Prim2SF s) as [[|]|[|]| |[|] m' e'];
    try discriminate; intros _; exact I.
Qed.

Lemma magnitude_positive x :
  magnitude x = true ->
  match x with S754_zero _ | S754_nan => False | _ => True end ->
  positive_sf x = true.
Proof. destruct x as [[|]|[|]| |[|] m e]; try discriminate; try contradiction; reflexivity. Qed.

Lemma positive_magnitude x : positive_sf x = true -> magnitude x = true /\ x <> S754_nan.
Proof. destruct x as [[|]|[|]| |[|] m e]; try discriminate; split; try reflexivity; discriminate. Qed.

Lemma positive_sum r a :
  positive_sf (Prim2SF r) = true -> magnitude (Prim2SF a) = true -> is_nan a = false ->
  positive_sf (Prim2SF (r + a)%float) = true.
Proof.
  intros Hr Ha Hn. rewrite FloatAxioms.add_spec.
  apply positive_add; try apply Prim2SF_valid; try assumption.
  rewrite is_nan_spec in Hn. destruct (Prim2SF a); try discriminate; congruence.
Qed.

Lemma div3_nonzero x :
  match Prim2SF (x / 3)%float with S754_zero _ | S754_nan => False | _ => True end ->
  match Prim2SF x with S754_zero _ | S754_nan => False | _ => True end.
Proof.
  rewrite FloatAxioms.div_spec.
  change (Prim2SF 3) with (S754_finite false 6755399441055744 (-51)).
  destruct (Prim2SF x) as [[|]|[|]| |[|] m e]; intros H; try exact I; exact H.
Qed.

(** C10, as amended: in "color" and "gray" modes a rendered channel is
    [uint8(min(d * scaleFactor, 255))], with [d] the channel difference
    ("color") or the computed average [(rDiff + gDiff + bDiff) / 3]
    ("gray"); this is the integer truncation of [min(d * scaleFactor, 255)]
    whenever that truncation lies in 0..255, which is the case for every
    product that is at least 0. Consequently a pixel pair whose scaled
    channel differences ("color"), or whose scaled average difference
    ("gray"), lie strictly between 0 and 1 is written as [{0,0,0,255}] and,
    its alpha difference being a number, is counted in [diffCount]. *)
Theorem scaled_difference_rendering cv :
  (forall scaleFactor rDiff gDiff bDiff,
     render cv "color" scaleFactor rDiff gDiff bDiff
     = mkRGBA (F64.to_uint8 cv (F64.min (rDiff * scaleFactor) 255))
              (F64.to_uint8 cv (F64.min (gDiff * scaleFactor) 255))
              (F64.to_uint8 cv (F64.min (bDiff * scaleFactor) 255)) 255 /\
     render cv "gray" scaleFactor rDiff gDiff bDiff
     = let gray :=
         F64.to_uint8 cv (F64.min ((rDiff + gDiff + bDiff) / 3 * scaleFactor) 255) in
       mkRGBA gray gray gray 255) /\
  (forall x z, F64.trunc (F64.min x 255) = Some z -> 0 <= z <= 255 ->
     F64.to_uint8 cv (F64.min x 255) = z) /\
  (forall x, (0 <=? x)%float = true ->
     exists z, F64.trunc (F64.min x 255) = Some z /\ 0 <= z <= 255) /\
  (forall c1 c2 stats1 stats2 nrm scaleFactor,
     let '(rDiff, gDiff, bDiff, aDiff) := channelDiffs c1 c2 stats1 stats2 nrm in
     in_unit (rDiff * scaleFactor) = true -> in_unit (gDiff * scaleFactor) = true ->
     in_unit (bDiff * scaleFactor) = true -> is_nan aDiff = false ->
     diffPixel cv c1 c2 stats1 stats2 nrm scaleFactor "color"
     = (nonzero_pixel c1, nonzero_pixel c2, true, mkRGBA 0 0 0 255)) /\
  (forall c1 c2 stats1 stats2 nrm scaleFactor,
     let '(rDiff, gDiff, bDiff, aDiff) := channelDiffs c1 c2 stats1 stats2 nrm in
     in_unit ((rDiff + gDiff + bDiff) / 3 * scaleFactor) = true -> is_nan aDiff = false ->
     diffPixel cv c1 c2 stats1 stats2 nrm scaleFactor "gray"
     = (nonzero_pixel c1, nonzero_pixel c2, true, mkRGBA 0 0 0 255)).
Proof.
  split; [intros; split; reflexivity|].
  split; [intros x z; apply to_uint8_trunc|].
  split; [exact trunc_nonneg|].
  split.
  - intros c1 c2 stats1 stats2 nrm s.
    pose proof (channelDiffs_magnitude c1 c2 stats1 stats2 nrm) as Hm.
    unfold diffPixel.
    destruct (channelDiffs c1 c2 stats1 stats2 nrm) as [[[rD gD] bD] aD].
    destruct Hm as (Hr & Hg & Hb & Ha). intros Ur Ug Ub Hnan.
    unfold render. cbn [String.eqb Ascii.eqb Bool.eqb].
    rewrite !to_uint8_unit by assumption.
    do 2 f_equal. rewrite pos_lt_spec.
    unfold in_unit in Ur, Ug, Ub.
    apply andb_true_iff in Ur as [Ur _], Ug as [Ug _], Ub as [Ub _].
    apply mul_pos_left in Ur, Ug, Ub.
    pose proof (magnitude_positive _ Hr Ur) as Pr.
    pose proof (magnitude_positive _ Hg Ug) as Pg.
    pose proof (magnitude_positive _ Hb Ub) as Pb.
    assert (Ng : is_nan gD = false)
      by (rewrite is_nan_spec; destruct (Prim2SF gD); try reflexivity; discriminate).
    assert (Nb : is_nan bD = false)
      by (rewrite is_nan_spec; destruct (Prim2SF bD); try reflexivity; discriminate).
    repeat apply positive_sum; assumption.
  - intros c1 c2 stats1 stats2 nrm s.
    pose proof (channelDiffs_magnitude c1 c2 stats1 stats2 nrm) as Hm.
    unfold diffPixel.
    destruct (channelDiffs c1 c2 stats1 stats2 nrm) as [[[rD gD] bD] aD].
    destruct Hm as (Hr & Hg & Hb & Ha). intros Ua Hnan.
    unfold render. cbn [String.eqb Ascii.eqb Bool.eqb].
    rewrite !to_uint8_unit by assumption.
    do 2 f_equal. rewrite pos_lt_spec.
    unfold in_unit in Ua. apply andb_true_iff in Ua as [Ua _].
    apply mul_pos_left, div3_nonzero in Ua.
    assert (Hsum : magnitude (Prim2SF (rD + gD + bD)%float) = true).
    { rewrite !FloatAxioms.add_spec. repeat apply magnitude_add; assumption. }
    apply positive_sum; [|assumption..].
    apply magnitude_positive; assumption.
Qed.

Lemma scaled_difference_rendering_witness :
  let c1 := mkColor16 0 0 0 65535 in
  let c2 := mkColor16 13 13 13 65535 in
  let s := 0x1.3c4ec4ec4ec4ep+4%float in
  let '(rDiff, gDiff, bDiff, aDiff) := channelDiffs c1 c2 zero_stats zero_stats false in
  in_unit (rDiff * s) = true /\ in_unit (gDiff * s) = true /\
  in_unit (bDiff * s) = true /\ is_nan aDiff = false /\
  diffPixel sample_conv c1 c2 zero_stats zero_stats false s "color"
  = (nonzero_pixel c1, nonzero_pixel c2, true, mkRGBA 0 0 0 255).
Proof.
  cbv zeta.
  pose proof (proj1 (proj2 (proj2 (proj2 (scaled_difference_rendering sample_conv))))
                (mkColor16 0 0 0 65535) (mkColor16 13 13 13 65535)
                zero_stats zero_stats false 0x1.3c4ec4ec4ec4ep+4%float) as H.
  destruct (channelDiffs (mkColor16 0 0 0 65535) (mkColor16 13 13 13 65535)
              zero_stats zero_stats false) as [[[rD gD] bD] aD] eqn:E.
  vm_compute in E. injection E as <- <- <- <-.
  assert (U : in_unit (0x1.9e619e619e61ap-5 * 0x1.3c4ec4ec4ec4ep+4) = true)
    by (vm_compute; reflexivity).
  assert (N : is_nan 0 = false) by (vm_compute; reflexivity).
  repeat (split; [assumption|]).
  exact (H U U U N).
Defined.

(** C10 as stated fails in two ways. With the scale factor -2 the product
    for a channel difference of 20 is -40, which no [uint8] channel holds.
    In "gray" mode, for the 16-bit channel values 0 and 13 and the scale
    factor 19.769230769230766, every scaled channel difference is
    0.99999999999999989, yet the computed average of the three equal
    differences is one unit in the last place larger, its product with the
    scale factor is 1, and the pixel written is [{1,1,1,255}]. *)
Lemma rendering_is_not_truncation :
  (channelDiffs (RGBA_RGBA (mkRGBA 100 150 200 255)) (RGBA_RGBA (mkRGBA 120 170 220 255))
     zero_stats zero_stats false = (20, 20, 20, 0)%float /\
   F64.trunc (F64.min (20 * -2) 255) = Some (-40) /\
   forall cv, 0 <= R (render cv "color" (-2) 20 20 20) <= 255) /\
  (let c1 := mkColor16 0 0 0 65535 in
   let c2 := mkColor16 13 13 13 65535 in
   let s := 0x1.3c4ec4ec4ec4ep+4%float in
   let '(rDiff, gDiff, bDiff, aDiff) := channelDiffs c1 c2 zero_stats zero_stats false in
   in_unit (rDiff * s) = true /\ in_unit (gDiff * s) = true /\
   in_unit (bDiff * s) = true /\
   forall cv, diffPixel cv c1 c2 zero_stats zero_stats false s "gray"
              = (true, true, true, mkRGBA 1 1 1 255)).
Proof.
  split.
  - split; [vm_compute; reflexivity|]. split; [vm_compute; reflexivity|].
    intros cv. unfold render. cbn [String.eqb Ascii.eqb Bool.eqb R].
    unfold F64.to_uint8.
    replace (F64.trunc (F64.min (20 * -2) 255)) with (Some (-40))
      by (vm_compute; reflexivity).
    cbn [Z.leb Z.compare andb].
    pose proof (Z.mod_pos_bound (F64.unrep_uint8 cv (F64.min (20 * -2) 255)) 256). lia.
  - cbv zeta.
    destruct (channelDiffs (mkColor16 0 0 0 65535) (mkColor16 13 13 13 65535)
                zero_stats zero_stats false) as [[[rD gD] bD] aD] eqn:E.
    vm_compute in E. injection E as <- <- <- <-.
    repeat split; try (vm_compute; reflexivity).
Qed.

(** ** float64: integers below [2^53] *)

Lemma digits2_le_53 p : Z.pos p < 2 ^ 53 -> Z.pos (digits2_pos p) <= 53.
Proof.
  intros H. pose proof (digits2_bounds p) as [Hlo _].
  destruct (Z_le_gt_dec (Z.pos (digits2_pos p)) 53) as [|Hgt]; [assumption|].
  assert (2 ^ 53 <= 2 ^ (Z.pos (digits2_pos p) - 1)) by (apply Z.pow_le_mono_r; lia). lia.
Qed.

Lemma binary_normalize_nat n :
  0 <= n < 2 ^ 53 -> binary_normalize prec emax n 0 false = canonZ n.
Proof.
  intros Hn. destruct n as [|p|p]; try lia; [reflexivity|].
  pose proof (digits2_le_53 p ltac:(lia)) as Hd.
  cbn [binary_normalize canonZ]. unfold binary_round.
  rewrite Z.add_0_r, fexp_normal by lia.
  pose proof (shl_align_spec p 0 (Z.pos (digits2_pos p) - 53)) as (Hm & _ & He).
  destruct (shl_align p 0 (Z.pos (digits2_pos p) - 53)) as [mz ez]. cbn [fst snd] in *.
  rewrite He in * by lia. rewrite Hm.
  replace (Z.pos (digits2_pos p) - 53) with (- (53 - Z.pos (digits2_pos p))) by lia.
  replace (0 - - (53 - Z.pos (digits2_pos p))) with (53 - Z.pos (digits2_pos p)) by lia.
  apply binary_round_aux_int; lia.
Qed.

Lemma Prim2SF_of_uint n : 0 <= n < 2 ^ 53 -> Prim2SF (F64.of_uint n) = canonZ n.
Proof.
  intros Hn. unfold F64.of_uint. rewrite of_uint63_spec, Uint63.of_Z_spec.
  rewrite Z.mod_small.
  - apply binary_normalize_nat, Hn.
  - change wB with (2 ^ 63). assert (2 ^ 53 < 2 ^ 63) by reflexivity. lia.
Qed.

(** The mantissa of [canon]. *)
Lemma canon_mantissa p :
  Z.pos (digits2_pos p) <= 53 ->
  Z.pos (Z.to_pos (Z.pos p * 2 ^ (53 - Z.pos (digits2_pos p))))
  = Z.pos p * 2 ^ (53 - Z.pos (digits2_pos p)) /\
  Z.pos (digits2_pos (Z.to_pos (Z.pos p * 2 ^ (53 - Z.pos (digits2_pos p))))) = 53.
Proof.
  intros Hd.
  assert (0 < 2 ^ (53 - Z.pos (digits2_pos p))) by (apply Z.pow_pos_nonneg; lia).
  assert (E : Z.pos (Z.to_pos (Z.pos p * 2 ^ (53 - Z.pos (digits2_pos p))))
              = Z.pos p * 2 ^ (53 - Z.pos (digits2_pos p))) by (apply Z2Pos.id; nia).
  split; [exact E|].
  rewrite (digits2_shift p _ (53 - Z.pos (digits2_pos p))) by (first [lia | exact E]). lia.
Qed.

(** Adding two naturals whose sum is below [2^53] is exact. *)
Lemma canonZ_add a b :
  0 <= a -> 0 <= b -> a + b < 2 ^ 53 ->
  SF64add (canonZ a) (canonZ b) = canonZ (a + b).
Proof.
  intros Ha Hb Hab.
  destruct a as [|p|p], b as [|q|q]; try lia; try reflexivity.
  pose proof (digits2_le_53 p ltac:(lia)) as Hdp.
  pose proof (digits2_le_53 q ltac:(lia)) as Hdq.
  pose proof (digits2_le_53 (p + q) ltac:(lia)) as Hdpq.
  pose proof (digits2_mono p (p + q) ltac:(lia)) as Hmp.
  pose proof (digits2_mono q (p + q) ltac:(lia)) as Hmq.
  destruct (canon_mantissa p Hdp) as [Ep _]. destruct (canon_mantissa q Hdq) as [Eq _].
  change (Z.pos p + Z.pos q) with (Z.pos (p + q)).
  cbn [canonZ]. unfold canon at 1 2. unfold SF64add, SFadd. cbn [cond_Zopp].
  set (dp := Z.pos (digits2_pos p)) in *. set (dq := Z.pos (digits2_pos q)) in *.
  set (ez := Z.min (dp - 53) (dq - 53)).
  pose proof (shl_align_spec (Z.to_pos (Z.pos p * 2 ^ (53 - dp))) (dp - 53) ez) as (Ma & _ & Ea).
  pose proof (shl_align_spec (Z.to_pos (Z.pos q * 2 ^ (53 - dq))) (dq - 53) ez) as (Mb & _ & Eb).
  rewrite Ea in Ma by (subst ez; lia). rewrite Eb in Mb by (subst ez; lia).
  rewrite Ep in Ma. rewrite Eq in Mb.
  rewrite Ma, Mb.
  rewrite <- !Z.mul_assoc, <- !Z.pow_add_r by (subst ez; lia).
  replace (53 - dp + (dp - 53 - ez)) with (- ez) by lia.
  replace (53 - dq + (dq - 53 - ez)) with (- ez) by lia.
  rewrite <- Z.mul_add_distr_r. change (Z.pos p + Z.pos q) with (Z.pos (p + q)).
  assert (Hpos : 0 < 2 ^ (- ez)) by (apply Z.pow_pos_nonneg; subst ez; lia).
  destruct (Z.pos (p + q) * 2 ^ (- ez)) as [|m|m] eqn:Em; try nia.
  cbn [binary_normalize]. unfold binary_round.
  pose proof (digits2_shift (p + q) m (- ez) ltac:(subst ez; lia) (eq_sym Em)) as Hdm.
  rewrite Hdm. replace (Z.pos (digits2_pos (p + q)) + - ez + ez)
    with (Z.pos (digits2_pos (p + q))) by lia.
  rewrite fexp_normal by lia.
  clear Ma Mb Ea Eb. unfold shl_align.
  destruct (Z.pos (digits2_pos (p + q)) - 53 - ez) as [|k|k] eqn:Ek; try (subst ez; lia).
  - rewrite <- Em. replace ez with (- - ez) at 2 by lia.
    apply binary_round_aux_int; subst ez; lia.
  - rewrite <- Em. replace ez with (- - ez) at 2 by lia.
    apply binary_round_aux_int; subst ez; lia.
Qed.

Lemma digits2_mul p q :
  Z.pos (digits2_pos (p * q)) <= Z.pos (digits2_pos p) + Z.pos (digits2_pos q).
Proof.
  pose proof (digits2_bounds p) as [_ Hp]. pose proof (digits2_bounds q) as [_ Hq].
  pose proof (digits2_bounds (p * q)) as [Hpq _].
  set (dp := Z.pos (digits2_pos p)) in *. set (dq := Z.pos (digits2_pos q)) in *.
  set (d := Z.pos (digits2_pos (p * q))) in *.
  destruct (Z_le_gt_dec d (dp + dq)) as [H|H]; [exact H|].
  assert (2 ^ (dp + dq) <= 2 ^ (d - 1)) by (apply Z.pow_le_mono_r; lia).
  rewrite Z.pow_add_r in * by lia.
  change (Z.pos (p * q)) with (Z.pos p * Z.pos q) in Hpq. nia.
Qed.

Lemma div_eucl_exact a b q : 0 < b -> a = q * b -> Z.div_eucl a b = (q, 0).
Proof.
  intros Hb ->. pose proof (Z.div_mul q b ltac:(lia)) as Hq.
  pose proof (Z.mod_mul q b ltac:(lia)) as Hr.
  unfold Z.div, Z.modulo in *. destruct (Z.div_eucl (q * b) b). congruence.
Qed.

(** Dividing a multiple of [n] by [n] is exact. *)
Lemma canonZ_div n r :
  0 < n -> 0 <= r -> n * r < 2 ^ 53 ->
  SF64div (canonZ (n * r)) (canonZ n) = canonZ r.
Proof.
  intros Hn Hr Hnr.
  destruct n as [|pn|pn]; try lia. destruct r as [|pr|pr]; try lia.
  { rewrite Z.mul_0_r. reflexivity. }
  change (Z.pos pn * Z.pos pr) with (Z.pos (pn * pr)) in *.
  assert (Hn53 : Z.pos pn < 2 ^ 53).
  { change (Z.pos (pn * pr)) with (Z.pos pn * Z.pos pr) in Hnr. nia. }
  assert (Hr53 : Z.pos pr < 2 ^ 53).
  { change (Z.pos (pn * pr)) with (Z.pos pn * Z.pos pr) in Hnr. nia. }
  pose proof (digits2_le_53 _ Hnr) as Hda. pose proof (digits2_le_53 _ Hn53) as Hdn.
  pose proof (digits2_le_53 _ Hr53) as Hdr.
  pose proof (digits2_mul pn pr) as Hmul.
  assert (Hmn : Z.pos (digits2_pos pn) <= Z.pos (digits2_pos (pn * pr))).
  { apply digits2_mono. change (Z.pos (pn * pr)) with (Z.pos pn * Z.pos pr). nia. }
  destruct (canon_mantissa _ Hda) as [Ea Da]. destruct (canon_mantissa _ Hdn) as [En Dn].
  cbn [canonZ]. unfold canon at 1 2. unfold SF64div, SFdiv, SFdiv_core_binary.
  cbn [xorb Zdigits2]. rewrite Da, Dn.
  set (da := Z.pos (digits2_pos (pn * pr))) in *. set (dn := Z.pos (digits2_pos pn)) in *.
  set (dr := Z.pos (digits2_pos pr)) in *.
  replace (53 + (da - 53) - (53 + (dn - 53))) with (da - dn) by lia.
  rewrite fexp_normal by lia.
  replace (IntDef.Z.min (da - dn - 53) (da - 53 - (dn - 53))) with (da - dn - 53)
    by (change IntDef.Z.min with Z.min; lia).
  replace (da - 53 - (dn - 53) - (da - dn - 53)) with 53 by lia.
  change (IntDef.Z.shiftl ?x 53) with (Z.shiftl x 53).
  rewrite Z.shiftl_mul_pow2 by lia. rewrite Ea.
  change IntDef.Z.div_eucl with Z.div_eucl.
  rewrite (div_eucl_exact _ _ (Z.pos pr * 2 ^ (53 - da + dn))).
  - replace (new_location _ 0) with loc_Exact
      by (unfold new_location, new_location_even, new_location_odd;
          destruct (IntDef.Z.even _); reflexivity).
    replace (da - dn - 53) with (- (53 - da + dn)) by lia.
    apply binary_round_aux_int; lia.
  - lia.
  - rewrite En. change (Z.pos (pn * pr)) with (Z.pos pn * Z.pos pr).
    replace (53 - da + dn) with ((53 - da) + dn) by lia.
    replace 53 with (dn + (53 - dn)) at 2 by lia.
    rewrite !Z.pow_add_r by lia. ring.
Qed.

(** A natural below [2^53] minus itself. *)
Lemma canonZ_sub_diag n : SF64sub (canonZ n) (canonZ n) = S754_zero false.
Proof.
  destruct n as [|p|p]; try reflexivity.
  cbn [canonZ]. unfold canon, SF64sub, SFsub. cbn [cond_Zopp].
  rewrite Z.sub_diag. reflexivity.
Qed.

Lemma of_uint_add a b :
  0 <= a -> 0 <= b -> a + b < 2 ^ 53 ->
  (F64.of_uint a + F64.of_uint b)%float = F64.of_uint (a + b).
Proof.
  intros Ha Hb Hab. apply FloatAxioms.Prim2SF_inj.
  rewrite FloatAxioms.add_spec, !Prim2SF_of_uint by lia. apply canonZ_add; assumption.
Qed.

Lemma of_uint_div n r :
  0 < n < 2 ^ 53 -> 0 <= r -> n * r < 2 ^ 53 ->
  (F64.of_uint (n * r) / F64.of_uint n)%float = F64.of_uint r.
Proof.
  intros Hn Hr Hnr. apply FloatAxioms.Prim2SF_inj.
  rewrite FloatAxioms.div_spec, !Prim2SF_of_uint by nia. apply canonZ_div; lia.
Qed.

Lemma of_uint_sub_diag n :
  0 <= n < 2 ^ 53 -> (F64.of_uint n - F64.of_uint n)%float = 0%float.
Proof.
  intros Hn. apply FloatAxioms.Prim2SF_inj.
  rewrite FloatAxioms.sub_spec, !Prim2SF_of_uint by lia. apply canonZ_sub_diag.
Qed.

Lemma zero_div_of_uint n :
  0 < n < 2 ^ 53 -> (0 / F64.of_uint n)%float = 0%float.
Proof.
  intros Hn. apply FloatAxioms.Prim2SF_inj.
  rewrite FloatAxioms.div_spec, Prim2SF_of_uint by lia.
  destruct n as [|p|p]; try lia. reflexivity.
Qed.

(** ** calculateImageStats *)

Lemma rect_loops_fold {St : Type} (body : Z -> Z -> St -> St) b s :
  for_lt (Y (Min b)) (Y (Max b)) (fun y s =>
    for_lt (X (Min b)) (X (Max b)) (fun x s => body x y s) s) s
  = fold_left (fun s p => body p.1 p.2 s) (pixels (whole b)) s.
Proof. exact (chunk_loops_fold body (whole b) s). Qed.

(** Four running sums kept in one loop are four separate sums. *)
Lemma fold_left_sum4 {A : Type} (f1 f2 f3 f4 : A -> float) l : forall a b c d,
  fold_left (fun s p =>
      let '(a, b, c, d) := s in (a + f1 p, b + f2 p, c + f3 p, d + f4 p)%float) l
    (a, b, c, d)
  = (fold_left PrimFloat.add (map f1 l) a, fold_left PrimFloat.add (map f2 l) b,
     fold_left PrimFloat.add (map f3 l) c, fold_left PrimFloat.add (map f4 l) d).
Proof.
  induction l as [|p l IH]; intros a b c d; [reflexivity|].
  cbn [fold_left map]. apply IH.
Qed.

Lemma length_bind_const {A B : Type} (f : A -> list B) m l :
  (forall a, length (f a) = m) -> length (l ≫= f) = (length l * m)%nat.
Proof.
  intros Hf. induction l as [|a l IH]; [reflexivity|].
  change ((a :: l) ≫= f) with (f a ++ (l ≫= f)).
  rewrite length_app, IH, Hf. cbn [length]. lia.
Qed.

Lemma length_pixels c :
  startX c <= endX c -> startY c <= endY c ->
  Z.of_nat (length (pixels c)) = (endX c - startX c) * (endY c - startY c).
Proof.
  intros Hx Hy. unfold pixels.
  rewrite (length_bind_const _ (Z.to_nat (endX c - startX c))).
  - rewrite length_seqZ, Nat2Z.inj_mul, !Z2Nat.id by lia. ring.
  - intros y. rewrite (length_bind_const _ 1%nat) by reflexivity.
    rewrite length_seqZ. lia.
Qed.

(** [count] is the number of pixels. *)
Lemma count_pixels_rect b :
  int_rect b -> well_formed b -> positive_area b -> Dx b * Dy b <= GoInt.max_int ->
  GoInt.mul (Dx b) (Dy b) = Z.of_nat (length (pixels (whole b))) /\
  Z.of_nat (length (pixels (whole b))) = Dx b * Dy b.
Proof.
  intros Hint Hwf [Hdx Hdy] Hmax.
  pose proof (Dx_exact b Hint Hwf Hdx) as Ex. pose proof (Dy_exact b Hint Hwf Hdy) as Ey.
  destruct Hwf as [Hwx Hwy].
  rewrite length_pixels by assumption. cbn [whole startX endX startY endY].
  rewrite <- Ex, <- Ey. split; [|reflexivity].
  unfold GoInt.mul. apply wrap64_id. unfold GoInt.is_int, GoInt.min_int, GoInt.max_int in *. nia.
Qed.

Lemma of_int_nonneg n : 0 <= n -> F64.of_int n = F64.of_uint n.
Proof. intros Hn. unfold F64.of_int. destruct (Z.ltb_spec n 0); [lia|reflexivity]. Qed.

(** [calculateImageStats] computes the mean and the population standard
    deviation of every channel. *)
Lemma calculateImageStats_population img :
  int_rect (Bounds img) -> well_formed (Bounds img) -> positive_area (Bounds img) ->
  Dx (Bounds img) * Dy (Bounds img) <= GoInt.max_int ->
  calculateImageStats img
  = mkStats (population_mean (channel r16 img)) (population_mean (channel g16 img))
      (population_mean (channel b16 img)) (population_mean (channel a16 img))
      (population_std (channel r16 img)) (population_std (channel g16 img))
      (population_std (channel b16 img)) (population_std (channel a16 img)).
Proof.
  intros Hint Hwf Hpos Hmax.
  destruct (count_pixels_rect _ Hint Hwf Hpos Hmax) as [Hcount Hlen].
  unfold calculateImageStats. cbv zeta.
  rewrite Hcount, of_int_nonneg by lia.
  rewrite (rect_loops_fold (fun x y '(sumR, sumG, sumB, sumA) =>
     (sumR + chan (r16 (At img x y)), sumG + chan (g16 (At img x y)),
      sumB + chan (b16 (At img x y)), sumA + chan (a16 (At img x y)))%float)).
  cbv beta.
  rewrite (fold_left_sum4 (fun p => chan (r16 (At img p.1 p.2)))
    (fun p => chan (g16 (At img p.1 p.2))) (fun p => chan (b16 (At img p.1 p.2)))
    (fun p => chan (a16 (At img p.1 p.2)))).
  cbv iota beta.
  set (n := F64.of_uint (Z.of_nat (length (pixels (whole (Bounds img)))))).
  set (mR := (fold_left PrimFloat.add (map (fun p => chan (r16 (At img p.1 p.2))) _) _ / n)%float).
  set (mG := (fold_left PrimFloat.add (map (fun p => chan (g16 (At img p.1 p.2))) _) _ / n)%float).
  set (mB := (fold_left PrimFloat.add (map (fun p => chan (b16 (At img p.1 p.2))) _) _ / n)%float).
  set (mA := (fold_left PrimFloat.add (map (fun p => chan (a16 (At img p.1 p.2))) _) _ / n)%float).
  rewrite (rect_loops_fold (fun x y '(sqR, sqG, sqB, sqA) =>
     (sqR + (chan (r16 (At img x y)) - mR) * (chan (r16 (At img x y)) - mR),
      sqG + (chan (g16 (At img x y)) - mG) * (chan (g16 (At img x y)) - mG),
      sqB + (chan (b16 (At img x y)) - mB) * (chan (b16 (At img x y)) - mB),
      sqA + (chan (a16 (At img x y)) - mA) * (chan (a16 (At img x y)) - mA))%float)).
  cbv beta.
  rewrite (fold_left_sum4
    (fun p => ((chan (r16 (At img p.1 p.2)) - mR) * (chan (r16 (At img p.1 p.2)) - mR))%float)
    (fun p => ((chan (g16 (At img p.1 p.2)) - mG) * (chan (g16 (At img p.1 p.2)) - mG))%float)
    (fun p => ((chan (b16 (At img p.1 p.2)) - mB) * (chan (b16 (At img p.1 p.2)) - mB))%float)
    (fun p => ((chan (a16 (At img p.1 p.2)) - mA) * (chan (a16 (At img p.1 p.2)) - mA))%float)).
  cbv iota beta.
  unfold population_std, population_mean, fsum, fcount, channel.
  rewrite !map_map, !length_map. reflexivity.
Qed.

(** ** Constant channels *)

Lemma widen_257 v : 0 <= v < 256 -> widen v = 257 * v.
Proof.
  intros Hv.
  assert (H : forallb (fun v => widen v =? 257 * v) (seqZ 0 256) = true)
    by (vm_compute; reflexivity).
  rewrite forallb_forall in H. apply Z.eqb_eq, H, list_elem_of_In, elem_of_seqZ. lia.
Qed.

(** An 8-bit channel value comes back from its 16-bit form exactly. *)
Lemma chan_widen v : 0 <= v < 256 -> chan (widen v) = F64.of_uint v.
Proof.
  intros Hv. unfold chan. rewrite widen_257 by assumption.
  replace 257%float with (F64.of_uint 257) by (vm_compute; reflexivity).
  assert (2 ^ 16 < 2 ^ 53) by reflexivity.
  apply of_uint_div; lia.
Qed.

Lemma fsum_from_const v vs : forall k,
  Forall (eq (F64.of_uint v)) vs -> 0 <= v -> 0 <= k ->
  (k + Z.of_nat (length vs)) * v < 2 ^ 53 ->
  fold_left PrimFloat.add vs (F64.of_uint (k * v))
  = F64.of_uint ((k + Z.of_nat (length vs)) * v).
Proof.
  induction vs as [|x vs IH]; intros k Hall Hv Hk Hb.
  - cbn [length fold_left]. f_equal. lia.
  - inversion Hall as [|? ? <- Hall']; subst. cbn [fold_left].
    rewrite length_cons, Nat2Z.inj_succ in Hb |- *.
    rewrite of_uint_add by nia.
    replace (k * v + v) with ((k + 1) * v) by ring.
    rewrite IH by (first [assumption | lia | (replace (k + 1 + Z.of_nat (length vs))
      with (k + Z.succ (Z.of_nat (length vs))) by lia; exact Hb)]).
    f_equal. ring.
Qed.

Lemma fsum_zeros vs : Forall (eq 0%float) vs -> fsum vs = 0%float.
Proof.
  unfold fsum. induction 1 as [|x vs <- _ IH]; [reflexivity|].
  cbn [fold_left]. exact IH.
Qed.

(** The statistics of a list of equal 8-bit values. *)
Lemma population_const v vs :
  Forall (eq (F64.of_uint v)) vs -> 0 <= v < 256 ->
  0 < Z.of_nat (length vs) -> 255 * Z.of_nat (length vs) < 2 ^ 53 ->
  population_mean vs = F64.of_uint v /\ population_std vs = 0%float.
Proof.
  intros Hall Hv Hn Hb.
  assert (Hmean : population_mean vs = F64.of_uint v).
  { unfold population_mean, fsum, fcount.
    change 0%float with (F64.of_uint (0 * v)).
    rewrite fsum_from_const by (first [assumption | nia]).
    rewrite Z.add_0_l. apply of_uint_div; nia. }
  split; [exact Hmean|].
  unfold population_std. cbv zeta. rewrite Hmean, fsum_zeros.
  - unfold fcount. rewrite zero_div_of_uint by lia. reflexivity.
  - apply Forall_map. eapply Forall_impl; [exact Hall|].
    intros x <-. cbv beta. rewrite of_uint_sub_diag.
    + reflexivity.
    + assert (2 ^ 8 < 2 ^ 53) by reflexivity. lia.
Qed.

Lemma channel_const ch img v :
  (forall x y, in_chunk x y (whole (Bounds img)) = true -> chan (ch (At img x y)) = v) ->
  Forall (eq v) (channel ch img).
Proof.
  intros H. unfold channel. apply Forall_map, Forall_forall. intros [x y] Hp.
  symmetry. apply H, elem_of_pixels, Hp.
Qed.



(** The "Checkerboard" case of [TestCalculateImageStats]: two pixels at 255
    and two at 0 give the standard deviation 127.5 of a population of four;
    dividing by three instead would give about 147.2. *)
Example checkerboard_stats :
  calculateImageStats (as_Image checkerboard)
  = mkStats 127.5 127.5 127.5 255 127.5 127.5 127.5 0.
Proof. vm_compute. reflexivity. Qed.

(* ================================================================== *)
(** * Further properties of the code *)

(** ** createChunks as an iterator *)

Lemma feed_app {St A : Type} (yield : A -> St -> St * bool) l l' : forall s,
  feed yield (l ++ l') s
  = let '(s', go) := feed yield l s in if go then feed yield l' s' else (s', false).
Proof.
  induction l as [|a l IH]; intros s; [reflexivity|].
  cbn [app feed]. destruct (yield a s) as [s' [|]]; [apply IH|reflexivity].
Qed.

Lemma iterate_brk_feed {St A : Type} (yield : A -> St -> St * bool) (row : Z -> list A)
    body n : forall i s,
  (forall j t, i <= j < i + Z.of_nat n -> body j t = feed yield (row j) t) ->
  iterate_brk n i body s = feed yield (concat (map row (seqZ i (Z.of_nat n)))) s.
Proof.
  induction n as [|n IH]; intros i s Hbody; [reflexivity|].
  rewrite seqZ_cons by lia. cbn [iterate_brk map concat].
  rewrite feed_app, Hbody by lia.
  destruct (feed yield (row i) s) as [s' [|]]; [|reflexivity].
  replace (Z.pred (Z.of_nat (S n))) with (Z.of_nat n) by lia.
  replace (Z.succ i) with (i + 1) by lia.
  apply IH. intros j t Hj. apply Hbody. lia.
Qed.

Lemma for_lt_brk_feed {St A : Type} (yield : A -> St -> St * bool) (row : Z -> list A)
    body lo hi s :
  (forall j t, lo <= j < hi -> body j t = feed yield (row j) t) ->
  for_lt_brk lo hi body s = feed yield (concat (map row (seqZ lo (hi - lo)))) s.
Proof.
  intros Hbody. unfold for_lt_brk.
  destruct (Z_le_gt_dec lo hi).
  - rewrite (iterate_brk_feed yield row) by (intros; apply Hbody; lia).
    rewrite Z2Nat.id by lia. reflexivity.
  - replace (Z.to_nat (hi - lo)) with 0%nat by lia.
    rewrite (seqZ_nil lo (hi - lo)) by lia. reflexivity.
Qed.

(** The chunk the loop body builds at row [i] and column [j] of a grid that
    fits the bounds. *)
Lemma createChunks_body b nx ny i j :
  int_rect b -> well_formed b -> positive_area b ->
  1 <= nx -> GoInt.is_int nx -> 1 <= ny -> GoInt.is_int ny ->
  0 <= i < ny -> 0 <= j < nx ->
  mkChunk (GoInt.add (X (Min b)) (GoInt.mul j ((X (Max b) - X (Min b)) / nx)))
    (if j =? GoInt.sub nx 1 then X (Max b)
     else GoInt.add (GoInt.add (X (Min b)) (GoInt.mul j ((X (Max b) - X (Min b)) / nx)))
            ((X (Max b) - X (Min b)) / nx))
    (GoInt.add (Y (Min b)) (GoInt.mul i ((Y (Max b) - Y (Min b)) / ny)))
    (if i =? GoInt.sub ny 1 then Y (Max b)
     else GoInt.add (GoInt.add (Y (Min b)) (GoInt.mul i ((Y (Max b) - Y (Min b)) / ny)))
            ((Y (Max b) - Y (Min b)) / ny))
  = gridChunk b nx ny i j.
Proof.
  intros Hint Hwf [Hpx Hpy] Hnx Hinx Hny Hiny Hi Hj.
  set (cw := (X (Max b) - X (Min b)) / nx). set (ch := (Y (Max b) - Y (Min b)) / ny).
  pose proof (Dx_exact b Hint Hwf Hpx) as HDx.
  pose proof (Dy_exact b Hint Hwf Hpy) as HDy.
  destruct Hint as (Hx0 & Hy0 & Hx1 & Hy1).
  assert (Hcw : 0 <= cw /\ cw * nx <= X (Max b) - X (Min b)).
  { subst cw. split; [apply Z.div_pos; lia|].
    rewrite Z.mul_comm. apply Z.mul_div_le. lia. }
  assert (Hch : 0 <= ch /\ ch * ny <= Y (Max b) - Y (Min b)).
  { subst ch. split; [apply Z.div_pos; lia|].
    rewrite Z.mul_comm. apply Z.mul_div_le. lia. }
  assert (HwX : X (Max b) - X (Min b) <= GoInt.max_int).
  { rewrite <- HDx. apply wrap64_is_int. }
  assert (HwY : Y (Max b) - Y (Min b) <= GoInt.max_int).
  { rewrite <- HDy. apply wrap64_is_int. }
  unfold gridChunk, GoInt.add, GoInt.mul, GoInt.sub. fold cw ch.
  clearbody cw ch.
  assert (cw <= cw * nx) by nia.
  assert (ch <= ch * ny) by nia.
  assert (0 <= j * cw <= cw * nx) by nia.
  assert (0 <= i * ch <= ch * ny) by nia.
  assert (j * cw + cw <= cw * nx \/ j = nx - 1)
    by (destruct (Z.eq_dec j (nx - 1)); [right; assumption | left; nia]).
  assert (i * ch + ch <= ch * ny \/ i = ny - 1)
    by (destruct (Z.eq_dec i (ny - 1)); [right; assumption | left; nia]).
  rewrite (wrap64_id (j * cw)) by (int_bounds; lia).
  rewrite (wrap64_id (i * ch)) by (int_bounds; lia).
  rewrite (wrap64_id (nx - 1)) by (int_bounds; lia).
  rewrite (wrap64_id (ny - 1)) by (int_bounds; lia).
  rewrite (wrap64_id (X (Min b) + j * cw)) by (int_bounds; lia).
  rewrite (wrap64_id (Y (Min b) + i * ch)) by (int_bounds; lia).
  destruct (Z.eqb_spec j (nx - 1)), (Z.eqb_spec i (ny - 1));
    rewrite ?wrap64_id by (int_bounds; lia); reflexivity.
Qed.

(** X1. createChunks is the iterator over the grid, row by row: whatever the
    consumer, it receives the chunks of the grid in row-major order, one call
    of yield per chunk, and no further call is made once yield has answered
    false. *)
Theorem createChunks_feeds_grid {St : Type} b numChunksX numChunksY
    (yield : Chunk -> St -> St * bool) (s : St) :
  int_rect b -> well_formed b -> positive_area b ->
  1 <= numChunksX -> GoInt.is_int numChunksX ->
  1 <= numChunksY -> GoInt.is_int numChunksY ->
  createChunks b numChunksX numChunksY yield s
  = Some (fst (feed yield (grid b numChunksX numChunksY) s)).
Proof.
  intros Hint Hwf Hpos Hnx Hinx Hny Hiny.
  pose proof (Dx_exact b Hint Hwf (proj1 Hpos)) as HDx.
  pose proof (Dy_exact b Hint Hwf (proj2 Hpos)) as HDy.
  unfold createChunks, GoInt.quo.
  destruct (Z.eqb_spec numChunksX 0) as [?|_]; [lia|].
  destruct (Z.eqb_spec numChunksY 0) as [?|_]; [lia|].
  rewrite HDx, HDy.
  assert (Hpx : 0 < X (Max b) - X (Min b)) by (rewrite <- HDx; apply Hpos).
  assert (Hpy : 0 < Y (Max b) - Y (Min b)) by (rewrite <- HDy; apply Hpos).
  rewrite !Z.quot_div_nonneg by lia.
  assert (Hcw : 0 <= (X (Max b) - X (Min b)) / numChunksX <= X (Max b) - X (Min b)).
  { split; [apply Z.div_pos; lia|]. apply Z.div_le_upper_bound; nia. }
  assert (Hch : 0 <= (Y (Max b) - Y (Min b)) / numChunksY <= Y (Max b) - Y (Min b)).
  { split; [apply Z.div_pos; lia|]. apply Z.div_le_upper_bound; nia. }
  assert (HwX : X (Max b) - X (Min b) <= GoInt.max_int).
  { rewrite <- HDx. apply wrap64_is_int. }
  assert (HwY : Y (Max b) - Y (Min b) <= GoInt.max_int).
  { rewrite <- HDy. apply wrap64_is_int. }
  rewrite (wrap64_id (_ / numChunksX)) by (int_bounds; lia).
  rewrite (wrap64_id (_ / numChunksY)) by (int_bounds; lia).
  f_equal. f_equal.
  rewrite (for_lt_brk_feed yield
             (fun i => j ← seqZ 0 numChunksX; [gridChunk b numChunksX numChunksY i j])).
  - rewrite Z.sub_0_r. unfold grid. rewrite list_bind_concat_map. reflexivity.
  - intros i t Hi.
    rewrite (for_lt_brk_feed yield (fun j => [gridChunk b numChunksX numChunksY i j])).
    + rewrite Z.sub_0_r, list_bind_concat_map. reflexivity.
    + intros j u Hj. cbn [feed].
      rewrite (createChunks_body b numChunksX numChunksY i j) by (first [assumption | lia]).
      destruct (yield _ u) as [u' [|]]; reflexivity.
Qed.

Lemma createChunks_feeds_grid_witness :
  let b := image_Rect 0 0 101 103 in
  int_rect b /\ well_formed b /\ positive_area b /\
  1 <= 2 /\ GoInt.is_int 2 /\
  createChunks b 2 2 (until (fun c => 50 <=? startX c)) []
  = Some [mkChunk 50 101 0 51; mkChunk 0 50 0 51].
Proof.
  cbv zeta. set (b := image_Rect 0 0 101 103).
  assert (Hint : int_rect b) by (repeat split; vm_compute; discriminate).
  assert (Hwf : well_formed b) by (split; vm_compute; discriminate).
  assert (Hpos : positive_area b) by (split; vm_compute; reflexivity).
  assert (H1 : 1 <= 2) by lia.
  assert (H2 : GoInt.is_int 2) by (split; vm_compute; discriminate).
  repeat (split; [assumption|]).
  rewrite (createChunks_feeds_grid b 2 2 _ [] Hint Hwf Hpos H1 H2 H1 H2).
  vm_compute. reflexivity.
Defined.

Lemma iterate_brk_idle {St : Type} (body : Z -> St -> St * bool) n : forall i s,
  (forall j t, body j t = (t, true)) -> iterate_brk n i body s = (s, true).
Proof.
  induction n as [|n IH]; intros i s Hbody; [reflexivity|].
  cbn [iterate_brk]. rewrite Hbody. apply IH, Hbody.
Qed.

(** X2. A grid dimension of zero makes the iterator panic (integer divide by
    zero) before yield is called at all; with a negative dimension, and the
    other one not zero, the loops do not run: yield is never called and the
    iterator returns normally. *)
Theorem createChunks_degenerate_grid {St : Type} b numChunksX numChunksY
    (yield : Chunk -> St -> St * bool) (s : St) :
  (numChunksX = 0 \/ numChunksY = 0 ->
   createChunks b numChunksX numChunksY yield s = None) /\
  (numChunksX <> 0 -> numChunksY <> 0 -> numChunksX < 0 \/ numChunksY < 0 ->
   createChunks b numChunksX numChunksY yield s = Some s).
Proof.
  unfold createChunks, GoInt.quo. split.
  - intros [-> | ->]; [reflexivity|].
    destruct (numChunksX =? 0); reflexivity.
  - intros Hx Hy Hneg.
    destruct (Z.eqb_spec numChunksX 0) as [?|_]; [contradiction|].
    destruct (Z.eqb_spec numChunksY 0) as [?|_]; [contradiction|].
    f_equal. unfold for_lt_brk.
    destruct (Z_lt_le_dec numChunksY 0) as [Hny|Hny].
    + replace (Z.to_nat (numChunksY - 0)) with 0%nat by lia. reflexivity.
    + rewrite iterate_brk_idle; [reflexivity|].
      intros i t. replace (Z.to_nat (numChunksX - 0)) with 0%nat by lia. reflexivity.
Qed.

Lemma length_grid b nx ny :
  0 <= nx -> 0 <= ny -> Z.of_nat (length (grid b nx ny)) = nx * ny.
Proof.
  intros Hnx Hny. unfold grid.
  rewrite (length_bind_const _ (Z.to_nat nx)).
  - rewrite length_seqZ, Nat2Z.inj_mul, !Z2Nat.id by lia. ring.
  - intros i. rewrite (length_bind_const _ 1%nat) by reflexivity.
    rewrite length_seqZ. lia.
Qed.

Lemma elem_of_grid b nx ny c :
  c ∈ grid b nx ny <-> exists i j, 0 <= i < ny /\ 0 <= j < nx /\ c = gridChunk b nx ny i j.
Proof.
  unfold grid. rewrite list_elem_of_bind. split.
  - intros (i & Hc & Hi). apply list_elem_of_bind in Hc as (j & Hc & Hj).
    apply list_elem_of_singleton in Hc. apply elem_of_seqZ in Hi, Hj.
    exists i, j. repeat split; first [lia | assumption].
  - intros (i & j & Hi & Hj & ->). exists i. split; [|apply elem_of_seqZ; lia].
    apply list_elem_of_bind. exists j. split; [|apply elem_of_seqZ; lia].
    apply list_elem_of_singleton. reflexivity.
Qed.

(** X3. A grid of numChunksX by numChunksY chunks that fits the bounds has
    exactly numChunksX * numChunksY chunks, all inside the bounds. Every
    chunk is Dx / numChunksX wide, except those of the last column, which
    also take the remainder Dx mod numChunksX; likewise for the heights. *)
Theorem createChunks_chunk_sizes b numChunksX numChunksY :
  int_rect b -> well_formed b -> positive_area b ->
  1 <= numChunksX -> GoInt.is_int numChunksX ->
  1 <= numChunksY -> GoInt.is_int numChunksY ->
  exists cs,
    chunkList b numChunksX numChunksY = Some cs /\
    Z.of_nat (length cs) = numChunksX * numChunksY /\
    forall c, c ∈ cs ->
      X (Min b) <= startX c /\ endX c <= X (Max b) /\
      Y (Min b) <= startY c /\ endY c <= Y (Max b) /\
      (if endX c =? X (Max b)
       then endX c - startX c = Dx b / numChunksX + Dx b mod numChunksX
       else endX c - startX c = Dx b / numChunksX) /\
      (if endY c =? Y (Max b)
       then endY c - startY c = Dy b / numChunksY + Dy b mod numChunksY
       else endY c - startY c = Dy b / numChunksY).
Proof.
  intros Hint Hwf Hpos Hnx Hinx Hny Hiny.
  exists (grid b numChunksX numChunksY).
  split; [apply chunkList_grid; assumption|].
  split; [apply length_grid; lia|].
  rewrite (Dx_exact b Hint Hwf (proj1 Hpos)), (Dy_exact b Hint Hwf (proj2 Hpos)).
  destruct Hwf as [Hwx Hwy].
  intros c Hc. apply elem_of_grid in Hc as (i & j & Hi & Hj & ->).
  unfold gridChunk. cbn [startX endX startY endY].
  set (W := X (Max b) - X (Min b)). set (H := Y (Max b) - Y (Min b)).
  assert (HW : 0 <= W) by (subst W; lia). assert (HH : 0 <= H) by (subst H; lia).
  pose proof (Z.div_mod W numChunksX ltac:(lia)) as EW.
  pose proof (Z.div_mod H numChunksY ltac:(lia)) as EH.
  pose proof (Z.mod_pos_bound W numChunksX ltac:(lia)) as MW.
  pose proof (Z.mod_pos_bound H numChunksY ltac:(lia)) as MH.
  assert (0 <= W / numChunksX) by (apply Z.div_pos; lia).
  assert (0 <= H / numChunksY) by (apply Z.div_pos; lia).
  set (cw := W / numChunksX) in *. set (ch := H / numChunksY) in *.
  assert (X (Max b) = X (Min b) + W) by (subst W; lia).
  assert (Y (Max b) = Y (Min b) + H) by (subst H; lia).
  destruct (Z.eqb_spec j (numChunksX - 1)) as [Ej|Ej],
           (Z.eqb_spec i (numChunksY - 1)) as [Ei|Ei].
  - rewrite !Z.eqb_refl. subst i j. repeat split; nia.
  - rewrite Z.eqb_refl.
    destruct (Z.eqb_spec (Y (Min b) + i * ch + ch) (Y (Max b))); subst j; repeat split; nia.
  - rewrite Z.eqb_refl.
    destruct (Z.eqb_spec (X (Min b) + j * cw + cw) (X (Max b))); subst i; repeat split; nia.
  - destruct (Z.eqb_spec (X (Min b) + j * cw + cw) (X (Max b))),
             (Z.eqb_spec (Y (Min b) + i * ch + ch) (Y (Max b))); repeat split; nia.
Qed.

Lemma createChunks_chunk_sizes_witness :
  let b := image_Rect 0 0 101 103 in
  int_rect b /\ well_formed b /\ positive_area b /\ 1 <= 3 /\ GoInt.is_int 3 /\
  exists cs,
    chunkList b 3 3 = Some cs /\ Z.of_nat (length cs) = 9 /\
    forall c, c ∈ cs ->
      (if endX c =? 101 then endX c - startX c = 35 else endX c - startX c = 33) /\
      (if endY c =? 103 then endY c - startY c = 35 else endY c - startY c = 34).
Proof.
  cbv zeta. set (b := image_Rect 0 0 101 103).
  assert (Hint : int_rect b) by (repeat split; vm_compute; discriminate).
  assert (Hwf : well_formed b) by (split; vm_compute; discriminate).
  assert (Hpos : positive_area b) by (split; vm_compute; reflexivity).
  assert (H1 : 1 <= 3) by lia.
  assert (H2 : GoInt.is_int 3) by (split; vm_compute; discriminate).
  repeat (split; [assumption|]).
  destruct (createChunks_chunk_sizes b 3 3 Hint Hwf Hpos H1 H2 H1 H2)
    as (cs & Hcs & Hlen & Hsz).
  exists cs. split; [exact Hcs|]. split; [exact Hlen|].
  intros c Hc. destruct (Hsz c Hc) as (_ & _ & _ & _ & HX & HY).
  change (X (Max b)) with 101 in HX. change (Y (Max b)) with 103 in HY.
  change (Dx b) with 101 in HX. change (Dy b) with 103 in HY.
  split; [exact HX|exact HY].
Defined.

(** ** The chunk grid of main *)

Lemma holds_from_spec p n : forall lo j,
  holds_from p lo n = true -> lo <= j < lo + Z.of_nat n -> p j = true.
Proof.
  induction n as [|n IH]; intros lo j H Hj; [lia|].
  cbn [holds_from] in H. apply andb_true_iff in H as [H0 H].
  destruct (Z.eq_dec j lo) as [->|]; [exact H0|].
  apply (IH (lo + 1)); [exact H|lia].
Qed.

Lemma sqrt_exact_cpus : holds_from sqrt_exact 1 (Z.to_nat 65536) = true.
Proof. vm_compute. reflexivity. Qed.

Lemma to_int_sqrt cv n :
  1 <= n <= 65536 -> F64.to_int cv (PrimFloat.sqrt (F64.of_int n)) = Z.sqrt n.
Proof.
  intros Hn.
  pose proof (holds_from_spec _ _ 1 n sqrt_exact_cpus ltac:(lia)) as H.
  unfold sqrt_exact in H. unfold F64.to_int.
  destruct (F64.trunc _) as [z|]; [|discriminate].
  apply Z.eqb_eq in H. subst z.
  pose proof (Z.sqrt_nonneg n). pose proof (Z.sqrt_le_lin n ltac:(lia)).
  destruct (Z.leb_spec GoInt.min_int (Z.sqrt n)), (Z.leb_spec (Z.sqrt n) GoInt.max_int);
    int_bounds; try lia. reflexivity.
Qed.

Lemma quo_nonneg a b :
  0 <= a <= GoInt.max_int -> 0 < b -> GoInt.quo a b = Some (a / b).
Proof.
  intros Ha Hb. unfold GoInt.quo. destruct (Z.eqb_spec b 0); [lia|].
  rewrite Z.quot_div_nonneg by lia. f_equal. apply wrap64_id.
  assert (0 <= a / b <= a) by (split; [apply Z.div_pos; lia|apply Z.div_le_upper_bound; nia]).
  int_bounds. lia.
Qed.

(** The clamp of one grid dimension to the minimum chunk size. *)
Lemma clamp_dimension D n0 :
  0 < D -> 1 <= n0 ->
  let n := if D / n0 <? 32 then Z.quot D 32 else n0 in
  let n := if n <? 1 then 1 else n in
  1 <= n <= D /\ n <= n0 /\ (n = 1 \/ 32 <= D / n) /\ (32 <= D / n0 -> n = n0).
Proof.
  intros HD Hn0. cbv zeta. rewrite Z.quot_div_nonneg by lia.
  pose proof (Z.div_mod D n0 ltac:(lia)) as E0.
  pose proof (Z.mod_pos_bound D n0 ltac:(lia)) as M0.
  pose proof (Z.div_mod D 32 ltac:(lia)) as E32.
  pose proof (Z.mod_pos_bound D 32 ltac:(lia)) as M32.
  destruct (Z.ltb_spec (D / n0) 32) as [Hw|Hw].
  - destruct (Z.ltb_spec (D / 32) 1) as [Hs|Hs].
    + split; [lia|]. split; [lia|]. split; [left; reflexivity|lia].
    + split; [nia|]. split; [nia|]. split; [|lia].
      right. apply Z.div_le_lower_bound; lia.
  - destruct (Z.ltb_spec n0 1); [lia|].
    split; [nia|]. split; [lia|]. split; [right; exact Hw|reflexivity].
Qed.

(** X4. For up to 65536 CPUs and bounds of positive area, main's choice of
    the chunk grid never panics and does not depend on how out-of-range
    conversions behave. The grid has at least one column and one row and no
    more than the image has pixel columns and rows, so no chunk is empty;
    unless a dimension is 1, its chunks are at least minChunkSize = 32 pixels
    long. There are fewer than numCPU + sqrt(numCPU) chunks, and at least
    numCPU when the image is at least 32 * numCPU pixels wide and high. *)
Theorem chooseGrid_fits cv numCPU b :
  1 <= numCPU <= 65536 -> positive_area b ->
  exists numChunksX numChunksY,
    chooseGrid cv numCPU b = Some (numChunksX, numChunksY) /\
    1 <= numChunksX <= Dx b /\ 1 <= numChunksY <= Dy b /\
    (numChunksX = 1 \/ 32 <= Dx b / numChunksX) /\
    (numChunksY = 1 \/ 32 <= Dy b / numChunksY) /\
    numChunksX * numChunksY < numCPU + Z.sqrt numCPU /\
    (32 * numCPU <= Dx b -> 32 * numCPU <= Dy b -> numCPU <= numChunksX * numChunksY).
Proof.
  intros Hn [HDx HDy].
  assert (HiX : Dx b <= GoInt.max_int) by apply wrap64_is_int.
  assert (HiY : Dy b <= GoInt.max_int) by apply wrap64_is_int.
  unfold chooseGrid. rewrite to_int_sqrt by assumption.
  pose proof (Z.sqrt_spec numCPU ltac:(lia)) as Hr.
  pose proof (Z.sqrt_nonneg numCPU) as Hr0.
  set (r := Z.sqrt numCPU) in *.
  assert (Hr1 : 1 <= r).
  { destruct (Z_le_gt_dec 1 r); [assumption|]. assert (r = 0) by lia.
    unfold Z.succ in Hr. nia. }
  assert (Hmax : 65536 < GoInt.max_int) by reflexivity.
  rewrite (quo_nonneg numCPU r) by lia.
  pose proof (Z.div_mod numCPU r ltac:(lia)) as Eq.
  pose proof (Z.mod_pos_bound numCPU r ltac:(lia)) as Mq.
  set (q := numCPU / r) in *. set (m := numCPU mod r) in *.
  unfold Z.succ in Hr.
  assert (Hrq : r <= q).
  { destruct (Z_le_gt_dec r q); [assumption|]. assert (r * q <= r * (r - 1)) by nia. nia. }
  assert (Hq : 1 <= q <= numCPU) by nia.
  unfold GoInt.mul, GoInt.add.
  rewrite (wrap64_id (r * q)) by (int_bounds; nia).
  rewrite (wrap64_id (q + 1)) by (int_bounds; lia).
  set (ny0 := if r * q <? numCPU then q + 1 else q).
  assert (Hny0 : 1 <= ny0 /\ numCPU <= r * ny0 < numCPU + r).
  { subst ny0. destruct (Z.ltb_spec (r * q) numCPU); nia. }
  rewrite (quo_nonneg (Dx b) r), (quo_nonneg (Dy b) ny0) by lia.
  pose proof (clamp_dimension (Dx b) r HDx Hr1) as HX.
  pose proof (clamp_dimension (Dy b) ny0 HDy (proj1 Hny0)) as HY.
  cbv zeta in HX, HY.
  set (nx := if (if Dx b / r <? 32 then Z.quot (Dx b) 32 else r) <? 1 then 1
             else if Dx b / r <? 32 then Z.quot (Dx b) 32 else r) in *.
  set (ny := if (if Dy b / ny0 <? 32 then Z.quot (Dy b) 32 else ny0) <? 1 then 1
             else if Dy b / ny0 <? 32 then Z.quot (Dy b) 32 else ny0) in *.
  destruct HX as (HX1 & HX2 & HX3 & HX4). destruct HY as (HY1 & HY2 & HY3 & HY4).
  exists nx, ny. split; [reflexivity|].
  split; [exact HX1|]. split; [exact HY1|]. split; [exact HX3|]. split; [exact HY3|].
  destruct Hny0 as [Hny1 [Hlow Hup]].
  split.
  { assert (nx * ny <= r * ny0) by (apply Z.mul_le_mono_nonneg; lia). lia. }
  intros HbigX HbigY.
  assert (Hrn : r <= numCPU).
  { assert (r * 1 <= r * r) by (apply Z.mul_le_mono_nonneg_l; lia). lia. }
  assert (Hnyn : ny0 <= numCPU).
  { destruct (Z.eq_dec r 1) as [E1|E1].
    - rewrite E1, Z.mul_1_l in Hup. lia.
    - assert (2 * ny0 <= r * ny0) by (apply Z.mul_le_mono_nonneg_r; lia). lia. }
  assert (32 <= Dx b / r) by (apply Z.div_le_lower_bound; lia).
  assert (32 <= Dy b / ny0) by (apply Z.div_le_lower_bound; lia).
  rewrite HX4, HY4 by assumption. lia.
Qed.

Lemma chooseGrid_fits_witness :
  let b := image_Rect 0 0 640 480 in
  1 <= 8 <= 65536 /\ positive_area b /\
  chooseGrid sample_conv 8 b = Some (2, 4) /\
  exists numChunksX numChunksY,
    chooseGrid sample_conv 8 b = Some (numChunksX, numChunksY) /\
    1 <= numChunksX <= Dx b /\ 1 <= numChunksY <= Dy b.
Proof.
  cbv zeta. set (b := image_Rect 0 0 640 480).
  assert (Hn : 1 <= 8 <= 65536) by lia.
  assert (Hpos : positive_area b) by (split; vm_compute; reflexivity).
  split; [exact Hn|]. split; [exact Hpos|].
  split; [vm_compute; reflexivity|].
  destruct (chooseGrid_fits sample_conv 8 b Hn Hpos) as (nx & ny & H & Hx & Hy & _).
  exists nx, ny. split; [exact H|]. split; [exact Hx|exact Hy].
Defined.

(** ** float64: decided facts about 8-bit values *)

Lemma sf_eqb_eq x y : sf_eqb x y = true -> x = y.
Proof.
  destruct x as [s|s| |s m e], y as [s'|s'| |s' m' e']; cbn [sf_eqb]; try discriminate.
  - intros H. apply Bool.eqb_prop in H. congruence.
  - intros H. apply Bool.eqb_prop in H. congruence.
  - reflexivity.
  - rewrite !andb_true_iff. intros [[H1 H2] H3].
    apply Bool.eqb_prop in H1. apply Pos.eqb_eq in H2. apply Z.eqb_eq in H3. congruence.
Qed.

Lemma same_float_eq x y : same_float x y = true -> x = y.
Proof. intros H. apply FloatAxioms.Prim2SF_inj, sf_eqb_eq, H. Qed.

Lemma holds_uint8_pairs_spec p a b :
  holds_uint8_pairs p = true -> 0 <= a < 256 -> 0 <= b < 256 -> p a b = true.
Proof.
  intros H Ha Hb. unfold holds_uint8_pairs in H.
  apply (holds_from_spec (p a) 256 0 b); [|lia].
  apply (holds_from_spec (fun a => holds_from (p a) 0 256) 256 0 a H). lia.
Qed.

Lemma delta8_checked :
  holds_uint8_pairs (fun a b => same_float (delta8 a b) (F64.of_uint (Z.abs (a - b)))) = true.
Proof. vm_compute. reflexivity. Qed.

(** The difference of two 8-bit channel values is exact. *)
Lemma delta8_exact a b :
  0 <= a < 256 -> 0 <= b < 256 -> delta8 a b = F64.of_uint (Z.abs (a - b)).
Proof.
  intros Ha Hb. apply same_float_eq.
  exact (holds_uint8_pairs_spec _ a b delta8_checked Ha Hb).
Qed.

Lemma scaled_checked :
  holds_uint8_pairs (fun d k =>
    match F64.trunc (F64.min (F64.of_uint d * F64.of_uint k) 255) with
    | Some z => z =? Z.min (d * k) 255
    | None => false
    end) = true.
Proof. vm_compute. reflexivity. Qed.

(** An 8-bit difference times an integer scale factor, clipped. *)
Lemma to_uint8_scaled cv d k :
  0 <= d < 256 -> 0 <= k < 256 ->
  F64.to_uint8 cv (F64.min (F64.of_uint d * F64.of_uint k) 255) = Z.min (d * k) 255.
Proof.
  intros Hd Hk. pose proof (holds_uint8_pairs_spec _ d k scaled_checked Hd Hk) as H.
  cbv beta in H. destruct (F64.trunc _) as [z|] eqn:E; [|discriminate].
  apply Z.eqb_eq in H. rewrite (to_uint8_trunc cv _ z E) by nia. exact H.
Qed.

(** ** float64: the absolute difference is symmetric *)

Lemma SFabs_binary_round_aux s s' m e l :
  SFabs (binary_round_aux prec emax s m e l) = SFabs (binary_round_aux prec emax s' m e l).
Proof.
  unfold binary_round_aux.
  destruct (shr_fexp prec emax m e l) as [mrs e1].
  destruct (shr_fexp prec emax _ e1 loc_Exact) as [mrs' e2].
  destruct (shr_m mrs') as [|p|p]; try reflexivity.
  destruct (e2 <=? emax - prec); reflexivity.
Qed.

Lemma SFabs_binary_normalize m e :
  SFabs (binary_normalize prec emax (- m) e false)
  = SFabs (binary_normalize prec emax m e false).
Proof.
  destruct m as [|p|p]; try reflexivity.
  - change (- Z.pos p) with (Z.neg p). cbn [binary_normalize]. unfold binary_round.
    destruct (shl_align p e _). apply SFabs_binary_round_aux.
  - change (- Z.neg p) with (Z.pos p). cbn [binary_normalize]. unfold binary_round.
    destruct (shl_align p e _). apply SFabs_binary_round_aux.
Qed.

Lemma SFabs_sub_comm x y : SFabs (SF64sub x y) = SFabs (SF64sub y x).
Proof.
  destruct x as [sx|sx| |sx mx ex], y as [sy|sy| |sy my ey];
    try (destruct sx, sy; reflexivity); try (destruct sx; reflexivity);
    try (destruct sy; reflexivity); try reflexivity.
  unfold SF64sub, SFsub. rewrite (Z.min_comm ey ex).
  rewrite <- SFabs_binary_normalize. f_equal. f_equal. lia.
Qed.

Lemma abs_sub_comm a b : PrimFloat.abs (a - b) = PrimFloat.abs (b - a).
Proof.
  apply FloatAxioms.Prim2SF_inj.
  rewrite !FloatAxioms.abs_spec, !FloatAxioms.sub_spec. apply SFabs_sub_comm.
Qed.

(** ** computeDiffChunk: exchanging the two images *)

Lemma channelDiffs_swap c1 c2 stats1 stats2 nrm :
  channelDiffs c2 c1 stats2 stats1 nrm = channelDiffs c1 c2 stats1 stats2 nrm.
Proof.
  unfold channelDiffs. destruct nrm; cbv zeta;
    repeat (f_equal; try apply abs_sub_comm).
Qed.

Lemma diffPixel_swap cv c1 c2 stats1 stats2 nrm sf mode :
  diffPixel cv c2 c1 stats2 stats1 nrm sf mode
  = (let '(nz1, nz2, differs, px) := diffPixel cv c1 c2 stats1 stats2 nrm sf mode in
     (nz2, nz1, differs, px)).
Proof.
  unfold diffPixel. rewrite channelDiffs_swap.
  destruct (channelDiffs c1 c2 stats1 stats2 nrm) as [[[rD gD] bD] aD]. reflexivity.
Qed.

(** ** computeDiffChunk: what it writes and what it counts *)

Lemma tally_bounds f ps : 0 <= tally f ps <= Z.of_nat (length ps).
Proof.
  unfold tally. split; [lia|]. apply inj_le.
  induction ps as [|p ps IH]; [reflexivity|].
  cbn [List.filter length]. destruct (f p); cbn [length]; lia.
Qed.

Lemma tally_ext f g ps : (forall p, p ∈ ps -> f p = g p) -> tally f ps = tally g ps.
Proof.
  intros H. unfold tally. f_equal. f_equal.
  induction ps as [|p ps IH]; [reflexivity|].
  cbn [List.filter]. rewrite (H p) by left. rewrite IH; [reflexivity|].
  intros q Hq. apply H. right. exact Hq.
Qed.

Lemma RGBAAt_set_pixels (g : Z * Z -> RGBA8) c d x y :
  RGBAAt (fold_left (fun d p => RGBA_Set d p.1 p.2 (g p)) (pixels c) d) x y
  = if in_chunk x y c && In_rect x y (Rect d) then g (x, y) else RGBAAt d x y.
Proof.
  destruct (set_pixels_spec g (pixels c) d) as [HR HP]. cbv zeta in HR, HP.
  unfold RGBAAt. rewrite HR, (HP (x, y)). cbn [fst snd].
  destruct (In_rect x y (Rect d)) eqn:Hin; [|rewrite andb_false_r; reflexivity].
  rewrite andb_true_r.
  destruct (in_chunk x y c) eqn:Hc.
  - rewrite bool_decide_eq_true_2 by (apply elem_of_pixels; exact Hc). reflexivity.
  - rewrite bool_decide_eq_false_2; [reflexivity|].
    rewrite elem_of_pixels, Hc. discriminate.
Qed.

(** X5. computeDiffChunk keeps the bounds of the diff image, sets every
    pixel of the chunk that lies inside them to the colour computed from the
    two source pixels at the same coordinate, and leaves every other pixel as
    it was. For a chunk of at most 2^63 - 1 pixels the three counters are the
    numbers of its pixels that are non-zero in the left image, non-zero in
    the right image, and different. *)
Theorem computeDiffChunk_effect cv img1 img2 d c stats1 stats2 nrm sf mode :
  startX c <= endX c -> startY c <= endY c ->
  (endX c - startX c) * (endY c - startY c) <= GoInt.max_int ->
  let '(d', (n1, n2, n3)) :=
    computeDiffChunk cv img1 img2 d c stats1 stats2 nrm sf mode in
  Rect d' = Rect d /\
  (forall x y,
     RGBAAt d' x y
     = if in_chunk x y c && In_rect x y (Rect d)
       then snd (diffPixel cv (At img1 x y) (At img2 x y) stats1 stats2 nrm sf mode)
       else RGBAAt d x y) /\
  n1 = tally (fun p => nonzero_pixel (At img1 p.1 p.2)) (pixels c) /\
  n2 = tally (fun p => nonzero_pixel (At img2 p.1 p.2)) (pixels c) /\
  n3 = tally (fun p =>
         (diffPixel cv (At img1 p.1 p.2) (At img2 p.1 p.2) stats1 stats2 nrm sf mode).1.2)
         (pixels c) /\
  0 <= n1 <= (endX c - startX c) * (endY c - startY c) /\
  0 <= n2 <= (endX c - startX c) * (endY c - startY c) /\
  0 <= n3 <= (endX c - startX c) * (endY c - startY c).
Proof.
  intros Hx Hy Hsize. rewrite computeDiffChunk_fold.
  pose proof (length_pixels c Hx Hy) as Hlen.
  assert (Hw : forall f, GoInt.wrap64 (tally f (pixels c)) = tally f (pixels c)).
  { intros f. apply wrap64_id. pose proof (tally_bounds f (pixels c)). int_bounds. lia. }
  rewrite !Hw.
  split; [apply (set_pixels_spec _ (pixels c) d)|].
  split; [intros x y; apply RGBAAt_set_pixels|].
  unfold hit1, hit2, hitDiff.
  repeat (split; [reflexivity|]).
  rewrite <- Hlen.
  repeat split; apply tally_bounds.
Qed.

Lemma computeDiffChunk_effect_witness :
  let img1 := as_Image (createTestImage 2 2 (mkRGBA 100 150 200 255)) in
  let img2 := as_Image (createTestImage 2 2 (mkRGBA 120 170 220 255)) in
  let c := mkChunk 0 1 0 2 in
  let '(d', (n1, n2, n3)) :=
    computeDiffChunk sample_conv img1 img2 (NewRGBA (Bounds img1)) c
      zero_stats zero_stats false 1 "color" in
  startX c <= endX c /\ startY c <= endY c /\
  (endX c - startX c) * (endY c - startY c) <= GoInt.max_int /\
  RGBAAt d' 0 1 = mkRGBA 20 20 20 255 /\ RGBAAt d' 1 1 = mkRGBA 0 0 0 0 /\
  0 <= n3 <= 2.
Proof.
  cbv zeta.
  set (img1 := as_Image (createTestImage 2 2 (mkRGBA 100 150 200 255))).
  set (img2 := as_Image (createTestImage 2 2 (mkRGBA 120 170 220 255))).
  set (c := mkChunk 0 1 0 2).
  assert (Hx : startX c <= endX c) by (vm_compute; discriminate).
  assert (Hy : startY c <= endY c) by (vm_compute; discriminate).
  assert (Hs : (endX c - startX c) * (endY c - startY c) <= GoInt.max_int)
    by (vm_compute; discriminate).
  pose proof (computeDiffChunk_effect sample_conv img1 img2 (NewRGBA (Bounds img1)) c
                zero_stats zero_stats false 1 "color" Hx Hy Hs) as H.
  destruct (computeDiffChunk sample_conv img1 img2 (NewRGBA (Bounds img1)) c
              zero_stats zero_stats false 1 "color") as [d' [[n1 n2] n3]].
  destruct H as (_ & Hpix & _ & _ & _ & _ & _ & Hn3).
  repeat (split; [assumption|]).
  split; [rewrite Hpix; vm_compute; reflexivity|].
  split; [rewrite Hpix; vm_compute; reflexivity|].
  exact Hn3.
Defined.

(** X6. Exchanging the two images (and their statistics) gives the same
    diff image and the same number of differing pixels; only the two
    non-zero counts change places. *)
Theorem computeDiffChunk_symmetric cv img1 img2 d c stats1 stats2 nrm sf mode :
  computeDiffChunk cv img2 img1 d c stats2 stats1 nrm sf mode
  = (let '(d', (n1, n2, n3)) :=
       computeDiffChunk cv img1 img2 d c stats1 stats2 nrm sf mode in
     (d', (n2, n1, n3))).
Proof.
  rewrite !computeDiffChunk_fold.
  assert (Hpx : forall p, pixelAt cv img2 img1 stats2 stats1 nrm sf mode p
                          = pixelAt cv img1 img2 stats1 stats2 nrm sf mode p).
  { intros p. unfold pixelAt. rewrite diffPixel_swap.
    destruct (diffPixel cv (At img1 p.1 p.2) (At img2 p.1 p.2) stats1 stats2 nrm sf mode)
      as [[[nz1 nz2] df] px]. reflexivity. }
  assert (Hd : forall p, hitDiff cv img2 img1 stats2 stats1 nrm sf mode p
                         = hitDiff cv img1 img2 stats1 stats2 nrm sf mode p).
  { intros p. unfold hitDiff. rewrite diffPixel_swap.
    destruct (diffPixel cv (At img1 p.1 p.2) (At img2 p.1 p.2) stats1 stats2 nrm sf mode)
      as [[[nz1 nz2] df] px]. reflexivity. }
  f_equal.
  - apply fold_left_ext. intros t p. rewrite Hpx. reflexivity.
  - unfold hit1, hit2. f_equal. f_equal. apply tally_ext. intros p _. apply Hd.
Qed.

(** ** computeDiffChunk: equal pixels *)

Lemma chan_diag_checked :
  holds_from (fun v => same_float (PrimFloat.abs (chan v - chan v)) 0) 0 (Z.to_nat 65536)
  = true.
Proof. vm_compute. reflexivity. Qed.

Lemma chan_diag v : 0 <= v < 65536 -> PrimFloat.abs (chan v - chan v) = 0%float.
Proof.
  intros Hv. apply same_float_eq.
  apply (holds_from_spec _ _ 0 v chan_diag_checked). lia.
Qed.

Lemma is_finite_spec f :
  is_finite f = true ->
  match Prim2SF f with S754_zero _ | S754_finite _ _ _ => True | _ => False end.
Proof.
  unfold is_finite, is_infinity. rewrite is_nan_spec, FloatAxioms.eqb_spec, FloatAxioms.abs_spec.
  destruct (Prim2SF f) as [s|s| |s m e]; try exact (fun _ => I); cbn; discriminate.
Qed.

(** Zero times a finite number is a zero. *)
Lemma zero_mul_finite f :
  is_finite f = true -> exists s, Prim2SF (0 * f) = S754_zero s.
Proof.
  intros H. apply is_finite_spec in H. rewrite FloatAxioms.mul_spec.
  change (Prim2SF 0) with (S754_zero false).
  destruct (Prim2SF f) as [s|s| |s m e]; try contradiction; eexists; reflexivity.
Qed.

Lemma to_uint8_zero cv f s :
  Prim2SF f = S754_zero s -> F64.to_uint8 cv (F64.min f 255) = 0.
Proof.
  intros Hf.
  assert (Hmin : F64.min f 255 = f).
  { unfold F64.min. rewrite is_nan_spec, Hf, FloatAxioms.ltb_spec, Hf. reflexivity. }
  rewrite Hmin. apply (to_uint8_trunc cv f 0); [|lia].
  unfold F64.trunc. rewrite Hf. reflexivity.
Qed.

Lemma render_zero cv mode sf :
  is_finite sf = true -> render cv mode sf 0 0 0 = mkRGBA 0 0 0 255.
Proof.
  intros Hsf. destruct (zero_mul_finite sf Hsf) as [s Hs].
  unfold render.
  destruct (String.eqb mode "bw"); [reflexivity|].
  change ((0 + 0 + 0) / 3)%float with 0%float.
  rewrite (to_uint8_zero cv _ s Hs).
  destruct (String.eqb mode "gray"), (String.eqb mode "color"); reflexivity.
Qed.

Lemma diffPixel_equal cv c stats1 stats2 sf mode :
  range16 c -> is_finite sf = true ->
  diffPixel cv c c stats1 stats2 false sf mode
  = (nonzero_pixel c, nonzero_pixel c, false, mkRGBA 0 0 0 255).
Proof.
  intros (Hr & Hg & Hb & Ha) Hsf. unfold diffPixel, channelDiffs. cbv zeta.
  rewrite !chan_diag by assumption.
  change (0 <? 0 + 0 + 0 + 0)%float with false.
  rewrite render_zero by assumption. reflexivity.
Qed.

(** X7. The difference of an image with itself: when the two images have
    the same pixels on the chunk (channel values within 0..0xffff, as
    Color.RGBA() returns them), without normalization and with a finite
    scale factor, every pixel written is opaque black in every diff mode, no
    pixel is counted as differing and the two non-zero counts agree. *)
Theorem computeDiffChunk_identical cv img1 img2 d c stats1 stats2 sf mode :
  (forall x y, in_chunk x y c = true ->
     At img2 x y = At img1 x y /\ range16 (At img1 x y)) ->
  is_finite sf = true ->
  let '(d', (n1, n2, n3)) :=
    computeDiffChunk cv img1 img2 d c stats1 stats2 false sf mode in
  n3 = 0 /\ n1 = n2 /\
  forall x y, in_chunk x y c = true -> In_rect x y (Rect d) = true ->
    RGBAAt d' x y = mkRGBA 0 0 0 255.
Proof.
  intros Hsame Hsf. rewrite computeDiffChunk_fold.
  assert (Hpix : forall p, p ∈ pixels c ->
    diffPixel cv (At img1 p.1 p.2) (At img2 p.1 p.2) stats1 stats2 false sf mode
    = (nonzero_pixel (At img1 p.1 p.2), nonzero_pixel (At img1 p.1 p.2), false,
       mkRGBA 0 0 0 255)).
  { intros [x y] Hp. apply elem_of_pixels in Hp. destruct (Hsame x y Hp) as [E Hr].
    cbn [fst snd]. rewrite E. apply diffPixel_equal; assumption. }
  split; [|split].
  - rewrite (tally_ext _ (fun _ => false)).
    + unfold tally. clear. induction (pixels c) as [|p ps IH]; [reflexivity|exact IH].
    + intros p Hp. unfold hitDiff. rewrite Hpix by assumption. reflexivity.
  - f_equal. apply tally_ext. intros [x y] Hp. apply elem_of_pixels in Hp.
    unfold hit1, hit2. cbn [fst snd]. rewrite (proj1 (Hsame x y Hp)). reflexivity.
  - intros x y Hc Hin. rewrite RGBAAt_set_pixels, Hc, Hin. cbn [andb].
    unfold pixelAt. rewrite Hpix by (apply elem_of_pixels; exact Hc). reflexivity.
Qed.

Lemma computeDiffChunk_identical_witness :
  let img := as_Image (createTestImage 2 2 (mkRGBA 100 150 200 255)) in
  let c := mkChunk 0 2 0 2 in
  (forall x y, in_chunk x y c = true -> At img x y = At img x y /\ range16 (At img x y)) /\
  is_finite 2 = true /\
  let '(d', (n1, n2, n3)) :=
    computeDiffChunk sample_conv img img (NewRGBA (Bounds img)) c
      zero_stats zero_stats false 2 "gray" in
  n3 = 0 /\ n1 = n2 /\ RGBAAt d' 1 1 = mkRGBA 0 0 0 255.
Proof.
  cbv zeta. set (img := as_Image (createTestImage 2 2 (mkRGBA 100 150 200 255))).
  set (c := mkChunk 0 2 0 2).
  assert (Hsame : forall x y, in_chunk x y c = true ->
            At img x y = At img x y /\ range16 (At img x y)).
  { intros x y Hc. split; [reflexivity|].
    unfold in_chunk in Hc. cbn [c startX endX startY endY] in Hc.
    rewrite !andb_true_iff, !Z.leb_le, !Z.ltb_lt in Hc.
    assert (Ex : x = 0 \/ x = 1) by lia. assert (Ey : y = 0 \/ y = 1) by lia.
    destruct Ex as [-> | ->], Ey as [-> | ->]; repeat split; vm_compute; congruence. }
  assert (Hfin : is_finite 2 = true) by (vm_compute; reflexivity).
  split; [exact Hsame|]. split; [exact Hfin|].
  pose proof (computeDiffChunk_identical sample_conv img img (NewRGBA (Bounds img)) c
                zero_stats zero_stats 2 "gray" Hsame Hfin) as H.
  destruct (computeDiffChunk sample_conv img img (NewRGBA (Bounds img)) c
              zero_stats zero_stats false 2 "gray") as [d' [[n1 n2] n3]].
  destruct H as (H3 & H12 & Hpix).
  split; [exact H3|]. split; [exact H12|].
  apply Hpix; vm_compute; reflexivity.
Defined.

(** ** computeDiffChunk on 8-bit colours *)

Lemma of_uint_pos n : 0 <= n < 2 ^ 53 -> (0 <? F64.of_uint n)%float = (0 <? n).
Proof.
  intros Hn. rewrite pos_lt_spec, Prim2SF_of_uint by assumption.
  destruct n as [|p|p]; try lia; reflexivity.
Qed.

Lemma nonzero_pixel_RGBA c :
  valid_RGBA c -> nonzero_pixel (RGBA_RGBA c) = (0 <? R c + G c + B c + A c).
Proof.
  intros (Hr & Hg & Hb & Ha). unfold nonzero_pixel, RGBA_RGBA, GoInt.wrap32u.
  cbn [r16 g16 b16 a16]. rewrite !widen_257 by assumption.
  assert (2 ^ 32 = 4294967296) by reflexivity.
  rewrite (Z.mod_small (257 * R c + 257 * G c)) by lia.
  rewrite (Z.mod_small (257 * R c + 257 * G c + 257 * B c)) by lia.
  rewrite (Z.mod_small (257 * R c + 257 * G c + 257 * B c + 257 * A c)) by lia.
  destruct (Z.ltb_spec 0 (257 * R c + 257 * G c + 257 * B c + 257 * A c)),
           (Z.ltb_spec 0 (R c + G c + B c + A c)); first [reflexivity | lia].
Qed.

Lemma channelDiffs_RGBA c1 c2 stats1 stats2 :
  valid_RGBA c1 -> valid_RGBA c2 ->
  channelDiffs (RGBA_RGBA c1) (RGBA_RGBA c2) stats1 stats2 false
  = let '(dR, dG, dB, dA) := dist8 c1 c2 in
    (F64.of_uint dR, F64.of_uint dG, F64.of_uint dB, F64.of_uint dA).
Proof.
  intros (Hr1 & Hg1 & Hb1 & Ha1) (Hr2 & Hg2 & Hb2 & Ha2).
  unfold channelDiffs, RGBA_RGBA, dist8. cbn [r16 g16 b16 a16]. cbv zeta.
  rewrite !chan_widen by assumption.
  rewrite <- !delta8_exact by assumption. reflexivity.
Qed.

Lemma sum_of_uint a b c :
  0 <= a < 256 -> 0 <= b < 256 -> 0 <= c < 256 ->
  (F64.of_uint a + F64.of_uint b + F64.of_uint c)%float = F64.of_uint (a + b + c).
Proof.
  intros Ha Hb Hc. assert (2 ^ 10 < 2 ^ 53) by reflexivity.
  rewrite !of_uint_add by lia. reflexivity.
Qed.

(** X8. On two 8-bit colours, without normalization: a pixel counts as
    non-zero unless all four of its channels are 0; the pair counts as
    differing exactly when some channel, alpha included, differs; in bw mode
    the output is white exactly when R, G or B differ; in color mode with an
    integer scale factor k below 256 each output channel is the channel's
    absolute difference times k, clipped to 255. *)
Theorem diffPixel_uint8 cv c1 c2 stats1 stats2 k :
  valid_RGBA c1 -> valid_RGBA c2 -> 0 <= k < 256 ->
  let '(dR, dG, dB, dA) := dist8 c1 c2 in
  let nz1 := 0 <? R c1 + G c1 + B c1 + A c1 in
  let nz2 := 0 <? R c2 + G c2 + B c2 + A c2 in
  let differs := 0 <? dR + dG + dB + dA in
  diffPixel cv (RGBA_RGBA c1) (RGBA_RGBA c2) stats1 stats2 false (F64.of_uint k) "color"
  = (nz1, nz2, differs,
     mkRGBA (Z.min (dR * k) 255) (Z.min (dG * k) 255) (Z.min (dB * k) 255) 255) /\
  diffPixel cv (RGBA_RGBA c1) (RGBA_RGBA c2) stats1 stats2 false (F64.of_uint k) "bw"
  = (nz1, nz2, differs,
     if 0 <? dR + dG + dB then mkRGBA 255 255 255 255 else mkRGBA 0 0 0 255).
Proof.
  intros Hc1 Hc2 Hk.
  pose proof (channelDiffs_RGBA c1 c2 stats1 stats2 Hc1 Hc2) as HD.
  unfold diffPixel. rewrite HD, !nonzero_pixel_RGBA by assumption.
  destruct Hc1 as (Hr1 & Hg1 & Hb1 & Ha1), Hc2 as (Hr2 & Hg2 & Hb2 & Ha2).
  unfold dist8.
  set (dR := Z.abs (R c1 - R c2)). set (dG := Z.abs (G c1 - G c2)).
  set (dB := Z.abs (B c1 - B c2)). set (dA := Z.abs (A c1 - A c2)).
  assert (HdR : 0 <= dR < 256) by (subst dR; lia).
  assert (HdG : 0 <= dG < 256) by (subst dG; lia).
  assert (HdB : 0 <= dB < 256) by (subst dB; lia).
  assert (HdA : 0 <= dA < 256) by (subst dA; lia).
  assert (Hpow : 2 ^ 11 < 2 ^ 53) by reflexivity.
  rewrite sum_of_uint, of_uint_add, of_uint_pos by lia.
  split.
  - unfold render. cbn [String.eqb Ascii.eqb Bool.eqb].
    rewrite !to_uint8_scaled by assumption. reflexivity.
  - unfold render. cbn [String.eqb Ascii.eqb Bool.eqb].
    rewrite !of_uint_pos by lia.
    destruct (Z.ltb_spec 0 dR), (Z.ltb_spec 0 dG), (Z.ltb_spec 0 dB),
             (Z.ltb_spec 0 (dR + dG + dB)); first [reflexivity | lia].
Qed.

Lemma diffPixel_uint8_witness :
  let c1 := mkRGBA 100 150 200 255 in
  let c2 := mkRGBA 120 170 20 255 in
  valid_RGBA c1 /\ valid_RGBA c2 /\ 0 <= 2 < 256 /\
  diffPixel sample_conv (RGBA_RGBA c1) (RGBA_RGBA c2) zero_stats zero_stats false 2 "color"
  = (true, true, true, mkRGBA 40 40 255 255).
Proof.
  cbv zeta.
  assert (H1 : valid_RGBA (mkRGBA 100 150 200 255)) by (repeat split; vm_compute; congruence).
  assert (H2 : valid_RGBA (mkRGBA 120 170 20 255)) by (repeat split; vm_compute; congruence).
  assert (Hk : 0 <= 2 < 256) by lia.
  repeat (split; [assumption|]).
  exact (proj1 (diffPixel_uint8 sample_conv _ _ zero_stats zero_stats 2 H1 H2 Hk)).
Defined.

Lemma holds_gray_spec p s k :
  holds_gray p = true -> 0 <= s < 766 -> 0 <= k < 15 -> p s k = true.
Proof.
  intros H Hs Hk. unfold holds_gray in H.
  apply (holds_from_spec (p s) 15 0 k); [|lia].
  apply (holds_from_spec (fun s => holds_from (p s) 0 15) 766 0 s H). lia.
Qed.

Lemma gray_checked :
  holds_gray (fun s k =>
    match F64.trunc (F64.min (F64.of_uint s / 3 * F64.of_uint k) 255) with
    | Some z => z =? Z.min (s * k / 3) 255
    | None => false
    end) = true.
Proof. vm_compute. reflexivity. Qed.

(** X9. In gray mode, on two 8-bit colours without normalization and with
    an integer scale factor k below 15, the three output channels are the
    sum of the R, G and B differences times k, divided by 3 and rounded down,
    clipped to 255. *)
Theorem diffPixel_uint8_gray cv c1 c2 stats1 stats2 k :
  valid_RGBA c1 -> valid_RGBA c2 -> 0 <= k < 15 ->
  let '(dR, dG, dB, dA) := dist8 c1 c2 in
  let gray := Z.min ((dR + dG + dB) * k / 3) 255 in
  snd (diffPixel cv (RGBA_RGBA c1) (RGBA_RGBA c2) stats1 stats2 false (F64.of_uint k) "gray")
  = mkRGBA gray gray gray 255.
Proof.
  intros Hc1 Hc2 Hk.
  pose proof (channelDiffs_RGBA c1 c2 stats1 stats2 Hc1 Hc2) as HD.
  unfold diffPixel. rewrite HD.
  destruct Hc1 as (Hr1 & Hg1 & Hb1 & Ha1), Hc2 as (Hr2 & Hg2 & Hb2 & Ha2).
  unfold dist8.
  set (dR := Z.abs (R c1 - R c2)). set (dG := Z.abs (G c1 - G c2)).
  set (dB := Z.abs (B c1 - B c2)). set (dA := Z.abs (A c1 - A c2)).
  assert (HdR : 0 <= dR < 256) by (subst dR; lia).
  assert (HdG : 0 <= dG < 256) by (subst dG; lia).
  assert (HdB : 0 <= dB < 256) by (subst dB; lia).
  cbn [snd]. unfold render. cbn [String.eqb Ascii.eqb Bool.eqb].
  rewrite sum_of_uint by assumption.
  assert (Hs : 0 <= dR + dG + dB < 766) by lia.
  pose proof (holds_gray_spec _ _ k gray_checked Hs Hk) as H2. cbv beta in H2.
  destruct (F64.trunc _) as [z|] eqn:E; [|discriminate].
  apply Z.eqb_eq in H2.
  assert (Hz : 0 <= z <= 255).
  { subst z. split; [|apply Z.le_min_r].
    apply Z.min_glb; [|lia]. apply Z.div_pos; [|lia].
    apply Z.mul_nonneg_nonneg; lia. }
  rewrite (to_uint8_trunc cv _ z E Hz), H2. reflexivity.
Qed.

Lemma diffPixel_uint8_gray_witness :
  let c1 := mkRGBA 100 150 200 255 in
  let c2 := mkRGBA 120 170 21 255 in
  valid_RGBA c1 /\ valid_RGBA c2 /\ 0 <= 1 < 15 /\
  snd (diffPixel sample_conv (RGBA_RGBA c1) (RGBA_RGBA c2) zero_stats zero_stats false 1 "gray")
  = mkRGBA 73 73 73 255.
Proof.
  cbv zeta.
  assert (H1 : valid_RGBA (mkRGBA 100 150 200 255)) by (repeat split; vm_compute; congruence).
  assert (H2 : valid_RGBA (mkRGBA 120 170 21 255)) by (repeat split; vm_compute; congruence).
  assert (Hk : 0 <= 1 < 15) by lia.
  repeat (split; [assumption|]).
  exact (diffPixel_uint8_gray sample_conv _ _ zero_stats zero_stats 1 H1 H2 Hk).
Defined.

(** ** calculateImageStats on an image without pixels *)

Lemma pixels_empty c : startX c = endX c \/ startY c = endY c -> pixels c = [].
Proof.
  intros H. unfold pixels. destruct H as [H | H]; rewrite H, Z.sub_diag.
  - rewrite (seqZ_nil _ 0) by lia.
    induction (seqZ (startY c) (endY c - startY c)) as [|y l IH]; [reflexivity|exact IH].
  - rewrite (seqZ_nil _ 0) by lia. reflexivity.
Qed.

Lemma sub_nan_l x : Prim2SF (x - nan) = S754_nan.
Proof.
  rewrite FloatAxioms.sub_spec. change (Prim2SF nan) with S754_nan.
  destruct (Prim2SF x) as [s|s| |s m e]; reflexivity.
Qed.

Lemma div_nan_r x : (x / nan)%float = nan.
Proof.
  apply FloatAxioms.Prim2SF_inj. rewrite FloatAxioms.div_spec.
  change (Prim2SF nan) with S754_nan.
  destruct (Prim2SF x) as [s|s| |s m e]; reflexivity.
Qed.

(** X14. On an image with no pixel columns or no pixel rows
    calculateImageStats divides zero by zero: every mean and every standard
    deviation is NaN. With such statistics normalizePixel returns NaN for
    every value, since NaN == 0 is false. *)
Theorem calculateImageStats_empty img :
  X (Min (Bounds img)) = X (Max (Bounds img)) \/
  Y (Min (Bounds img)) = Y (Max (Bounds img)) ->
  calculateImageStats img = nan_stats /\
  forall value, normalizePixel value nan nan = nan.
Proof.
  intros H. split.
  - unfold calculateImageStats. cbv zeta.
    assert (Hcount : GoInt.mul (Dx (Bounds img)) (Dy (Bounds img)) = 0).
    { unfold GoInt.mul, Dx, Dy, GoInt.sub.
      destruct H as [H | H]; rewrite H, Z.sub_diag;
        change (GoInt.wrap64 0) with 0; rewrite ?Z.mul_0_l, ?Z.mul_0_r; reflexivity. }
    rewrite Hcount.
    rewrite (rect_loops_fold (fun x y '(sumR, sumG, sumB, sumA) =>
       (sumR + chan (r16 (At img x y)), sumG + chan (g16 (At img x y)),
        sumB + chan (b16 (At img x y)), sumA + chan (a16 (At img x y)))%float)).
    rewrite (pixels_empty (whole (Bounds img))) by exact H.
    cbn [fold_left].
    rewrite (rect_loops_fold (fun x y '(sqR, sqG, sqB, sqA) => _)).
    rewrite (pixels_empty (whole (Bounds img))) by exact H.
    cbn [fold_left]. vm_compute. reflexivity.
  - intros value. unfold normalizePixel.
    change (nan =? 0)%float with false. cbv iota. apply div_nan_r.
Qed.

Lemma calculateImageStats_empty_witness :
  let img := as_Image (createTestImage 0 3 (mkRGBA 100 150 200 255)) in
  (X (Min (Bounds img)) = X (Max (Bounds img)) \/
   Y (Min (Bounds img)) = Y (Max (Bounds img))) /\
  calculateImageStats img = nan_stats.
Proof.
  cbv zeta. set (img := as_Image (createTestImage 0 3 (mkRGBA 100 150 200 255))).
  assert (H : X (Min (Bounds img)) = X (Max (Bounds img)) \/
              Y (Min (Bounds img)) = Y (Max (Bounds img))) by (left; reflexivity).
  split; [exact H|]. exact (proj1 (calculateImageStats_empty img H)).
Defined.

(** ** createTestImage *)

(** X15. createTestImage(width, height, c) with non-negative sizes and an
    8-bit colour c returns an image with bounds (0,0)-(width,height) whose
    every pixel inside the bounds is c; outside the bounds it reads as the
    zero colour. *)
Theorem createTestImage_spec width height c :
  0 <= width -> 0 <= height ->
  Rect (createTestImage width height c) = mkRect (mkPoint 0 0) (mkPoint width height) /\
  forall x y,
    RGBAAt (createTestImage width height c) x y
    = if (0 <=? x) && (x <? width) && (0 <=? y) && (y <? height) then c
      else mkRGBA 0 0 0 0.
Proof.
  intros Hw Hh. unfold createTestImage.
  rewrite (chunk_loops_fold (fun x y img => RGBA_Set img x y c) (mkChunk 0 width 0 height)).
  assert (HR : image_Rect 0 0 width height = mkRect (mkPoint 0 0) (mkPoint width height)).
  { unfold image_Rect. destruct (Z.ltb_spec width 0), (Z.ltb_spec height 0);
      first [lia | reflexivity]. }
  rewrite HR. split.
  - apply (set_pixels_spec (fun _ => c)).
  - intros x y. rewrite (RGBAAt_set_pixels (fun _ => c)).
    unfold in_chunk, In_rect, RGBAAt, NewRGBA, In_rect.
    cbn [startX endX startY endY Rect Min Max X Y Pix].
    destruct ((0 <=? x) && (x <? width) && (0 <=? y) && (y <? height)); reflexivity.
Qed.

Lemma createTestImage_spec_witness :
  0 <= 2 /\ 0 <= 3 /\
  Rect (createTestImage 2 3 (mkRGBA 100 150 200 255)) = image_Rect 0 0 2 3 /\
  RGBAAt (createTestImage 2 3 (mkRGBA 100 150 200 255)) 1 2 = mkRGBA 100 150 200 255 /\
  RGBAAt (createTestImage 2 3 (mkRGBA 100 150 200 255)) 2 2 = mkRGBA 0 0 0 0.
Proof.
  assert (H2 : 0 <= 2) by lia. assert (H3 : 0 <= 3) by lia.
  destruct (createTestImage_spec 2 3 (mkRGBA 100 150 200 255) H2 H3) as [HR HP].
  split; [exact H2|]. split; [exact H3|]. split; [exact HR|].
  split; rewrite HP; reflexivity.
Defined.

(** ** approxEqual *)

Lemma leb_nan_l x : Prim2SF x = S754_nan -> forall tol, (x <=? tol)%float = false.
Proof.
  intros Hx tol. rewrite FloatAxioms.leb_spec, Hx. reflexivity.
Qed.

(** X16. approxEqual does not depend on the order of the two values it
    compares, and it never accepts a NaN, whatever the tolerance. *)
Theorem approxEqual_symmetric a b tol :
  approxEqual a b tol = approxEqual b a tol /\
  approxEqual nan b tol = false /\ approxEqual a nan tol = false.
Proof.
  unfold approxEqual. split; [rewrite abs_sub_comm; reflexivity|].
  split.
  - rewrite abs_sub_comm. apply leb_nan_l.
    rewrite FloatAxioms.abs_spec, sub_nan_l. reflexivity.
  - apply leb_nan_l. rewrite FloatAxioms.abs_spec, sub_nan_l. reflexivity.
Qed.

(** ** main: a run that passes every check *)

Ltac run_simpl :=
  cbn [bind mbind Run_bind emit ret when os_Exit fail fail_usage panic
       negb andb orb app fst snd].

Lemma spawn_all' (chunks : list Chunk) :
  fold_right (fun (c : Chunk) (k : Run unit) => let '(t', r) := k in (ESpawn c :: t', r))
    (ret tt) chunks
  = (map ESpawn chunks, inr tt).
Proof.
  induction chunks as [|c cs IH]; [reflexivity|].
  cbn [fold_right map]. rewrite IH. reflexivity.
Qed.

Lemma is_empty_false s : s <> ""%string -> is_empty s = false.
Proof. intros H. unfold is_empty. destruct (String.eqb_spec s ""); [contradiction|reflexivity]. Qed.

Lemma valid_mode_check mode :
  valid_mode mode ->
  negb (String.eqb mode "bw") && negb (String.eqb mode "gray")
    && negb (String.eqb mode "color") = false.
Proof. intros [-> | [-> | ->]]; reflexivity. Qed.

Lemma same_rect_refl r : same_rect r r = true.
Proof. apply same_rect_spec. reflexivity. Qed.

Lemma join_single cv img1 img2 stats1 stats2 nrm sf mode cs sched s :
  exact_tiling (Bounds img1) cs ->
  join sched (map (goroutine cv img1 img2 stats1 stats2 nrm sf mode) cs)
    (mkShared (NewRGBA (Bounds img1)) 0 0 0) = Some s ->
  (diffImg s, (count1 s, count2 s, diffCount s))
  = computeDiffChunk cv img1 img2 (NewRGBA (Bounds img1)) (whole (Bounds img1))
      stats1 stats2 nrm sf mode.
Proof.
  intros Ht Hjoin.
  destruct (join_result cv img1 img2 stats1 stats2 nrm sf mode cs sched s Ht Hjoin)
    as (HR & HP & H1 & H2 & H3).
  destruct (single_run_image cv img1 img2 stats1 stats2 nrm sf mode) as [HR' HP'].
  rewrite (surjective_pairing (computeDiffChunk _ _ _ _ _ _ _ _ _ _)).
  f_equal.
  - apply RGBAImage_eq; [congruence|]. intros p. rewrite HP, HP'. reflexivity.
  - rewrite computeDiffChunk_fold. cbn [snd]. congruence.
Qed.

Section NormalRun.

Variable cv : F64.Conv.
Variable fl : Flags.
Variables img1 img2 : Image.
Variable out : string.

Let b := Bounds img1.
Let stats1 := if normalized fl then calculateImageStats img1 else zero_stats.
Let stats2 := if normalized fl then calculateImageStats img2 else zero_stats.
Let scaleFactor := if normalized fl then normalizedScale fl else scale fl.
Let single :=
  computeDiffChunk cv img1 img2 (NewRGBA b) (whole b) stats1 stats2
    (normalized fl) scaleFactor (diffMode fl).
Let final :=
  if includeInputs fl then createCompositeImage img1 img2 (as_Image (fst single))
  else fst single.

Hypothesis Hgit : gitConfig fl = ""%string.
Hypothesis Hl : left fl <> ""%string.
Hypothesis Hr : right fl <> ""%string.
Hypothesis Hmode : valid_mode (diffMode fl).
Hypothesis Hb : Bounds img2 = b.

(** The run up to [wg.Wait()] and, once the goroutines are joined, to the
    end. *)
Lemma main_joined w nx ny :
  open_file w (left fl) = true -> open_file w (right fl) = true ->
  decode w (left fl) = Some img1 -> decode w (right fl) = Some img2 ->
  chooseGrid cv (NumCPU w) b = Some (nx, ny) ->
  chunkList b nx ny = Some (grid b nx ny) ->
  exact_tiling b (grid b nx ny) ->
  (if is_empty (output fl) then create_temp w = Some out else out = output fl) ->
  create_file w out = true -> encode w final = true -> open_viewer w out = true ->
  main cv fl w
  = match join (schedule w)
            (map (goroutine cv img1 img2 stats1 stats2 (normalized fl) scaleFactor
                    (diffMode fl)) (grid b nx ny))
            (mkShared (NewRGBA b) 0 0 0) with
    | Some _ =>
        Some ([EOpen (left fl); EOpen (right fl); EDecode (left fl); EDecode (right fl)]
              ++ (if normalized fl then [EStats Left; EStats Right] else [])
              ++ map ESpawn (grid b nx ny)
              ++ (if is_empty (output fl) then [ECreateTemp] else [])
              ++ [ECreate out; EEncode final;
                  ESuccess out (if normalized fl then None else Some (snd single).2);
                  EViewer out],
              Returned)
    | None => None
    end.
Proof.
  intros Ho1 Ho2 Hd1 Hd2 Hgrid Hchunks Htile Hout Hcreate Henc Hview.
  unfold main.
  rewrite Hgit, Hd1, Hd2.
  rewrite (is_empty_false _ Hl), (is_empty_false _ Hr).
  rewrite (valid_mode_check _ Hmode), Ho1, Ho2.
  cbn [is_empty String.eqb negb orb]. run_simpl. cbv beta iota.
  rewrite Hb. fold b. rewrite same_rect_refl, Hgrid, Hchunks.
  run_simpl. cbv beta iota.
  rewrite spawn_all'.
  assert (Hsingle : forall sched s,
    join sched (map (goroutine cv img1 img2 stats1 stats2 (normalized fl) scaleFactor
                       (diffMode fl)) (grid b nx ny))
      (mkShared (NewRGBA b) 0 0 0) = Some s ->
    diffImg s = fst single /\ diffCount s = (snd single).2).
  { intros sched s Hj. apply join_single in Hj; [|exact Htile].
    fold b single in Hj. rewrite <- Hj. split; reflexivity. }
  subst stats1 stats2 scaleFactor.
  destruct (normalized fl) eqn:Hn; run_simpl; cbv beta iota;
    (destruct (join _ _ _) as [shared|] eqn:Hj; [|reflexivity]);
    destruct (Hsingle _ _ Hj) as [Himg Hcnt]; rewrite ?Himg, ?Hcnt; fold final;
    (destruct (is_empty (output fl));
     [rewrite Hout|rewrite <- Hout]; run_simpl; cbv beta iota;
     rewrite Hcreate, Henc, Hview; run_simpl; cbv beta iota;
     rewrite ?app_nil_r, <- ?app_assoc; reflexivity).
Qed.

End NormalRun.



(** ** main: the ways a run ends *)

Lemma chooseGrid_total cv numCPU b :
  1 <= numCPU <= 65536 ->
  exists nx ny, chooseGrid cv numCPU b = Some (nx, ny) /\ 1 <= nx /\ 1 <= ny.
Proof.
  intros Hn. unfold chooseGrid. rewrite to_int_sqrt by assumption.
  pose proof (Z.sqrt_spec numCPU ltac:(lia)) as Hr.
  pose proof (Z.sqrt_nonneg numCPU) as Hr0.
  set (r := Z.sqrt numCPU) in *. unfold Z.succ in Hr.
  assert (Hr1 : 1 <= r).
  { destruct (Z_le_gt_dec 1 r); [assumption|]. assert (r = 0) by lia. nia. }
  assert (Hmax : 65536 < GoInt.max_int) by reflexivity.
  rewrite (quo_nonneg numCPU r) by lia.
  assert (Hq : 1 <= numCPU / r <= numCPU).
  { split; [apply Z.div_le_lower_bound; nia|apply Z.div_le_upper_bound; nia]. }
  set (q := numCPU / r) in *.
  unfold GoInt.mul, GoInt.add.
  rewrite (wrap64_id (q + 1)) by (int_bounds; lia).
  set (ny0 := if GoInt.wrap64 (r * q) <? numCPU then q + 1 else q).
  assert (Hny0 : 1 <= ny0) by (subst ny0; destruct (_ <? _); lia).
  unfold GoInt.quo.
  destruct (Z.eqb_spec r 0); [lia|]. destruct (Z.eqb_spec ny0 0); [lia|].
  eexists _, _. split; [reflexivity|].
  split.
  - destruct (_ <? 1) eqn:E; [lia|]. apply Z.ltb_ge in E. exact E.
  - destruct (_ <? 1) eqn:E; [lia|]. apply Z.ltb_ge in E. exact E.
Qed.

Lemma chunkList_total b nx ny :
  nx <> 0 -> ny <> 0 -> exists cs, chunkList b nx ny = Some cs.
Proof.
  intros Hnx Hny. unfold chunkList, createChunks, GoInt.quo.
  destruct (Z.eqb_spec nx 0); [contradiction|].
  destruct (Z.eqb_spec ny 0); [contradiction|].
  eexists. reflexivity.
Qed.

Lemma ends_in_error_cons e t : ends_in_error t -> ends_in_error (e :: t).
Proof.
  intros (pre & msg & [-> | ->]); exists (e :: pre), msg; [left|right]; reflexivity.
Qed.

Lemma ends_in_error_app l t : ends_in_error t -> ends_in_error (l ++ t).
Proof.
  intros (pre & msg & [-> | ->]); exists (l ++ pre), msg; [left|right];
    rewrite app_assoc; reflexivity.
Qed.

Lemma ends_in_success_cons e t : ends_in_success t -> ends_in_success (e :: t).
Proof.
  intros (pre & out & img & cnt & ->). exists (e :: pre), out, img, cnt. reflexivity.
Qed.

Lemma ends_in_success_app l t : ends_in_success t -> ends_in_success (l ++ t).
Proof.
  intros (pre & out & img & cnt & ->). exists (l ++ pre), out, img, cnt.
  rewrite app_assoc. reflexivity.
Qed.

Ltac ends :=
  first
    [ solve [eexists [], _; left; reflexivity]
    | solve [eexists [], _; right; reflexivity]
    | solve [eexists [], _, _, _; reflexivity]
    | apply ends_in_error_cons; ends
    | apply ends_in_success_cons; ends
    | apply ends_in_error_app; ends
    | apply ends_in_success_app; ends ].





(** X13. When an input file cannot be opened or cannot be decoded, the run
    ends with status 1 after an error message, before any statistics are
    computed, any chunk is processed or any output file is created. *)
Theorem main_input_failure cv fl w :
  gitConfig fl = ""%string ->
  open_file w (left fl) = false \/ open_file w (right fl) = false \/
  decode w (left fl) = None \/ decode w (right fl) = None ->
  exists t,
    main cv fl w = Some (t, Exit 1) /\
    no_processing t = true /\ ends_in_error t.
Proof.
  intros Hgit H. unfold main. rewrite Hgit.
  cbn [is_empty String.eqb negb]. run_simpl.
  destruct (is_empty (left fl) || is_empty (right fl)).
  { run_simpl. eexists. split; [reflexivity|]. split; [reflexivity|]. ends. }
  destruct (negb (String.eqb (diffMode fl) "bw") && negb (String.eqb (diffMode fl) "gray")
            && negb (String.eqb (diffMode fl) "color")).
  { run_simpl. eexists. split; [reflexivity|]. split; [reflexivity|]. ends. }
  destruct (open_file w (left fl)).
  2:{ run_simpl. eexists. split; [reflexivity|]. split; [reflexivity|]. ends. }
  destruct (open_file w (right fl)).
  2:{ run_simpl. eexists. split; [reflexivity|]. split; [reflexivity|]. ends. }
  destruct (decode w (left fl)) as [img1|].
  2:{ run_simpl. eexists. split; [reflexivity|]. split; [reflexivity|]. ends. }
  destruct (decode w (right fl)) as [img2|].
  2:{ run_simpl. eexists. split; [reflexivity|]. split; [reflexivity|]. ends. }
  destruct H as [H | [H | [H | H]]]; discriminate.
Qed.

Lemma main_input_failure_witness :
  let img := as_Image (createTestImage 2 2 (mkRGBA 100 150 200 255)) in
  let fl := sample_flags true "gray" in
  let w := mkWorld (fun f => String.eqb f "left.png") (fun _ => Some img) 4 None
             (fun _ => true) (fun _ => true) (fun _ => true) (fun _ => true) [] in
  gitConfig fl = ""%string /\
  (open_file w (left fl) = false \/ open_file w (right fl) = false \/
   decode w (left fl) = None \/ decode w (right fl) = None) /\
  main sample_conv fl w
  = Some ([EOpen "left.png"; EOpen "right.png"; EError "Error opening right image"], Exit 1) /\
  exists t, main sample_conv fl w = Some (t, Exit 1) /\ no_processing t = true.
Proof.
  cbv zeta.
  set (fl := sample_flags true "gray").
  set (w := mkWorld (fun f => String.eqb f "left.png")
              (fun _ => Some (as_Image (createTestImage 2 2 (mkRGBA 100 150 200 255))))
              4 None (fun _ => true) (fun _ => true) (fun _ => true) (fun _ => true) []).
  assert (H : open_file w (left fl) = false \/ open_file w (right fl) = false \/
              decode w (left fl) = None \/ decode w (right fl) = None)
    by (right; left; reflexivity).
  split; [reflexivity|]. split; [exact H|]. split; [vm_compute; reflexivity|].
  destruct (main_input_failure sample_conv fl w eq_refl H) as (t & Hmain & Hno & _).
  exists t. split; assumption.
Defined.

(** ** openImage and getViewerName *)

(** X17. openImage launches at most one command. A custom viewer is used
    on every operating system, as [viewer filename], and is the only case in
    which the command is started without waiting for it (when -wait is not
    given); the default viewer's launcher command is always run to
    completion. Without a custom viewer openImage fails, launching nothing,
    exactly on the operating systems other than darwin, linux and windows,
    which are also exactly those for which getViewerName has no specific
    name. *)
Theorem openImage_cases goos quote filename viewer wait :
  (viewer <> ""%string ->
   openImage goos quote filename viewer wait
   = inl ([viewer; filename], if wait then CmdRun else CmdStart)) /\
  (forall argv, openImage goos quote filename viewer wait = inl (argv, CmdStart) ->
     viewer <> ""%string /\ wait = false) /\
  ((exists err, openImage goos quote filename viewer wait = inr err) <->
   viewer = ""%string /\ goos <> "darwin"%string /\ goos <> "linux"%string
   /\ goos <> "windows"%string) /\
  ((exists err, openImage goos quote filename "" wait = inr err) <->
   getViewerName goos "" = "default viewer"%string).
Proof.
  unfold openImage, getViewerName.
  destruct (String.eqb_spec viewer "") as [Hv|Hv]; cbn [negb].
  - destruct (String.eqb_spec goos "darwin") as [Hd|Hd],
             (String.eqb_spec goos "linux") as [Hl|Hl],
             (String.eqb_spec goos "windows") as [Hw|Hw];
      (split; [intros ?; contradiction|]);
      (split; [intros argv; destruct wait; discriminate|]);
      split; split;
      try (intros [err ?]; discriminate);
      try (intros (_ & ? & ? & ?); contradiction);
      try discriminate;
      try (intros _; eexists; reflexivity);
      try (intros _; repeat split; assumption).
  - split; [intros _; destruct wait; reflexivity|].
    split; [intros argv; destruct wait; [discriminate|intros _; split; [assumption|reflexivity]]|].
    split.
    + split; [intros [err H]; destruct wait; discriminate|intros [? _]; contradiction].
    + destruct (String.eqb_spec goos "darwin") as [Hd|Hd],
               (String.eqb_spec goos "linux") as [Hl|Hl],
               (String.eqb_spec goos "windows") as [Hw|Hw];
        split;
        try (intros [err ?]; discriminate); try discriminate;
        try (intros _; eexists; reflexivity); try reflexivity.
Qed.

(** ** configureGitDifftool *)

(** X18. configureGitDifftool ends the program only with status 1. When
    the path of the executable is not available it runs no command at all,
    also when disabling. Otherwise it runs its first git command, and the
    second one exactly when the first did not fail, where the error
    "exit status 5" (key not found) does not count as a failure when
    disabling; it returns, instead of exiting, exactly when neither command
    failed. *)
Theorem configureGitDifftool_steps {St : Type} (sys : System St) enable s :
  let '(steps, ending, s') := configureGitDifftool sys enable s in
  (ending = None \/ ending = Some 1) /\
  (forall err, os_Executable sys = inr err ->
     commands steps = [] /\ ending = Some 1 /\ s' = s) /\
  (forall path, os_Executable sys = inl path ->
     let '(r1, s1) := cmd_Run sys (git_cmd1 enable) s in
     let '(r2, s2) := cmd_Run sys (git_cmd2 enable path) s1 in
     commands steps
     = (if tolerated enable r1 then [git_cmd1 enable; git_cmd2 enable path]
        else [git_cmd1 enable]) /\
     (ending = None <-> tolerated enable r1 && tolerated enable r2 = true) /\
     s' = if tolerated enable r1 then s2 else s1).
Proof.
  unfold configureGitDifftool, git_cmd1, git_cmd2, difftool_cmd, tolerated.
  change ("difftool." ++ "imagediff" ++ ".cmd")%string with "difftool.imagediff.cmd"%string.
  destruct (os_Executable sys) as [path|err] eqn:Eexe.
  2:{ split; [right; reflexivity|]. split; [|intros ? [=]].
      intros err' [= <-]. repeat split; reflexivity. }
  destruct enable; cbn [append negb andb].
  - destruct (cmd_Run sys _ s) as [[e1|] s1] eqn:E1.
    + split; [right; reflexivity|]. split; [intros ? [=]|].
      intros path' [= <-]. destruct (cmd_Run sys _ s1) as [r2 s2].
      split; [reflexivity|]. split; [|reflexivity]. split; discriminate.
    + destruct (cmd_Run sys _ s1) as [[e2|] s2] eqn:E2.
      * split; [right; reflexivity|]. split; [intros ? [=]|].
        intros path' [= <-]. rewrite E2.
        split; [reflexivity|]. split; [|reflexivity]. split; discriminate.
      * split; [left; reflexivity|]. split; [intros ? [=]|].
        intros path' [= <-]. rewrite E2.
        split; [reflexivity|]. split; [|reflexivity]. split; reflexivity.
  - destruct (cmd_Run sys _ s) as [r1 s1] eqn:E1.
    destruct r1 as [e1|]; [destruct (String.eqb e1 "exit status 5") eqn:T1|];
      cbn [negb andb].
    + destruct (cmd_Run sys _ s1) as [r2 s2] eqn:E2.
      destruct r2 as [e2|]; [destruct (String.eqb e2 "exit status 5") eqn:T2|];
        cbn [negb andb];
        (split; [first [left; reflexivity | right; reflexivity]|]);
        (split; [intros ? [=]|]); intros path' [= <-];
        (split; [reflexivity|]); (split; [|reflexivity]);
        split; first [reflexivity | discriminate].
    + split; [right; reflexivity|]. split; [intros ? [=]|].
      intros path' [= <-]. destruct (cmd_Run sys _ s1) as [r2 s2].
      split; [reflexivity|]. split; [|reflexivity]. split; discriminate.
    + destruct (cmd_Run sys _ s1) as [r2 s2] eqn:E2.
      destruct r2 as [e2|]; [destruct (String.eqb e2 "exit status 5") eqn:T2|];
        cbn [negb andb];
        (split; [first [left; reflexivity | right; reflexivity]|]);
        (split; [intros ? [=]|]); intros path' [= <-];
        (split; [reflexivity|]); (split; [|reflexivity]);
        split; first [reflexivity | discriminate].
Qed.

(** X19. Against a git whose global configuration behaves as a key-value
    store: enabling always succeeds and sets diff.tool to imagediff and
    difftool.imagediff.cmd to the program's path followed by
    -left "$LOCAL" -right "$REMOTE" -wait; disabling always succeeds,
    whether or not the two keys are set, and removes both keys, so a
    diff.tool that named another tool is removed as well; no other key is
    touched, and disabling after enabling has the same result as disabling
    alone. *)
Theorem configureGitDifftool_store path (cfg : gmap string string) :
  let enabled := configureGitDifftool (git_system path) true cfg in
  let disabled := configureGitDifftool (git_system path) false cfg in
  enabled.1.2 = None /\
  enabled.2 = <["difftool.imagediff.cmd"%string := difftool_cmd path]>
                (<["diff.tool"%string := "imagediff"%string]> cfg) /\
  disabled.1.2 = None /\
  disabled.2 = delete "difftool.imagediff.cmd"%string (delete "diff.tool"%string cfg) /\
  (configureGitDifftool (git_system path) false enabled.2).2 = disabled.2.
Proof.
  cbv zeta.
  assert (Hen : configureGitDifftool (git_system path) true cfg
    = ([SRun (git_cmd1 true); SRun (git_cmd2 true path);
        SPrint "imagediff successfully enabled as git difftool"], None,
       <["difftool.imagediff.cmd"%string := difftool_cmd path]>
         (<["diff.tool"%string := "imagediff"%string]> cfg))) by reflexivity.
  assert (Hdis : forall c : gmap string string,
    (configureGitDifftool (git_system path) false c).1.2 = None /\
    (configureGitDifftool (git_system path) false c).2
    = delete "difftool.imagediff.cmd"%string (delete "diff.tool"%string c)).
  { intros c. unfold configureGitDifftool, git_system, git_config_store.
    change ("difftool." ++ "imagediff" ++ ".cmd")%string with "difftool.imagediff.cmd"%string.
    cbn [os_Executable cmd_Run String.eqb Ascii.eqb Bool.eqb andb negb].
    destruct (c !! "diff.tool"%string) as [v|] eqn:E1;
      cbn [String.eqb Ascii.eqb Bool.eqb andb negb].
    - destruct (delete "diff.tool"%string c !! "difftool.imagediff.cmd"%string) as [v'|] eqn:E2;
        cbn [String.eqb Ascii.eqb Bool.eqb andb negb fst snd]; split; try reflexivity.
      symmetry. apply delete_id. exact E2.
    - rewrite (delete_id c "diff.tool"%string) by exact E1.
      destruct (c !! "difftool.imagediff.cmd"%string) as [v'|] eqn:E2;
        cbn [String.eqb Ascii.eqb Bool.eqb andb negb fst snd]; split; try reflexivity.
      symmetry. apply delete_id. exact E2. }
  rewrite Hen. cbn [fst snd].
  split; [reflexivity|]. split; [reflexivity|].
  split; [apply Hdis|]. split; [apply Hdis|].
  rewrite (proj2 (Hdis _)), (proj2 (Hdis cfg)).
  rewrite (delete_insert_ne _ "diff.tool"%string "difftool.imagediff.cmd"%string) by discriminate.
  rewrite !delete_insert_eq. reflexivity.
Qed.

(** ** Normalization on constant images *)

Lemma calculateImageStats_uniform img c :
  int_rect (Bounds img) -> well_formed (Bounds img) -> positive_area (Bounds img) ->
  255 * (Dx (Bounds img) * Dy (Bounds img)) < 2 ^ 53 ->
  valid_RGBA c ->
  (forall x y, in_chunk x y (whole (Bounds img)) = true -> At img x y = RGBA_RGBA c) ->
  calculateImageStats img
  = mkStats (F64.of_uint (R c)) (F64.of_uint (G c)) (F64.of_uint (B c))
      (F64.of_uint (A c)) 0 0 0 0.
Proof.
  intros Hint Hwf Hpos Hsize (Hr & Hg & Hb & Ha) Hconst.
  assert (Hn : 0 < Dx (Bounds img) * Dy (Bounds img)) by (destruct Hpos; nia).
  assert (Hmax : Dx (Bounds img) * Dy (Bounds img) <= GoInt.max_int).
  { assert (2 ^ 53 < GoInt.max_int) by reflexivity. lia. }
  destruct (count_pixels_rect _ Hint Hwf Hpos Hmax) as [_ Hlen].
  rewrite (calculateImageStats_population img Hint Hwf Hpos Hmax).
  assert (Hch : forall ch v, 0 <= v < 256 -> ch (RGBA_RGBA c) = widen v ->
    population_mean (channel ch img) = F64.of_uint v /\
    population_std (channel ch img) = 0%float).
  { intros ch v Hv Hcv. apply population_const; try assumption.
    - apply channel_const. intros x y Hin. rewrite Hconst, Hcv by assumption.
      apply chan_widen, Hv.
    - unfold channel. rewrite length_map, Hlen. exact Hn.
    - unfold channel. rewrite length_map, Hlen. exact Hsize. }
  destruct (Hch r16 (R c) Hr eq_refl) as [-> ->].
  destruct (Hch g16 (G c) Hg eq_refl) as [-> ->].
  destruct (Hch b16 (B c) Hb eq_refl) as [-> ->].
  destruct (Hch a16 (A c) Ha eq_refl) as [-> ->].
  reflexivity.
Qed.

Lemma channelDiffs_zero_std c1 c2 stats1 stats2 :
  stdR stats1 = 0%float -> stdG stats1 = 0%float -> stdB stats1 = 0%float ->
  stdA stats1 = 0%float ->
  stdR stats2 = 0%float -> stdG stats2 = 0%float -> stdB stats2 = 0%float ->
  stdA stats2 = 0%float ->
  channelDiffs c1 c2 stats1 stats2 true = channelDiffs c1 c2 stats1 stats2 false.
Proof.
  intros H1 H2 H3 H4 H5 H6 H7 H8. unfold channelDiffs, normalizePixel. cbv zeta.
  rewrite H1, H2, H3, H4, H5, H6, H7, H8.
  change (0 =? 0)%float with true. reflexivity.
Qed.

(** X20. Normalization has no effect on constant images: when each of the
    two images has one 8-bit colour on all of its pixels (and 255 times
    the number of pixels is below 2^53), the statistics main computes have
    standard deviation 0 on every channel, normalizePixel returns every
    value unchanged, and computeDiffChunk with -normalized produces the same
    image and counts as without it, for the same scale factor. *)
Theorem normalized_constant_images cv img1 img2 c1 c2 d chunk sf mode :
  int_rect (Bounds img1) -> well_formed (Bounds img1) -> positive_area (Bounds img1) ->
  Bounds img2 = Bounds img1 ->
  255 * (Dx (Bounds img1) * Dy (Bounds img1)) < 2 ^ 53 ->
  valid_RGBA c1 -> valid_RGBA c2 ->
  (forall x y, In_rect x y (Bounds img1) = true ->
     At img1 x y = RGBA_RGBA c1 /\ At img2 x y = RGBA_RGBA c2) ->
  computeDiffChunk cv img1 img2 d chunk (calculateImageStats img1)
    (calculateImageStats img2) true sf mode
  = computeDiffChunk cv img1 img2 d chunk zero_stats zero_stats false sf mode.
Proof.
  intros Hint Hwf Hpos Hb Hsize Hc1 Hc2 Hconst.
  rewrite (calculateImageStats_uniform img1 c1), (calculateImageStats_uniform img2 c2);
    try assumption; try (rewrite Hb; assumption).
  2:{ intros x y Hin. rewrite Hb, in_chunk_whole in Hin. apply (Hconst x y Hin). }
  2:{ intros x y Hin. rewrite in_chunk_whole in Hin. apply (Hconst x y Hin). }
  unfold computeDiffChunk.
  apply for_lt_ext. intros y s. apply for_lt_ext. intros x [dimg [[n1 n2] n3]].
  unfold diffPixel.
  rewrite channelDiffs_zero_std by reflexivity.
  reflexivity.
Qed.

Lemma normalized_constant_images_witness :
  let img1 := as_Image (createTestImage 2 2 (mkRGBA 100 150 200 255)) in
  let img2 := as_Image (createTestImage 2 2 (mkRGBA 120 170 220 255)) in
  int_rect (Bounds img1) /\ well_formed (Bounds img1) /\ positive_area (Bounds img1) /\
  Bounds img2 = Bounds img1 /\
  255 * (Dx (Bounds img1) * Dy (Bounds img1)) < 2 ^ 53 /\
  computeDiffChunk sample_conv img1 img2 (NewRGBA (Bounds img1)) (mkChunk 0 2 0 2)
    (calculateImageStats img1) (calculateImageStats img2) true 50 "color"
  = computeDiffChunk sample_conv img1 img2 (NewRGBA (Bounds img1)) (mkChunk 0 2 0 2)
      zero_stats zero_stats false 50 "color".
Proof.
  cbv zeta.
  set (img1 := as_Image (createTestImage 2 2 (mkRGBA 100 150 200 255))).
  set (img2 := as_Image (createTestImage 2 2 (mkRGBA 120 170 220 255))).
  assert (Hint : int_rect (Bounds img1)) by (repeat split; vm_compute; discriminate).
  assert (Hwf : well_formed (Bounds img1)) by (split; vm_compute; discriminate).
  assert (Hpos : positive_area (Bounds img1)) by (split; vm_compute; reflexivity).
  assert (Hb : Bounds img2 = Bounds img1) by reflexivity.
  assert (Hsize : 255 * (Dx (Bounds img1) * Dy (Bounds img1)) < 2 ^ 53)
    by (vm_compute; reflexivity).
  repeat (split; [assumption|]).
  apply (normalized_constant_images sample_conv img1 img2
           (mkRGBA 100 150 200 255) (mkRGBA 120 170 220 255)); try assumption.
  - repeat split; vm_compute; congruence.
  - repeat split; vm_compute; congruence.
  - intros x y Hin. unfold In_rect in Hin.
    change (Bounds img1) with (mkRect (mkPoint 0 0) (mkPoint 2 2)) in Hin.
    cbn [Min Max X Y] in Hin.
    rewrite !andb_true_iff, !Z.leb_le, !Z.ltb_lt in Hin.
    assert (Ex : x = 0 \/ x = 1) by lia. assert (Ey : y = 0 \/ y = 1) by lia.
    destruct Ex as [-> | ->], Ey as [-> | ->]; split; vm_compute; reflexivity.
Defined.
